(** * webHandler: a serialized websocket control loop

    A shallow embedding of the Go package [webHandler] (files
    [transmitter.go], [webHandler.go], [public.go], [private.go]) and the
    properties of its transmitters, its outbound dispatcher, its control
    loop, its connection readers and its shutdown sequence.

    Conventions of the embedding.
    - A [*websocket.Conn] is a pointer: its identity is a [positive], the
      nil pointer is [None] of an [option].
    - A [SocketHandler] interface value is a dynamic type and a value of
      that type; a nil interface is [None] of an [option]. [==] on two
      interface values panics when both have the same dynamic type and
      that type is not comparable.
    - A [chan Transmitter] is a reference into a heap of buffered channels;
      a nil channel is [None] of an [option].
    - [uint8] and [time.Duration] values are integers of [Z].
    - [for k, v := range m] over a Go map visits the entries in an order
      the language leaves open: every such loop takes the visiting order
      as an argument, constrained to be a permutation of the entries. *)

From Stdlib Require Import ZArith Lia.
From stdpp Require Import base option list gmap strings fin_maps.

Local Open Scope Z_scope.

(** ** Basic data *)

Definition bytes := list Byte.byte.

(** Identity of a live [*websocket.Conn]. *)
Definition Conn := positive.

(** A Go type as far as [==] looks at it: which type it is, and whether
    its values can be compared. Slices, maps, functions and the structs
    and arrays holding them cannot; pointers can. Where a struct has
    fields of interface type, the dynamic types those fields hold count
    as part of the type. *)
Record GoType := mkType {
  type_id : positive;
  type_comparable : bool
}.

#[global] Instance GoType_eq_dec : EqDecision GoType.
Proof. solve_decision. Defined.

(** A [SocketHandler] of the handler map: the dynamic type and the
    value the interface holds. A nil handler in the map given to
    [InitWebHandler] stands here as the one value of a comparable type of
    its own, every call on which panics. *)
Record SocketHandler := mkHandler {
  dyn_type : GoType;
  dyn_value : positive
}.

#[global] Instance SocketHandler_eq_dec : EqDecision SocketHandler.
Proof. solve_decision. Defined.

(** [a == b] on interface values: false when the dynamic types differ or
    only one side is nil, true when both are nil; with one dynamic type
    on both sides the values are compared, which panics ([None]) when
    that type is not comparable. *)
Definition iface_eq (a b : option SocketHandler) : option bool :=
  match a, b with
  | Some x, Some y =>
      if bool_decide (dyn_type x = dyn_type y) then
        if type_comparable (dyn_type x)
        then Some (bool_decide (dyn_value x = dyn_value y))
        else None
      else Some false
  | None, None => Some true
  | _, _ => Some false
  end.

Arguments iface_eq : simpl never.

(** Reference to a [chan Transmitter]. *)
Definition ChanRef := positive.

(** ** transmitter.go *)

Module Transmit.

(** [type Transmitter struct { ws; sh; wt; msg; mode; maxMode }] *)
Record Transmitter := mkTransmitter {
  ws : option Conn;
  sh : option SocketHandler;
  wt : option ChanRef;
  msg : bytes;
  mode : Z;
  maxMode : Z
}.

(** The zero value of the struct. *)
Definition zero : Transmitter :=
  {| ws := None; sh := None; wt := None; msg := []; mode := 0; maxMode := 0 |}.

Definition Broadcast : Z := 0.
Definition Handle : Z := 1.
Definition Socket : Z := 2.

(** Assignments to single fields, [trCopy.msg = data] and
    [trCopy.mode = mode]. *)
Definition set_msg (d : bytes) (t : Transmitter) : Transmitter :=
  {| ws := ws t; sh := sh t; wt := wt t; msg := d; mode := mode t;
     maxMode := maxMode t |}.

Definition set_mode (m : Z) (t : Transmitter) : Transmitter :=
  {| ws := ws t; sh := sh t; wt := wt t; msg := msg t; mode := m;
     maxMode := maxMode t |}.

Definition GetHandler (t : Transmitter) : option SocketHandler := sh t.

Definition GetModes (t : Transmitter) : list Z :=
  if maxMode t =? Socket then [Broadcast; Handle; Socket]
  else if maxMode t =? Handle then [Broadcast; Handle]
  else [Broadcast].

(** A channel operation requested by a method body: [c <- v]. *)
Inductive ChanOp :=
| ChSend (c : ChanRef) (v : Transmitter).

(** What a call of [Send] leaves behind: the receiver [t] as it stands in
    the callee's frame when the method returns, the channel operations the
    body performed, in order, and the returned boolean. *)
Record SendResult := mkSendResult {
  sr_t : Transmitter;
  sr_ops : list ChanOp;
  sr_ret : bool
}.

(** [func (t Transmitter) Send(data []byte, mode uint8) bool] *)
Definition Send (t : Transmitter) (data : bytes) (mode : Z) : SendResult :=
  if maxMode t <? mode then
    {| sr_t := t; sr_ops := []; sr_ret := false |}
  else
    match wt t with
    | None => {| sr_t := t; sr_ops := []; sr_ret := false |}
    | Some c =>
        let trCopy := t in
        let trCopy := set_msg data trCopy in
        let trCopy := set_mode mode trCopy in
        {| sr_t := t; sr_ops := [ChSend c trCopy]; sr_ret := true |}
    end.

(** A buffered channel, [make(chan Transmitter, cap)]. *)
Record Chan := mkChan {
  ch_cap : nat;
  ch_buf : list Transmitter
}.

Definition chan_push (v : Transmitter) (ch : Chan) : Chan :=
  {| ch_cap := ch_cap ch; ch_buf := ch_buf ch ++ [v] |}.

(** A send on a buffered channel goes through when the buffer has room;
    otherwise the sender stays blocked ([None]). *)
Definition chan_send (v : Transmitter) (ch : Chan) : option Chan :=
  if decide (length (ch_buf ch) < ch_cap ch)%nat then Some (chan_push v ch)
  else None.

(** A receive takes the oldest element; it blocks on an empty buffer. *)
Definition chan_recv (ch : Chan) : option (Transmitter * Chan) :=
  match ch_buf ch with
  | [] => None
  | v :: rest => Some (v, {| ch_cap := ch_cap ch; ch_buf := rest |})
  end.

(** Running the channel operations of a method body against the heap of
    channels. [None]: some operation cannot go through in this heap. *)
Fixpoint run_ops (ops : list ChanOp) (h : gmap ChanRef Chan)
  : option (gmap ChanRef Chan) :=
  match ops with
  | [] => Some h
  | ChSend c v :: rest =>
      match h !! c with
      | None => None
      | Some ch =>
          match chan_send v ch with
          | None => None
          | Some ch' => run_ops rest (<[c := ch']> h)
          end
      end
  end.

(** The call [t.Send(data, mode)] against a heap: the returned boolean
    and the heap after the call, or [None] while the call is blocked. *)
Definition Send_run (t : Transmitter) (data : bytes) (mode : Z)
    (h : gmap ChanRef Chan) : option (bool * gmap ChanRef Chan) :=
  let r := Send t data mode in
  match run_ops (sr_ops r) h with
  | None => None
  | Some h' => Some (sr_ret r, h')
  end.

(** The envelope [Send] builds from [t]. *)
Definition envelope (t : Transmitter) (data : bytes) (mode : Z) : Transmitter :=
  {| ws := ws t; sh := sh t; wt := wt t; msg := data; mode := mode;
     maxMode := maxMode t |}.

End Transmit.

Import Transmit.

(** ** webHandler.go *)

(** [type cmdStruct struct { msg; h; ws }]: what a connection reader hands
    to the control loop. Readers build it from a connection that was
    upgraded, which is not nil, and from the handler of their connect
    function. *)
Record cmdStruct := mkCmd {
  cmd_msg : bytes;
  cmd_h : SocketHandler;
  cmd_ws : Conn
}.

(** An [http.HandlerFunc] made by [makeConnectHandler]: the closure with
    its two captured variables. *)
Record ConnectFunc := mkConnectFunc {
  cf_sh : SocketHandler;
  cf_timeout : Z
}.

(** [type WebHandler struct]. A [chan struct{}] that is only ever closed
    is the boolean "closed"; the wait group is its counter; the mutex is
    the boolean "held". The [upgrader] is the transport's and has no
    field here. *)
Record WebHandler := mkWebHandler {
  exitReceive : bool;
  exitTransmit : bool;
  finishedExit : bool;
  doneConn : bool;
  wsWG : Z;
  clientLock : bool;
  webReceive : list cmdStruct;
  webTransmit : ChanRef;
  clients : gmap Conn SocketHandler;
  wFuncs : gmap string ConnectFunc
}.

Definition webReceive_cap : nat := 5.
Definition webTransmit_cap : nat := 10.

(** The user's [SystemCommander], as far as the package looks at it:
    what [Start] answers to a map of transmitters ([None] is the nil
    error) and the two durations it reports. *)
Record SystemCommander := mkCommander {
  sc_Start : gmap string Transmitter → option string;
  sc_UpdateFrequency : Z;
  sc_MessageTimeout : Z
}.

(** A call into user code. *)
Inductive Call :=
| CmdStop
| CmdUpdate (tr : Transmitter)
| CmdMessage (m : bytes) (h : SocketHandler) (tr : Transmitter)
| HdlUpdate (h : SocketHandler) (tr : Transmitter)
| HdlMessage (h : SocketHandler) (m : bytes) (tr : Transmitter).

(** ** private.go: the outbound dispatcher *)

(** What the dispatcher does to the outside: a write on a connection, a
    log line when that write reports an error, and a panic, which ends
    the goroutine where it stands. *)
Inductive DispEvent :=
| EvWrite (c : Conn) (payload : bytes)
| EvLog (c : Conn)
| EvPanic.

Section Dispatcher.
(** Whether [WriteMessage] on a connection reports an error. *)
Variable write_fails : Conn → bool.

Definition write_to (c : Conn) (payload : bytes) : list DispEvent :=
  EvWrite c payload :: (if write_fails c then [EvLog c] else []).

(** [for ws, handle := range wh.clients { if handle == m.sh { ... } }]:
    the loop ends where the comparison panics. *)
Fixpoint handle_loop (order : list (Conn * SocketHandler)) (m : Transmitter)
  : list DispEvent :=
  match order with
  | [] => []
  | (c, handle) :: rest =>
      match iface_eq (Some handle) (sh m) with
      | None => [EvPanic]
      | Some true => write_to c (msg m) ++ handle_loop rest m
      | Some false => handle_loop rest m
      end
  end.

(** The body of [case m := <-wh.webTransmit] in [handleWebsocketSend],
    from [Lock] on. [order] is the order in which [range wh.clients]
    visits the registry. Without an [EvPanic] the body gets to its
    [Unlock]. *)
Definition dispatch (clients : gmap Conn SocketHandler)
    (order : list (Conn * SocketHandler)) (m : Transmitter)
  : list DispEvent :=
  if mode m =? Socket then
    match ws m with
    | Some c =>
        match clients !! c with
        | Some _ => write_to c (msg m)
        | None => []
        end
    | None => []
    end
  else if mode m =? Handle then handle_loop order m
  else if mode m =? Broadcast then
    flat_map (λ '(c, _), write_to c (msg m)) order
  else [].
End Dispatcher.

(** The connections written to, in order. *)
Fixpoint written (evs : list DispEvent) : list Conn :=
  match evs with
  | [] => []
  | EvWrite c _ :: rest => c :: written rest
  | EvLog _ :: rest => written rest
  | EvPanic :: rest => written rest
  end.


(** Whether the dispatcher panicked. *)
Fixpoint panics (evs : list DispEvent) : bool :=
  match evs with
  | [] => false
  | EvPanic :: _ => true
  | _ :: rest => panics rest
  end.

(** ** private.go: the control loop *)

(** The transmitter of a message callback:
    [Transmitter{wt: wh.webTransmit, maxMode: Socket, ws: m.ws, sh: m.h}]. *)
Definition message_tr (wtref : ChanRef) (m : cmdStruct) : Transmitter :=
  {| ws := Some (cmd_ws m); sh := Some (cmd_h m); wt := Some wtref;
     msg := []; mode := 0; maxMode := Socket |}.

(** [Transmitter{wt: wh.webTransmit, maxMode: Broadcast}] *)
Definition commander_update_tr (wtref : ChanRef) : Transmitter :=
  {| ws := None; sh := None; wt := Some wtref;
     msg := []; mode := 0; maxMode := Broadcast |}.

(** [Transmitter{wt: wh.webTransmit, maxMode: Handle, sh: sh}] *)
Definition handler_tr (wtref : ChanRef) (h : SocketHandler) : Transmitter :=
  {| ws := None; sh := Some h; wt := Some wtref;
     msg := []; mode := 0; maxMode := Handle |}.

(** The calls of [case m, ok := <-wh.webReceive] when [ok]. *)
Definition message_calls (wtref : ChanRef) (m : cmdStruct) : list Call :=
  let tr := message_tr wtref m in
  [CmdMessage (cmd_msg m) (cmd_h m) tr; HdlMessage (cmd_h m) (cmd_msg m) tr].

(** The calls of [case <-ticker.C]. *)
Definition update_calls (wtref : ChanRef) (sl : list SocketHandler) : list Call :=
  CmdUpdate (commander_update_tr wtref)
    :: map (λ h, HdlUpdate h (handler_tr wtref h)) sl.

(** Which case a [select] of the control loop takes. A receive on
    [webReceive] yields [Some m] with [ok] true, or [None] with [ok]
    false. *)
Inductive LoopSelect :=
| SelRecv (m : option cmdStruct)
| SelTick
| SelExit.

(** [run]: the loop without a ticker. It has no ticker case, so a
    [SelTick] never comes up; the loop is then left waiting. The result
    is the calls made and whether the loop was left by [break loop].
    Every call into user code returns here; the running system further
    down also lets a call panic. *)
Fixpoint run (wtref : ChanRef) (sels : list LoopSelect) : list Call * bool :=
  match sels with
  | [] => ([], false)
  | SelRecv (Some m) :: rest =>
      let '(cs, fin) := run wtref rest in (message_calls wtref m ++ cs, fin)
  | SelRecv None :: rest => run wtref rest
  | SelTick :: _ => ([], false)
  | SelExit :: _ => ([], true)
  end.

(** [runUpdate]: the loop with a ticker. *)
Fixpoint runUpdate (wtref : ChanRef) (sl : list SocketHandler)
    (sels : list LoopSelect) : list Call * bool :=
  match sels with
  | [] => ([], false)
  | SelRecv (Some m) :: rest =>
      let '(cs, fin) := runUpdate wtref sl rest in
      (message_calls wtref m ++ cs, fin)
  | SelRecv None :: rest => runUpdate wtref sl rest
  | SelTick :: rest =>
      let '(cs, fin) := runUpdate wtref sl rest in
      (update_calls wtref sl ++ cs, fin)
  | SelExit :: _ => ([], true)
  end.

(** [handleWebsocketReceive]: the loop chosen by the rate, then the
    deferred function once the loop is left: [sc.Stop()] and
    [close(wh.finishedExit)]. The boolean tells whether [finishedExit] was
    closed. *)
Definition handleWebsocketReceive (wtref : ChanRef) (sl : list SocketHandler)
    (rate : Z) (sels : list LoopSelect) : list Call * bool :=
  let '(cs, fin) :=
    if 0 <? rate then runUpdate wtref sl sels else run wtref sels in
  if fin then (cs ++ [CmdStop], true) else (cs, false).

(** A case the loop can take and go on after: a receive, and a tick
    when the loop has a ticker. *)
Definition live (ticker : bool) (x : LoopSelect) : bool :=
  match x with
  | SelRecv _ => true
  | SelTick => ticker
  | SelExit => false
  end.

(** ** public.go: construction *)

(** What [InitWebHandler] does that the outside can see: a call of a
    method of the commander, or the start of a goroutine with its
    arguments. *)
Inductive InitEvent :=
| EvStart (tm : gmap string Transmitter)
| EvMessageTimeout
| EvUpdateFrequency
| EvGoSend
| EvGoReceive (sl : list SocketHandler) (rate : Z).

(** A computation that appends to the log of such events. *)
Definition Init (A : Type) : Type := list InitEvent → A * list InitEvent.

Definition init_ret {A} (a : A) : Init A := λ log, (a, log).

Definition init_bind {A B} (m : Init A) (k : A → Init B) : Init B :=
  λ log, let '(a, log') := m log in k a log'.

Definition init_emit (e : InitEvent) : Init unit := λ log, (tt, log ++ [e]).

#[global] Instance init_mret : MRet Init := @init_ret.
#[global] Instance init_mbind : MBind Init := λ A B k m, init_bind m k.

Definition call_Start (sc : SystemCommander) (tm : gmap string Transmitter)
  : Init (option string) :=
  init_emit (EvStart tm) ;; mret (sc_Start sc tm).

Definition call_MessageTimeout (sc : SystemCommander) : Init Z :=
  init_emit EvMessageTimeout ;; mret (sc_MessageTimeout sc).

Definition call_UpdateFrequency (sc : SystemCommander) : Init Z :=
  init_emit EvUpdateFrequency ;; mret (sc_UpdateFrequency sc).

(** [wh.makeConnectHandler(sh, timeout)] *)
Definition makeConnectHandler (sh : SocketHandler) (timeout : Z) : ConnectFunc :=
  {| cf_sh := sh; cf_timeout := timeout |}.

(** The struct literal at the head of [InitWebHandler]; [wtref] is the
    channel [make(chan Transmitter, 10)] returned. *)
Definition new_WebHandler (wtref : ChanRef) : WebHandler :=
  {| exitReceive := false; exitTransmit := false; finishedExit := false;
     doneConn := false; wsWG := 0; clientLock := false; webReceive := [];
     webTransmit := wtref; clients := ∅; wFuncs := ∅ |}.

Definition set_wFuncs (f : gmap string ConnectFunc) (w : WebHandler) : WebHandler :=
  {| exitReceive := exitReceive w; exitTransmit := exitTransmit w;
     finishedExit := finishedExit w; doneConn := doneConn w; wsWG := wsWG w;
     clientLock := clientLock w; webReceive := webReceive w;
     webTransmit := webTransmit w; clients := clients w; wFuncs := f |}.

(** First loop of [InitWebHandler]: [tm[s] = Transmitter{...}]. *)
Definition init_tm (wtref : ChanRef) (order : list (string * SocketHandler))
  : gmap string Transmitter :=
  foldl (λ tm '(s, h), <[s := handler_tr wtref h]> tm) ∅ order.

(** Second loop: [sl = append(sl, h)] and [wh.wFuncs[s] = ...]. *)
Definition init_funcs (timeout : Z) (order : list (string * SocketHandler))
    (wh : WebHandler) : list SocketHandler * WebHandler :=
  foldl (λ '(sl, w) '(s, h),
           (sl ++ [h], set_wFuncs (<[s := makeConnectHandler h timeout]> (wFuncs w)) w))
        ([], wh) order.

(** [InitWebHandler(sc, hm)]. [order1] and [order2] are the orders in
    which the two [range hm] loops visit the map. The result is the
    pointer ([None] is nil) and the error ([None] is nil). *)
Definition InitWebHandler (wtref : ChanRef)
    (order1 order2 : list (string * SocketHandler)) (sc : SystemCommander)
  : Init (option WebHandler * option string) :=
  let wh := new_WebHandler wtref in
  let tm := init_tm wtref order1 in
  err ← call_Start sc tm;
  match err with
  | Some e => mret (None, Some e)
  | None =>
      timeout ← call_MessageTimeout sc;
      let '(sl, wh) := init_funcs timeout order2 wh in
      init_emit EvGoSend ;;
      rate ← call_UpdateFrequency sc;
      init_emit (EvGoReceive sl rate) ;;
      mret (Some wh, None)
  end.

(** The events of a successful construction, in order. *)
Definition init_events (sc : SystemCommander) (tm : gmap string Transmitter)
    (sl : list SocketHandler) : list InitEvent :=
  [EvStart tm; EvMessageTimeout; EvGoSend; EvUpdateFrequency;
   EvGoReceive sl (sc_UpdateFrequency sc)].

(** [GetWebFunc]: a map index; a missing key yields the nil function. *)
Definition GetWebFunc (wh : WebHandler) (s : string) : option ConnectFunc :=
  wFuncs wh !! s.

(** [keys[i] = k] on a slice: an index out of range panics ([None]). *)
Definition slice_set (keys : list string) (i : nat) (k : string)
  : option (list string) :=
  if decide (i < length keys)%nat then Some (<[i := k]> keys) else None.

(** The loop of [GetNames] from index [i] on: [keys[i] = k; i++] for each
    entry visited. *)
Fixpoint GetNames_loop (order : list (string * ConnectFunc))
    (keys : list string) (i : nat) : option (list string) :=
  match order with
  | [] => Some keys
  | (k, _) :: rest =>
      match slice_set keys i k with
      | Some keys' => GetNames_loop rest keys' (S i)
      | None => None
      end
  end.

(** [GetNames]: [make([]string, len(wh.wFuncs))], then the loop; [order]
    is the order of [range wh.wFuncs]. The index is a [uint64] in the
    source; no map has that many entries. *)
Definition GetNames (wh : WebHandler) (order : list (string * ConnectFunc))
  : option (list string) :=
  GetNames_loop order (replicate (size (wFuncs wh)) ""%string) 0.

(** ** The running system

    The goroutines of one [WebHandler] and the memory they share. A
    goroutine is a function of the package with its arguments and the
    point its execution has reached; a step of the system is a step of
    one goroutine, chosen freely, or an action of the surroundings: the
    HTTP server calls a connect function in a new goroutine, user code
    calls [Shutdown], user code calls [Send].

    A stretch of code between [clientLock.Lock()] and its [Unlock()] is
    one step, taken with the lock free; the lock stays held only where
    the code panics while holding it. A call into user code begins with
    one step and ends with another, so that other goroutines run in
    between; it ends by returning or by panicking. Time at the hand-over
    of a reader is the count of units it has waited there.

    A panic that nothing recovers ends its goroutine and, with it, the
    program. The end of the program is not a step of the system: the
    goroutine stays at the point of its panic and the others may go on,
    as they do until the runtime has exited. Every state the program goes
    through is a state the system reaches. *)

Definition set_exitReceive (b : bool) (w : WebHandler) : WebHandler :=
  {| exitReceive := b; exitTransmit := exitTransmit w;
     finishedExit := finishedExit w; doneConn := doneConn w; wsWG := wsWG w;
     clientLock := clientLock w; webReceive := webReceive w;
     webTransmit := webTransmit w; clients := clients w; wFuncs := wFuncs w |}.

Definition set_exitTransmit (b : bool) (w : WebHandler) : WebHandler :=
  {| exitReceive := exitReceive w; exitTransmit := b;
     finishedExit := finishedExit w; doneConn := doneConn w; wsWG := wsWG w;
     clientLock := clientLock w; webReceive := webReceive w;
     webTransmit := webTransmit w; clients := clients w; wFuncs := wFuncs w |}.

Definition set_finishedExit (b : bool) (w : WebHandler) : WebHandler :=
  {| exitReceive := exitReceive w; exitTransmit := exitTransmit w;
     finishedExit := b; doneConn := doneConn w; wsWG := wsWG w;
     clientLock := clientLock w; webReceive := webReceive w;
     webTransmit := webTransmit w; clients := clients w; wFuncs := wFuncs w |}.

Definition set_doneConn (b : bool) (w : WebHandler) : WebHandler :=
  {| exitReceive := exitReceive w; exitTransmit := exitTransmit w;
     finishedExit := finishedExit w; doneConn := b; wsWG := wsWG w;
     clientLock := clientLock w; webReceive := webReceive w;
     webTransmit := webTransmit w; clients := clients w; wFuncs := wFuncs w |}.

Definition set_wsWG (n : Z) (w : WebHandler) : WebHandler :=
  {| exitReceive := exitReceive w; exitTransmit := exitTransmit w;
     finishedExit := finishedExit w; doneConn := doneConn w; wsWG := n;
     clientLock := clientLock w; webReceive := webReceive w;
     webTransmit := webTransmit w; clients := clients w; wFuncs := wFuncs w |}.

Definition set_clientLock (b : bool) (w : WebHandler) : WebHandler :=
  {| exitReceive := exitReceive w; exitTransmit := exitTransmit w;
     finishedExit := finishedExit w; doneConn := doneConn w; wsWG := wsWG w;
     clientLock := b; webReceive := webReceive w;
     webTransmit := webTransmit w; clients := clients w; wFuncs := wFuncs w |}.

Definition set_webReceive (q : list cmdStruct) (w : WebHandler) : WebHandler :=
  {| exitReceive := exitReceive w; exitTransmit := exitTransmit w;
     finishedExit := finishedExit w; doneConn := doneConn w; wsWG := wsWG w;
     clientLock := clientLock w; webReceive := q;
     webTransmit := webTransmit w; clients := clients w; wFuncs := wFuncs w |}.

Definition set_clients (c : gmap Conn SocketHandler) (w : WebHandler) : WebHandler :=
  {| exitReceive := exitReceive w; exitTransmit := exitTransmit w;
     finishedExit := finishedExit w; doneConn := doneConn w; wsWG := wsWG w;
     clientLock := clientLock w; webReceive := webReceive w;
     webTransmit := webTransmit w; clients := c; wFuncs := wFuncs w |}.

(** [close(ch)] on a channel that is only ever closed: [None] is the
    panic of closing a closed channel. *)
Definition close_chan (closed : bool) : option bool :=
  if closed then None else Some true.

(** The memory the goroutines share: the [WebHandler], the heap of
    outbound channels, the connections [Close] was called on, the
    identity the next upgraded connection gets, and two histories: the
    calls into user code in the order they began, and what the
    dispatcher did to the outside. *)
Record Mem := mkMem {
  m_wh : WebHandler;
  m_chans : gmap ChanRef Chan;
  m_closed : gset Conn;
  m_next : Conn;
  m_calls : list Call;
  m_out : list DispEvent
}.

Definition with_wh (w : WebHandler) (m : Mem) : Mem :=
  {| m_wh := w; m_chans := m_chans m; m_closed := m_closed m;
     m_next := m_next m; m_calls := m_calls m; m_out := m_out m |}.

Definition with_chans (h : gmap ChanRef Chan) (m : Mem) : Mem :=
  {| m_wh := m_wh m; m_chans := h; m_closed := m_closed m;
     m_next := m_next m; m_calls := m_calls m; m_out := m_out m |}.

Definition with_closed (c : gset Conn) (m : Mem) : Mem :=
  {| m_wh := m_wh m; m_chans := m_chans m; m_closed := c;
     m_next := m_next m; m_calls := m_calls m; m_out := m_out m |}.

Definition with_next (n : Conn) (m : Mem) : Mem :=
  {| m_wh := m_wh m; m_chans := m_chans m; m_closed := m_closed m;
     m_next := n; m_calls := m_calls m; m_out := m_out m |}.

Definition with_calls (cs : list Call) (m : Mem) : Mem :=
  {| m_wh := m_wh m; m_chans := m_chans m; m_closed := m_closed m;
     m_next := m_next m; m_calls := cs; m_out := m_out m |}.

Definition with_out (o : list DispEvent) (m : Mem) : Mem :=
  {| m_wh := m_wh m; m_chans := m_chans m; m_closed := m_closed m;
     m_next := m_next m; m_calls := m_calls m; m_out := o |}.

(** Points of [handleWebsocketReceive]: at the [select] of its loop;
    inside the user call [c] of a case body, with the calls the body
    still has to make; inside the deferred [sc.Stop()], the loop left by
    [break loop]; inside the deferred [sc.Stop()], a call of a case body
    having panicked; returned; ended by the panic of a call of a case
    body, the deferred function run through; ended by a panic inside the
    deferred function. *)
Inductive CtrlPc :=
| CtrlSelect
| CtrlCall (c : Call) (rest : list Call)
| CtrlStop
| CtrlUnwind
| CtrlDone
| CtrlFault
| CtrlPanic.

(** Points of [handleWebsocketSend]: at the [select]; holding an envelope
    and about to take the lock; returned; ended by a panic. *)
Inductive SendPc :=
| SendSelect
| SendWrite (m : Transmitter)
| SendDone
| SendPanic.

(** Points of [handleConnection]: before the first [Lock]; at
    [ws.ReadMessage()]; at the [select] that hands [message] over, for
    [elapsed] units of time; loop left, deferred function not yet begun;
    deregistered, before [ws.Close()] and [wsWG.Done()]; returned. *)
Inductive ConnPc :=
| ConnEntry
| ConnRead (ws : Conn)
| ConnHandoff (ws : Conn) (message : bytes) (elapsed : Z)
| ConnClosing (ws : Conn)
| ConnClosed (ws : Conn)
| ConnReturned.

(** Points of [Shutdown]: before the [Lock]; at [wsWG.Wait()]; before
    [close(wh.exitReceive)]; at [<-wh.finishedExit]; returned; stopped by
    a panic. *)
Inductive ShPc :=
| ShEntry
| ShWait
| ShCloseExit
| ShAwait
| ShReturned
| ShPanic.

Inductive Thread :=
| TReceive (sl : list SocketHandler) (rate : Z) (pc : CtrlPc)
| TSend (pc : SendPc)
| TConn (handle : SocketHandler) (timeout : Z) (pc : ConnPc)
| TShutdown (pc : ShPc).

Record State := mkState {
  mem : Mem;
  threads : list Thread
}.

Definition upd_wh (f : WebHandler → WebHandler) (m : Mem) : Mem :=
  with_wh (f (m_wh m)) m.

(** The control loop begins the calls of a case body: it is inside the
    first one, or back at the [select] when there is none. *)
Definition enter (cs : list Call) (m : Mem) : Mem * CtrlPc :=
  match cs with
  | [] => (m, CtrlSelect)
  | c :: rest => (with_calls (m_calls m ++ [c]) m, CtrlCall c rest)
  end.

(** Steps of [handleWebsocketReceive(sc, sl, rate)]. A call of a case
    body that panics leaves both loops at once ([runUpdate]'s deferred
    [ticker.Stop()] is the ticker's own affair) and the deferred function
    of [handleWebsocketReceive] runs: [sc.Stop()], then
    [close(wh.finishedExit)], after which the panic goes on and ends the
    goroutine. [sc.Stop()] is a call into user code as well. A call that
    ends its goroutine with [runtime.Goexit] takes the same steps. *)
Inductive receive_step (sl : list SocketHandler) (rate : Z)
  : Mem → CtrlPc → Mem → CtrlPc → Prop :=
| recv_message m c q r :
    webReceive (m_wh m) = c :: q →
    r = enter (message_calls (webTransmit (m_wh m)) c)
              (upd_wh (set_webReceive q) m) →
    receive_step sl rate m CtrlSelect r.1 r.2
| recv_tick m r :
    0 < rate →
    r = enter (update_calls (webTransmit (m_wh m)) sl) m →
    receive_step sl rate m CtrlSelect r.1 r.2
| recv_exit m :
    exitReceive (m_wh m) = true →
    receive_step sl rate m CtrlSelect
      (with_calls (m_calls m ++ [CmdStop]) m) CtrlStop
| recv_return m c rest r :
    r = enter rest m →
    receive_step sl rate m (CtrlCall c rest) r.1 r.2
| recv_stopped m b :
    close_chan (finishedExit (m_wh m)) = Some b →
    receive_step sl rate m CtrlStop (upd_wh (set_finishedExit b) m) CtrlDone
| recv_stopped_panic m :
    close_chan (finishedExit (m_wh m)) = None →
    receive_step sl rate m CtrlStop m CtrlPanic
| recv_fault m c rest :
    receive_step sl rate m (CtrlCall c rest)
      (with_calls (m_calls m ++ [CmdStop]) m) CtrlUnwind
| recv_unwound m b :
    close_chan (finishedExit (m_wh m)) = Some b →
    receive_step sl rate m CtrlUnwind (upd_wh (set_finishedExit b) m) CtrlFault
| recv_unwound_panic m :
    close_chan (finishedExit (m_wh m)) = None →
    receive_step sl rate m CtrlUnwind m CtrlPanic
| recv_Stop_fault m :
    receive_step sl rate m CtrlStop m CtrlPanic
| recv_unwind_Stop_fault m :
    receive_step sl rate m CtrlUnwind m CtrlPanic.

(** Steps of [handleWebsocketSend()]. The function defers nothing: where
    the handler comparison panics the lock stays held. *)
Inductive send_step : Mem → SendPc → Mem → SendPc → Prop :=
| send_recv m ch e ch' :
    m_chans m !! webTransmit (m_wh m) = Some ch →
    chan_recv ch = Some (e, ch') →
    send_step m SendSelect
      (with_chans (<[webTransmit (m_wh m) := ch']> (m_chans m)) m) (SendWrite e)
| send_dispatch m e order write_fails :
    clientLock (m_wh m) = false →
    order ≡ₚ map_to_list (clients (m_wh m)) →
    panics (dispatch write_fails (clients (m_wh m)) order e) = false →
    send_step m (SendWrite e)
      (with_out (m_out m ++ dispatch write_fails (clients (m_wh m)) order e) m)
      SendSelect
| send_exit m :
    exitTransmit (m_wh m) = true →
    send_step m SendSelect m SendDone
| send_dispatch_panic m e order write_fails :
    clientLock (m_wh m) = false →
    order ≡ₚ map_to_list (clients (m_wh m)) →
    panics (dispatch write_fails (clients (m_wh m)) order e) = true →
    send_step m (SendWrite e)
      (with_out (m_out m ++ dispatch write_fails (clients (m_wh m)) order e)
         (upd_wh (set_clientLock true) m))
      SendPanic.

(** Steps of [handleConnection(w, r, handle, timeout)]. *)
Inductive conn_step (handle : SocketHandler) (timeout : Z)
  : Mem → ConnPc → Mem → ConnPc → Prop :=
| conn_refused m :
    clientLock (m_wh m) = false →
    doneConn (m_wh m) = true →
    conn_step handle timeout m ConnEntry m ConnReturned
| conn_upgrade_failed m :
    clientLock (m_wh m) = false →
    doneConn (m_wh m) = false →
    conn_step handle timeout m ConnEntry
      (upd_wh (set_wsWG (wsWG (m_wh m) + 1)) m) ConnReturned
| conn_registered m :
    clientLock (m_wh m) = false →
    doneConn (m_wh m) = false →
    conn_step handle timeout m ConnEntry
      (with_next (Pos.succ (m_next m))
         (upd_wh (λ w, set_clients (<[m_next m := handle]> (clients w))
                         (set_wsWG (wsWG w + 1) w)) m))
      (ConnRead (m_next m))
| conn_read m ws message :
    ws ∉ m_closed m →
    conn_step handle timeout m (ConnRead ws) m (ConnHandoff ws message 0)
| conn_read_error m ws :
    conn_step handle timeout m (ConnRead ws) m (ConnClosing ws)
| conn_wait m ws message elapsed d :
    0 < d →
    conn_step handle timeout m (ConnHandoff ws message elapsed)
      m (ConnHandoff ws message (elapsed + d))
| conn_handed m ws message elapsed :
    (length (webReceive (m_wh m)) < webReceive_cap)%nat →
    conn_step handle timeout m (ConnHandoff ws message elapsed)
      (upd_wh (λ w, set_webReceive
                      (webReceive w ++ [mkCmd message handle ws]) w) m)
      (ConnRead ws)
| conn_timed_out m ws message elapsed :
    0 < timeout →
    timeout ≤ elapsed →
    conn_step handle timeout m (ConnHandoff ws message elapsed) m (ConnRead ws)
| conn_exit m ws message elapsed :
    exitReceive (m_wh m) = true →
    conn_step handle timeout m (ConnHandoff ws message elapsed)
      m (ConnClosing ws)
| conn_deregister m ws :
    clientLock (m_wh m) = false →
    conn_step handle timeout m (ConnClosing ws)
      (upd_wh (λ w, set_clients (delete ws (clients w)) w) m) (ConnClosed ws)
| conn_done m ws :
    conn_step handle timeout m (ConnClosed ws)
      (with_closed ({[ws]} ∪ m_closed m)
         (upd_wh (set_wsWG (wsWG (m_wh m) - 1)) m))
      ConnReturned.

(** Steps of [Shutdown()]. *)
Inductive shutdown_step : Mem → ShPc → Mem → ShPc → Prop :=
| sh_close_conns m b :
    clientLock (m_wh m) = false →
    close_chan (doneConn (m_wh m)) = Some b →
    shutdown_step m ShEntry
      (with_closed (dom (clients (m_wh m)) ∪ m_closed m)
         (upd_wh (λ w, set_clients ∅ (set_doneConn b w)) m))
      ShWait
| sh_twice m :
    clientLock (m_wh m) = false →
    close_chan (doneConn (m_wh m)) = None →
    shutdown_step m ShEntry (upd_wh (set_clientLock true) m) ShPanic
| sh_waited m :
    wsWG (m_wh m) = 0 →
    shutdown_step m ShWait m ShCloseExit
| sh_close_exit m b :
    close_chan (exitReceive (m_wh m)) = Some b →
    shutdown_step m ShCloseExit (upd_wh (set_exitReceive b) m) ShAwait
| sh_close_exit_panic m :
    close_chan (exitReceive (m_wh m)) = None →
    shutdown_step m ShCloseExit m ShPanic
| sh_finished m b :
    finishedExit (m_wh m) = true →
    close_chan (exitTransmit (m_wh m)) = Some b →
    shutdown_step m ShAwait (upd_wh (set_exitTransmit b) m) ShReturned
| sh_finished_panic m :
    finishedExit (m_wh m) = true →
    close_chan (exitTransmit (m_wh m)) = None →
    shutdown_step m ShAwait m ShPanic.

Inductive thread_step : Mem → Thread → Mem → Thread → Prop :=
| ts_receive sl rate m pc m' pc' :
    receive_step sl rate m pc m' pc' →
    thread_step m (TReceive sl rate pc) m' (TReceive sl rate pc')
| ts_send m pc m' pc' :
    send_step m pc m' pc' →
    thread_step m (TSend pc) m' (TSend pc')
| ts_conn handle timeout m pc m' pc' :
    conn_step handle timeout m pc m' pc' →
    thread_step m (TConn handle timeout pc) m' (TConn handle timeout pc')
| ts_shutdown m pc m' pc' :
    shutdown_step m pc m' pc' →
    thread_step m (TShutdown pc) m' (TShutdown pc').

(** The transmitters user code can hold: those the package hands out,
    and the zero value. *)
Definition issued (wtref : ChanRef) (t : Transmitter) : Prop :=
  (∃ h, t = handler_tr wtref h) ∨ t = commander_update_tr wtref
  ∨ (∃ c, t = message_tr wtref c) ∨ t = zero.

Inductive step : State → State → Prop :=
| step_thread s i th m' th' :
    threads s !! i = Some th →
    thread_step (mem s) th m' th' →
    step s (mkState m' (<[i := th']> (threads s)))
| step_accept s name cf :
    GetWebFunc (m_wh (mem s)) name = Some cf →
    step s (mkState (mem s)
              (threads s ++ [TConn (cf_sh cf) (cf_timeout cf) ConnEntry]))
| step_call_Shutdown s :
    step s (mkState (mem s) (threads s ++ [TShutdown ShEntry]))
| step_user_Send s t data md b h' :
    issued (webTransmit (m_wh (mem s))) t →
    Send_run t data md (m_chans (mem s)) = Some (b, h') →
    step s (mkState (with_chans h' (mem s)) (threads s)).

(** The goroutine an event of [InitWebHandler] starts. *)
Definition spawned (e : InitEvent) : list Thread :=
  match e with
  | EvGoSend => [TSend SendSelect]
  | EvGoReceive sl rate => [TReceive sl rate CtrlSelect]
  | _ => []
  end.

(** The system as a successful [InitWebHandler] leaves it. *)
Definition boot (wtref : ChanRef) (order1 order2 : list (string * SocketHandler))
    (sc : SystemCommander) : option State :=
  match InitWebHandler wtref order1 order2 sc [] with
  | ((Some wh, _), log) =>
      Some {| mem := {| m_wh := wh;
                        m_chans := {[wtref := mkChan webTransmit_cap []]};
                        m_closed := ∅; m_next := 1%positive;
                        m_calls := []; m_out := [] |};
              threads := flat_map spawned log |}
  | _ => None
  end.

Definition reachable (s0 s : State) : Prop := rtc step s0 s.

(** Counting the goroutines of a pool with a weight. *)
Definition total (w : Thread → Z) (l : list Thread) : Z :=
  foldr (λ th acc, w th + acc) 0 l.

(** Inside a callback sequence: the body of a message case or of a
    ticker case of the control loop. *)
Definition in_sequence (th : Thread) : Z :=
  match th with
  | TReceive _ _ (CtrlCall _ _) => 1
  | _ => 0
  end.

Definition is_receive (th : Thread) : Z :=
  match th with
  | TReceive _ _ _ => 1
  | _ => 0
  end.

(** A reader that has called [wsWG.Add(1)] and not yet [wsWG.Done()]. *)
Definition holds_wait (th : Thread) : Z :=
  match th with
  | TConn _ _ (ConnRead _ | ConnHandoff _ _ _ | ConnClosing _ | ConnClosed _) => 1
  | _ => 0
  end.

(** A call of [Shutdown] past its critical section and not stopped by a
    panic. *)
Definition past_entry (th : Thread) : Z :=
  match th with
  | TShutdown (ShWait | ShCloseExit | ShAwait | ShReturned) => 1
  | _ => 0
  end.

(** A call of [Shutdown] between [wsWG.Wait()] and
    [close(wh.exitReceive)]. *)
Definition closing_exit (th : Thread) : Z :=
  match th with
  | TShutdown ShCloseExit => 1
  | _ => 0
  end.

(** What ties the wait group to the readers and to [Shutdown]: the
    counter covers every reader between [Add] and [Done]; once a call of
    [Shutdown] is past its critical section no connection is accepted any
    more; and [Wait] has returned only with the counter at zero, where it
    then stays. *)
Definition wait_inv (s : State) : Prop :=
  let w := m_wh (mem s) in
  total holds_wait (threads s) ≤ wsWG w
  ∧ (0 < total past_entry (threads s) → doneConn w = true)
  ∧ (exitReceive w = true ∨ 0 < total closing_exit (threads s) →
       doneConn w = true ∧ wsWG w = 0).

(** The number of calls of [Stop] in a history of calls. *)
Fixpoint stop_calls (cs : list Call) : Z :=
  match cs with
  | [] => 0
  | CmdStop :: rest => 1 + stop_calls rest
  | _ :: rest => stop_calls rest
  end.

(** The control loop has left its loop: it is inside [sc.Stop()] or
    beyond. *)
Definition stopping (th : Thread) : Z :=
  match th with
  | TReceive _ _ (CtrlStop | CtrlUnwind | CtrlDone | CtrlFault | CtrlPanic) => 1
  | _ => 0
  end.

(** The control loop has returned. *)
Definition ctl_done (th : Thread) : Z :=
  match th with
  | TReceive _ _ CtrlDone => 1
  | _ => 0
  end.

(** The control loop has left its loop by [break loop] and is inside
    [sc.Stop()] or has returned. *)
Definition left_by_break (th : Thread) : Z :=
  match th with
  | TReceive _ _ (CtrlStop | CtrlDone) => 1
  | _ => 0
  end.

(** The control loop was ended by the panic of a call of a case body,
    its deferred function run through. *)
Definition ctl_fault (th : Thread) : Z :=
  match th with
  | TReceive _ _ CtrlFault => 1
  | _ => 0
  end.

(** The control loop is being ended, or has been ended, by a panic: of a
    call of a case body or of [sc.Stop()]. *)
Definition ctl_broken (th : Thread) : Z :=
  match th with
  | TReceive _ _ (CtrlUnwind | CtrlFault | CtrlPanic) => 1
  | _ => 0
  end.

(** Calls of [Stop] a case body of the control loop still has to make
    (there are none). *)
Definition pending_stop (th : Thread) : Z :=
  match th with
  | TReceive _ _ (CtrlCall _ rest) => stop_calls rest
  | _ => 0
  end.

(** A call of [Shutdown] that has returned. *)
Definition sh_returned (th : Thread) : Z :=
  match th with
  | TShutdown ShReturned => 1
  | _ => 0
  end.

(** What ties the history of calls to the control loop and to
    [Shutdown]: [Stop] is called when the one control loop leaves its
    loop, and it is then the last call of the history; leaving the loop
    by [break loop] takes a closed [exitReceive]; [finishedExit] is
    closed only once the control loop has returned or has been ended by
    the panic of a call, its deferred function run through; [Shutdown]
    returns only after that; and a closed [doneConn] goes with an empty
    registry. *)
Definition stop_inv (s : State) : Prop :=
  let w := m_wh (mem s) in
  total is_receive (threads s) = 1
  ∧ total pending_stop (threads s) = 0
  ∧ stop_calls (m_calls (mem s)) = total stopping (threads s)
  ∧ (stop_calls (m_calls (mem s)) = 0
     ∨ ∃ pre, m_calls (mem s) = pre ++ [CmdStop] ∧ stop_calls pre = 0)
  ∧ (0 < total left_by_break (threads s) → exitReceive w = true)
  ∧ (finishedExit w = true →
     total ctl_done (threads s) + total ctl_fault (threads s) = 1)
  ∧ (0 < total sh_returned (threads s) → finishedExit w = true)
  ∧ (doneConn w = true → clients w = ∅).

(** A wait group that counts more than the readers that will call
    [Done]: [Wait] cannot return, so [exitReceive] stays open. *)
Definition leak_inv (s : State) : Prop :=
  let w := m_wh (mem s) in
  total holds_wait (threads s) < wsWG w
  ∧ exitReceive w = false
  ∧ total closing_exit (threads s) = 0.

(** The control loop has something other to do than wait at its
    [select] without a ticker. *)
Definition ctl_busy (th : Thread) : Z :=
  match th with
  | TReceive _ rate CtrlSelect => if 0 <? rate then 1 else 0
  | TReceive _ _ _ => 1
  | _ => 0
  end.

(** A reader of a connection that was upgraded: it may yet hand a
    message to the control loop. *)
Definition reading (th : Thread) : Z :=
  match th with
  | TConn _ _ (ConnRead _ | ConnHandoff _ _ _) => 1
  | _ => 0
  end.

(** A control loop with nothing to do, for good: no ticker, an empty
    inbound queue, no reader left to fill it and no connection accepted
    any more, and [exitReceive] open. No call into user code is made,
    [Stop] included. *)
Definition idle_inv (s : State) : Prop :=
  let w := m_wh (mem s) in
  total ctl_busy (threads s) = 0
  ∧ total reading (threads s) = 0
  ∧ webReceive w = []
  ∧ doneConn w = true
  ∧ exitReceive w = false
  ∧ stop_calls (m_calls (mem s)) = 0.

(** How far the history of calls has got with a case body the control
    loop began when the history was [base]: the loop is inside one of the
    body's calls and the history ends with the body up to that call; or
    the whole body is in the history, in one piece, followed by whatever
    came later; or one of the body's calls has panicked, and the history
    ends with the body up to that call and the deferred [Stop]. *)
Definition body_progress (base body : list Call) (s : State) : Prop :=
  (∃ i sl rate done c todo,
     body = done ++ c :: todo
     ∧ threads s !! i = Some (TReceive sl rate (CtrlCall c todo))
     ∧ m_calls (mem s) = base ++ done ++ [c])
  ∨ (∃ more, m_calls (mem s) = base ++ body ++ more)
  ∨ (∃ i sl rate pc done c todo,
       body = done ++ c :: todo
       ∧ threads s !! i = Some (TReceive sl rate pc)
       ∧ ctl_broken (TReceive sl rate pc) = 1
       ∧ m_calls (mem s) = base ++ done ++ [c; CmdStop]).

(** The control loop of the running system against the loop as a
    function: some sequence of cases taken accounts for the history of
    calls. While the loop runs, none of the cases was the exit, and the
    function's calls are the history followed by what the current case
    body still has to call; once the loop is left by [break loop], the
    last case was the exit and the function's calls are the history;
    where a panic ends the loop, the history is calls of the function,
    from the first one on, and then [Stop]. *)
Definition loop_refines (wtref : ChanRef) (s : State) : Prop :=
  webTransmit (m_wh (mem s)) = wtref
  ∧ ∃ i sl rate pc sels,
      threads s !! i = Some (TReceive sl rate pc)
      ∧ match pc with
        | CtrlSelect =>
            forallb (live (0 <? rate)) sels = true
            ∧ (handleWebsocketReceive wtref sl rate sels).1 = m_calls (mem s)
        | CtrlCall _ rest =>
            forallb (live (0 <? rate)) sels = true
            ∧ (handleWebsocketReceive wtref sl rate sels).1
              = m_calls (mem s) ++ rest
        | CtrlStop | CtrlDone =>
            ∃ pre, sels = pre ++ [SelExit]
              ∧ forallb (live (0 <? rate)) pre = true
              ∧ handleWebsocketReceive wtref sl rate sels
                = (m_calls (mem s), true)
        | CtrlUnwind | CtrlFault | CtrlPanic =>
            forallb (live (0 <? rate)) sels = true
            ∧ ∃ made more,
                m_calls (mem s) = made ++ [CmdStop]
                ∧ (handleWebsocketReceive wtref sl rate sels).1 = made ++ more
        end.

(** The envelopes waiting on the outbound channel, and the one the
    dispatcher holds, stay within the ceiling they carry. *)
Definition holds_envelope (th : Thread) (e : Transmitter) : Prop :=
  th = TSend (SendWrite e).

Definition ceiling_inv (s : State) : Prop :=
  (∀ ch e, m_chans (mem s) !! webTransmit (m_wh (mem s)) = Some ch →
           e ∈ ch_buf ch → mode e ≤ maxMode e)
  ∧ (∀ th e, th ∈ threads s → holds_envelope th e → mode e ≤ maxMode e).

(** A goroutine that panicked between [clientLock.Lock()] and the
    [Unlock()]: another call of [Shutdown] at [close(wh.doneConn)], or
    the dispatcher at [handle == m.sh]. *)
Definition panicked_locked (th : Thread) : Z :=
  match th with
  | TShutdown ShPanic | TSend SendPanic => 1
  | _ => 0
  end.

(** [clientLock] is held between steps only where a goroutine has
    panicked holding it. *)
Definition lock_inv (s : State) : Prop :=
  clientLock (m_wh (mem s)) = true → 0 < total panicked_locked (threads s).

(** ** A scenario: one handler, one failed upgrade, one [Shutdown] *)

Module Scenario.

Definition wt0 : ChanRef := 1%positive.

(** The handlers are pointers to user objects, as in the package's
    readme: values of one comparable type. *)
Definition handler_type : GoType :=
  {| type_id := 1%positive; type_comparable := true |}.

Definition main_handler : SocketHandler :=
  {| dyn_type := handler_type; dyn_value := 1%positive |}.
Definition order0 : list (string * SocketHandler) := [("main"%string, main_handler)].

(** A commander whose [Start] succeeds, without ticker and without
    message timeout. *)
Definition sc0 : SystemCommander :=
  {| sc_Start := λ _, None; sc_UpdateFrequency := 0; sc_MessageTimeout := 0 |}.

Definition wh0 : WebHandler :=
  set_wFuncs {["main"%string := makeConnectHandler main_handler 0]}
    (new_WebHandler wt0).

Definition mem0 : Mem :=
  {| m_wh := wh0; m_chans := {[wt0 := mkChan webTransmit_cap []]};
     m_closed := ∅; m_next := 1%positive; m_calls := []; m_out := [] |}.

(** As [InitWebHandler] leaves the system. *)
Definition booted : State :=
  {| mem := mem0;
     threads := [TSend SendSelect; TReceive [main_handler] 0 CtrlSelect] |}.

(** The HTTP server has called the connect function of "main"; the
    upgrade failed and [handleConnection] returned; then [Shutdown] was
    called and went through its critical section. *)
Definition hung : State :=
  {| mem := upd_wh (λ w, set_clients ∅ (set_doneConn true w))
              (with_closed ∅ (upd_wh (set_wsWG 1) mem0));
     threads := [TSend SendSelect; TReceive [main_handler] 0 CtrlSelect;
                 TConn main_handler 0 ConnReturned; TShutdown ShWait] |}.

(** A second course of events from [booted]: a connection on "main" is
    upgraded and registered, and its reader has read [ping] and stands at
    the hand-over. *)
Definition ping : bytes := [Byte.x70; Byte.x69; Byte.x6e; Byte.x67].

Definition conn1 : Conn := 1%positive.

Definition mem_registered : Mem :=
  with_next 2%positive
    (upd_wh (λ w, set_clients (<[conn1 := main_handler]> (clients w))
                    (set_wsWG (wsWG w + 1) w)) mem0).

Definition handing : State :=
  {| mem := mem_registered;
     threads := [TSend SendSelect; TReceive [main_handler] 0 CtrlSelect;
                 TConn main_handler 0 (ConnHandoff conn1 ping 0)] |}.

(** The queue took the message and the control loop took it from the
    queue: it is inside the commander's [Message]. *)
Definition ping_cmd : cmdStruct := mkCmd ping main_handler conn1.

Definition in_call : State :=
  {| mem := with_calls [CmdMessage ping main_handler (message_tr wt0 ping_cmd)]
              (upd_wh (set_webReceive [])
                 (upd_wh (λ w, set_webReceive (webReceive w ++ [ping_cmd]) w)
                    mem_registered));
     threads := [TSend SendSelect;
                 TReceive [main_handler] 0
                   (CtrlCall (CmdMessage ping main_handler (message_tr wt0 ping_cmd))
                      [HdlMessage main_handler ping (message_tr wt0 ping_cmd)]);
                 TConn main_handler 0 (ConnRead conn1)] |}.

(** The handler map behind [order0]. *)
Definition hm0 : gmap string SocketHandler := {["main"%string := main_handler]}.

(** A commander with a ticker, and one whose [Start] fails. *)
Definition sc_ticking : SystemCommander :=
  {| sc_Start := λ _, None; sc_UpdateFrequency := 5; sc_MessageTimeout := 0 |}.

Definition sc_failing : SystemCommander :=
  {| sc_Start := λ _, Some "no driver"%string; sc_UpdateFrequency := 5;
     sc_MessageTimeout := 0 |}.



Definition to_main : Transmitter :=
  {| ws := None; sh := Some main_handler; wt := Some wt0; msg := ping;
     mode := Handle; maxMode := Handle |}.





(** A third course of events from [booted]: [Shutdown] is called once and
    runs to its end; the control loop and the dispatcher have returned. *)
Definition shut_down : State :=
  {| mem := {| m_wh := {| exitReceive := true; exitTransmit := true;
                          finishedExit := true; doneConn := true; wsWG := 0;
                          clientLock := false; webReceive := [];
                          webTransmit := wt0; clients := ∅;
                          wFuncs := wFuncs wh0 |};
               m_chans := {[wt0 := mkChan webTransmit_cap []]};
               m_closed := ∅; m_next := 1%positive;
               m_calls := [CmdStop]; m_out := [] |};
     threads := [TSend SendDone; TReceive [main_handler] 0 CtrlDone;
                 TShutdown ShReturned] |}.

(** After [hung]: [Shutdown] is called a second time; the HTTP server
    calls the connect function of "main" once more. *)
Definition called_twice : State :=
  {| mem := mem hung; threads := threads hung ++ [TShutdown ShEntry] |}.

Definition late_request : State :=
  {| mem := mem hung;
     threads := threads hung ++ [TConn main_handler 0 ConnEntry] |}.

(** After [in_call]: the commander's [Message] panics, and the control
    loop is inside the deferred [sc.Stop()]; no [Shutdown] was called. *)
Definition faulted : State :=
  {| mem := with_calls (m_calls (mem in_call) ++ [CmdStop]) (mem in_call);
     threads := [TSend SendSelect; TReceive [main_handler] 0 CtrlUnwind;
                 TConn main_handler 0 (ConnRead conn1)] |}.

(** After [faulted]: [Stop] returns and the deferred function closes
    [finishedExit]; the panic ends the control loop. Before the runtime
    has ended the program, [Shutdown] is called and runs to its end:
    it closes the connection, whose reader leaves, and does not have to
    wait for the control loop. *)
Definition shut_down_after_fault : State :=
  let m1 := upd_wh (set_finishedExit true) (mem faulted) in
  let m2 := with_closed (dom (clients (m_wh m1)) ∪ m_closed m1)
              (upd_wh (λ w, set_clients ∅ (set_doneConn true w)) m1) in
  let m3 := upd_wh (λ w, set_clients (delete conn1 (clients w)) w) m2 in
  let m4 := with_closed ({[conn1]} ∪ m_closed m3)
              (upd_wh (set_wsWG (wsWG (m_wh m3) - 1)) m3) in
  let m5 := upd_wh (set_exitReceive true) m4 in
  {| mem := upd_wh (set_exitTransmit true) m5;
     threads := [TSend SendSelect; TReceive [main_handler] 0 CtrlFault;
                 TConn main_handler 0 ConnReturned; TShutdown ShReturned] |}.

(** A commander with a message timeout of one unit of time, the system
    as [InitWebHandler] leaves it, and a message that will have to
    wait. *)
Definition sc_impatient : SystemCommander :=
  {| sc_Start := λ _, None; sc_UpdateFrequency := 0; sc_MessageTimeout := 1 |}.

Definition impatient : State :=
  {| mem := {| m_wh := set_wFuncs
                         {["main"%string := makeConnectHandler main_handler 1]}
                         (new_WebHandler wt0);
               m_chans := {[wt0 := mkChan webTransmit_cap []]};
               m_closed := ∅; m_next := 1%positive;
               m_calls := []; m_out := [] |};
     threads := [TSend SendSelect; TReceive [main_handler] 0 CtrlSelect] |}.

Definition late : bytes := [Byte.x6c; Byte.x61; Byte.x74; Byte.x65].

Definition late_cmd : cmdStruct := mkCmd late main_handler conn1.

End Scenario.

(** ** What the interfaces promise about transmitters

    The comments of [SocketHandler] and [SystemCommander] in
    [webHandler.go] say which modes the transmitter of each method
    allows. [documented c] is that promise for the call [c], together
    with the handler the transmitter gives back. *)
Definition documented (c : Call) : Prop :=
  match c with
  | CmdStop => True
  | CmdUpdate tr => GetModes tr = [Broadcast] ∧ GetHandler tr = None
  | HdlUpdate h tr =>
      GetModes tr = [Broadcast; Handle] ∧ GetHandler tr = Some h
  | CmdMessage _ h tr | HdlMessage h _ tr =>
      GetModes tr = [Broadcast; Handle; Socket] ∧ GetHandler tr = Some h
  end.

(** A call of an [Update] method. *)
Definition is_update (c : Call) : bool :=
  match c with
  | CmdUpdate _ | HdlUpdate _ _ => true
  | _ => false
  end.

(** The connections a log line was written for, in order. *)
Fixpoint logged (evs : list DispEvent) : list Conn :=
  match evs with
  | [] => []
  | EvLog c :: rest => c :: logged rest
  | EvWrite _ _ :: rest => logged rest
  | EvPanic :: rest => logged rest
  end.

(** ** One call of [Shutdown] at a time through each stage *)

(** A call of [Shutdown] at [wsWG.Wait()] or about to close
    [exitReceive]. *)
Definition sh_wait (th : Thread) : Z :=
  match th with
  | TShutdown (ShWait | ShCloseExit) => 1
  | _ => 0
  end.

(** A call of [Shutdown] at [<-wh.finishedExit]. *)
Definition sh_await (th : Thread) : Z :=
  match th with
  | TShutdown ShAwait => 1
  | _ => 0
  end.

(** The dispatcher has returned. *)
Definition send_done (th : Thread) : Z :=
  match th with
  | TSend SendDone => 1
  | _ => 0
  end.

(** Each of the channels [doneConn], [exitReceive], [exitTransmit] is
    closed exactly when the one call of [Shutdown] that got through its
    critical section has passed the [close] in question; the dispatcher
    returns only on a closed [exitTransmit]. *)
Definition once_inv (s : State) : Prop :=
  let w := m_wh (mem s) in
  let waiting := total sh_wait (threads s) in
  let awaiting := total sh_await (threads s) in
  let returned := total sh_returned (threads s) in
  ((doneConn w = false ∧ waiting + awaiting + returned = 0)
   ∨ (doneConn w = true ∧ waiting + awaiting + returned = 1))
  ∧ ((exitReceive w = false ∧ awaiting + returned = 0)
     ∨ (exitReceive w = true ∧ 0 < awaiting + returned))
  ∧ ((exitTransmit w = false ∧ returned = 0)
     ∨ (exitTransmit w = true ∧ 0 < returned))
  ∧ (0 < total send_done (threads s) → exitTransmit w = true).

(** ** The registry and the readers *)

(** The connection a reader holds. *)
Definition conn_of (pc : ConnPc) : option Conn :=
  match pc with
  | ConnRead ws | ConnHandoff ws _ _ | ConnClosing ws | ConnClosed ws => Some ws
  | ConnEntry | ConnReturned => None
  end.

(** The reader is at a point between registering [ws] and taking it off
    the registry. *)
Definition serves (pc : ConnPc) (ws : Conn) : Prop :=
  match pc with
  | ConnRead c | ConnHandoff c _ _ | ConnClosing c => c = ws
  | _ => False
  end.

(** Every registered connection is open, was handed out by the upgrader
    and has a reader with the handler it is bound to; every connection a
    reader holds was handed out by the upgrader, a reader past its
    deregistration holds one that is off the registry, and no two readers
    hold the same connection. *)
Definition reg_inv (s : State) : Prop :=
  let m := mem s in
  (∀ ws h, clients (m_wh m) !! ws = Some h →
     (ws ∉ m_closed m) ∧ (ws < m_next m)%positive
     ∧ ∃ i timeout pc,
         threads s !! i = Some (TConn h timeout pc) ∧ serves pc ws)
  ∧ (∀ c, c ∈ m_closed m → (c < m_next m)%positive)
  ∧ (∀ i h t pc ws,
       threads s !! i = Some (TConn h t pc) → conn_of pc = Some ws →
       (ws < m_next m)%positive
       ∧ (pc = ConnClosed ws → clients (m_wh m) !! ws = None))
  ∧ (∀ i j h t pc h' t' pc' ws,
       threads s !! i = Some (TConn h t pc) →
       threads s !! j = Some (TConn h' t' pc') →
       conn_of pc = Some ws → conn_of pc' = Some ws → i = j).

(** A step that leaves the registry alone: the goroutine stays what it
    is and, if it is a reader, keeps its connection and its place with
    respect to the registry. *)
Definition same_conn (th th' : Thread) : Prop :=
  match th' with
  | TConn h t pc' =>
      ∃ pc, th = TConn h t pc
        ∧ (∀ ws, conn_of pc' = Some ws → conn_of pc = Some ws)
        ∧ (∀ ws, serves pc ws → serves pc' ws)
        ∧ (∀ ws, pc' ≠ ConnClosed ws)
  | _ => ∀ h t pc, th ≠ TConn h t pc
  end.





(** ** What is fixed at construction *)

(** The handler a call is made on or about is one of [handlers]. *)
Definition call_handler_in (handlers : list SocketHandler) (c : Call) : Prop :=
  match c with
  | CmdMessage _ h _ | HdlMessage h _ _ | HdlUpdate h _ => h ∈ handlers
  | CmdStop | CmdUpdate _ => True
  end.

(** A goroutine runs with the arguments [InitWebHandler] prepared: the
    control loop with its list of handlers and the update rate read from
    the commander, a reader with one of the handlers and the message
    timeout read from the commander. *)
Definition thread_configured (sc : SystemCommander)
    (handlers : list SocketHandler) (th : Thread) : Prop :=
  match th with
  | TReceive sl rate pc =>
      sl = handlers ∧ rate = sc_UpdateFrequency sc
      ∧ match pc with
        | CtrlCall _ rest => Forall (call_handler_in handlers) rest
        | _ => True
        end
  | TConn h timeout _ => h ∈ handlers ∧ timeout = sc_MessageTimeout sc
  | _ => True
  end.

Definition config_inv (sc : SystemCommander) (handlers : list SocketHandler)
    (s : State) : Prop :=
  Forall (thread_configured sc handlers) (threads s)
  ∧ (∀ name cf, wFuncs (m_wh (mem s)) !! name = Some cf →
       cf_sh cf ∈ handlers ∧ cf_timeout cf = sc_MessageTimeout sc)
  ∧ Forall (λ c, cmd_h c ∈ handlers) (webReceive (m_wh (mem s)))
  ∧ Forall (call_handler_in handlers) (m_calls (mem s)).

(** * Properties *)

(** ** Transmitters *)

Section TransmitterFacts.
Implicit Types (t e : Transmitter) (data : bytes) (m : Z).
Implicit Types (h : gmap ChanRef Chan).

Lemma Send_rejected t data m :
  maxMode t < m ∨ wt t = None →
  Send t data m = {| sr_t := t; sr_ops := []; sr_ret := false |}.
Proof.
  intros Hc. unfold Send.
  destruct (Z.ltb_spec (maxMode t) m) as [Hlt|Hge]; [done|].
  destruct Hc as [Hlt|Hnil]; [lia|]. by rewrite Hnil.
Qed.

Lemma Send_accepted t data m c :
  m ≤ maxMode t → wt t = Some c →
  Send t data m =
    {| sr_t := t; sr_ops := [ChSend c (envelope t data m)]; sr_ret := true |}.
Proof.
  intros Hle Hc. unfold Send.
  destruct (Z.ltb_spec (maxMode t) m) as [Hlt|Hge]; [lia|].
  by rewrite Hc.
Qed.

Lemma Send_cases t data m :
  (maxMode t < m ∨ wt t = None) ∨ (m ≤ maxMode t ∧ ∃ c, wt t = Some c).
Proof.
  destruct (Z.lt_ge_cases (maxMode t) m) as [?|?]; [by left; left|].
  destruct (wt t) as [c|] eqn:Hc; [right; eauto|by left; right].
Qed.

Lemma run_ops_single c e h ch :
  h !! c = Some ch → (length (ch_buf ch) < ch_cap ch)%nat →
  run_ops [ChSend c e] h = Some (<[c := chan_push e ch]> h).
Proof.
  intros Hh Hroom. simpl. rewrite Hh. unfold chan_send.
  by rewrite decide_True.
Qed.
End TransmitterFacts.

(** C2. [Send] returns false exactly when the requested mode exceeds the
    ceiling or no outbound channel is bound, and then performs no channel
    operation and leaves every channel as it was. Otherwise it returns
    true and performs exactly one channel send, of an envelope carrying
    the payload and the requested mode, on the bound channel; as soon as
    that channel has room the call completes with the envelope appended
    to its buffer. The mode of an enqueued envelope never exceeds the
    ceiling it carries, which is the ceiling of the transmitter. *)
Theorem Send_rejects_or_enqueues_one (t : Transmitter) (data : bytes) (m : Z)
    (h : gmap ChanRef Chan) :
  (sr_ret (Send t data m) = false ↔ (maxMode t < m ∨ wt t = None))
  ∧ (sr_ret (Send t data m) = false →
       sr_ops (Send t data m) = [] ∧ Send_run t data m h = Some (false, h))
  ∧ (sr_ret (Send t data m) = true →
       ∃ c e, wt t = Some c ∧ sr_ops (Send t data m) = [ChSend c e]
         ∧ msg e = data ∧ mode e = m
         ∧ maxMode e = maxMode t ∧ mode e ≤ maxMode e
         ∧ ∀ ch, h !! c = Some ch → (length (ch_buf ch) < ch_cap ch)%nat →
             Send_run t data m h = Some (true, <[c := chan_push e ch]> h)).
Proof.
  destruct (Send_cases t data m) as [Hrej|[Hle [c Hc]]].
  - pose proof (Send_rejected t data m Hrej) as E.
    unfold Send_run. rewrite E. simpl. repeat split; auto; done.
  - pose proof (Send_accepted t data m c Hle Hc) as E.
    unfold Send_run. rewrite E. simpl. split; [|split].
    + split; [done|]. intros [?|?]; [lia|congruence].
    + done.
    + intros _. exists c, (envelope t data m). repeat split; auto.
      intros ch Hh Hroom. fold (run_ops [ChSend c (envelope t data m)] h).
      by rewrite (run_ops_single _ _ _ _ Hh Hroom).
Qed.

(** C9. A call of [Send] leaves its receiver as it was: bound connection,
    bound handler, channel reference, ceiling, and also its message and
    mode fields. What goes on the channel agrees with the receiver on the
    first four and carries the payload and the requested mode. *)
Theorem Send_leaves_receiver_unchanged (t : Transmitter) (data : bytes) (m : Z) :
  sr_t (Send t data m) = t
  ∧ ∀ c e, ChSend c e ∈ sr_ops (Send t data m) →
      wt t = Some c
      ∧ ws e = ws t ∧ sh e = sh t ∧ wt e = wt t ∧ maxMode e = maxMode t
      ∧ msg e = data ∧ mode e = m.
Proof.
  destruct (Send_cases t data m) as [Hrej|[Hle [c Hc]]].
  - rewrite (Send_rejected t data m Hrej). simpl. split; [done|].
    intros c e Hin. by apply elem_of_nil in Hin.
  - rewrite (Send_accepted t data m c Hle Hc). simpl. split; [done|].
    intros c' e Hin. apply list_elem_of_singleton in Hin.
    injection Hin as -> ->. done.
Qed.

(** ** The outbound dispatcher *)

Section DispatcherFacts.
Variable write_fails : Conn → bool.
Implicit Types (clients : gmap Conn SocketHandler).
Implicit Types (order : list (Conn * SocketHandler)) (m : Transmitter).

Lemma written_app evs1 evs2 : written (evs1 ++ evs2) = written evs1 ++ written evs2.
Proof.
  induction evs1 as [|[c p|c|] evs1 IH]; simpl; [done| |done|done].
  by rewrite IH.
Qed.


Lemma panics_app evs1 evs2 :
  panics (evs1 ++ evs2) = panics evs1 || panics evs2.
Proof. induction evs1 as [|[c p|c|] evs1 IH]; simpl; done. Qed.

Lemma written_write_to c p : written (write_to write_fails c p) = [c].
Proof. unfold write_to. simpl. by destruct (write_fails c). Qed.


Lemma panics_write_to c p : panics (write_to write_fails c p) = false.
Proof. unfold write_to. simpl. by destruct (write_fails c). Qed.

(** The connections a loop over the registry writes to are those the
    loop's condition keeps, in visiting order. *)
Lemma written_loop (keep : SocketHandler → bool) p order :
  written (flat_map (λ '(c, handle),
             if keep handle then write_to write_fails c p else []) order)
  = (filter (λ e, keep e.2 = true) order).*1.
Proof.
  induction order as [|[c handle] order IH]; [done|].
  simpl. rewrite written_app, IH, filter_cons. simpl.
  destruct (keep handle) eqn:Hk.
  - rewrite written_write_to. by rewrite decide_True.
  - by rewrite decide_False.
Qed.


Lemma panics_loop (keep : SocketHandler → bool) p order :
  panics (flat_map (λ '(c, handle),
            if keep handle then write_to write_fails c p else []) order)
  = false.
Proof.
  induction order as [|[c handle] order IH]; [done|].
  simpl. rewrite panics_app, IH.
  destruct (keep handle); [|done]. by rewrite panics_write_to.
Qed.


Lemma order_lookup clients order c handle :
  order ≡ₚ map_to_list clients →
  (c, handle) ∈ order ↔ clients !! c = Some handle.
Proof. intros Hp. rewrite Hp. apply elem_of_map_to_list. Qed.


Lemma written_loop_elem (keep : SocketHandler → bool) p clients order c :
  order ≡ₚ map_to_list clients →
  c ∈ written (flat_map (λ '(c, handle),
             if keep handle then write_to write_fails c p else []) order)
  ↔ ∃ handle, clients !! c = Some handle ∧ keep handle = true.
Proof.
  intros Hp. rewrite written_loop, list_elem_of_fmap. split.
  - intros [[c' handle] [-> Hin]]. apply list_elem_of_filter in Hin as [Hk Hin].
    exists handle. split; [|done]. by apply (order_lookup clients order).
  - intros [handle [Hl Hk]]. exists (c, handle). split; [done|].
    apply list_elem_of_filter. split; [done|].
    by apply (order_lookup clients order).
Qed.

(** Where [==] on two interface values does not panic it decides their
    equality. *)
Lemma iface_eq_Some (a b : option SocketHandler) r :
  iface_eq a b = Some r → r = bool_decide (a = b).
Proof.
  unfold iface_eq. destruct a as [[ta va]|], b as [[tb vb]|]; simpl.
  - case_bool_decide as Ht; simpl in Ht.
    + destruct (type_comparable ta); [|done]. intros [= <-].
      subst tb. apply bool_decide_ext. split; [by intros ->|by intros [= ?]].
    + intros [= <-]. symmetry. apply bool_decide_eq_false_2. by intros [= ? ?].
  - by intros [= <-].
  - by intros [= <-].
  - by intros [= <-].
Qed.

(** It panics exactly on two values of one type that is not
    comparable. *)
Lemma iface_eq_None (handle : SocketHandler) (b : option SocketHandler) :
  iface_eq (Some handle) b = None
  ↔ ∃ h, b = Some h ∧ dyn_type handle = dyn_type h
         ∧ type_comparable (dyn_type h) = false.
Proof.
  unfold iface_eq. destruct b as [h|]; simpl.
  - case_bool_decide as Ht.
    + rewrite Ht. destruct (type_comparable (dyn_type h)) eqn:E.
      * split; [done|]. intros (h' & [= <-] & _ & ?). congruence.
      * split; [|done]. intros _. by exists h.
    + split; [done|]. intros (h' & [= <-] & ? & _). done.
  - split; [done|]. by intros (h' & ? & _).
Qed.

(** In a registry where no handler's comparison with the envelope's
    handler panics, the loop of the [Handle] case writes to the entries
    whose handler is the envelope's. *)
Lemma handle_loop_quiet order m :
  (∀ c handle, (c, handle) ∈ order → iface_eq (Some handle) (sh m) ≠ None) →
  handle_loop write_fails order m
  = flat_map (λ '(c, handle),
      if bool_decide (Some handle = sh m)
      then write_to write_fails c (msg m) else []) order.
Proof.
  induction order as [|[c handle] order IH]; [done|].
  intros Hq. simpl.
  destruct (iface_eq (Some handle) (sh m)) as [r|] eqn:E.
  - rewrite (iface_eq_Some _ _ _ E) in *.
    rewrite IH; [by destruct (bool_decide (Some handle = sh m))|].
    intros c' handle' Hin. apply (Hq c'). by right.
  - exfalso. apply (Hq c handle); [by left|done].
Qed.

(** Where some comparison panics the loop has written nothing before:
    the entries it passed have another type than the envelope's handler. *)
Lemma handle_loop_panic order m c handle :
  (c, handle) ∈ order → iface_eq (Some handle) (sh m) = None →
  handle_loop write_fails order m = [EvPanic].
Proof.
  intros Hin Hnone. apply iface_eq_None in Hnone as (h & Hs & Ht & Hc).
  induction order as [|[c' handle'] order IH]; [by apply elem_of_nil in Hin|].
  simpl. rewrite Hs. unfold iface_eq.
  case_bool_decide as Ht'.
  - rewrite Ht', Hc. done.
  - apply elem_of_cons in Hin as [[= <- <-]|Hin]; [done|]. by apply IH.
Qed.

Lemma handle_loop_cases clients order m :
  order ≡ₚ map_to_list clients →
  ((∃ c handle, clients !! c = Some handle
               ∧ iface_eq (Some handle) (sh m) = None)
   ∧ handle_loop write_fails order m = [EvPanic])
  ∨ ((∀ c handle, clients !! c = Some handle →
                  iface_eq (Some handle) (sh m) ≠ None)
     ∧ handle_loop write_fails order m
       = flat_map (λ '(c, handle),
           if bool_decide (Some handle = sh m)
           then write_to write_fails c (msg m) else []) order).
Proof.
  intros Hp.
  destruct (decide (Exists (λ e, iface_eq (Some e.2) (sh m) = None) order))
    as [Hex|Hno].
  - left. apply Exists_exists in Hex as ([c handle] & Hin & Hnone).
    simpl in Hnone. split.
    + exists c, handle. split; [|done]. by apply (order_lookup clients order).
    + by apply (handle_loop_panic order m c handle).
  - right. rewrite <- Forall_Exists_neg, Forall_forall in Hno. split.
    + intros c handle Hl. apply (Hno (c, handle)).
      by apply (order_lookup clients order).
    + apply handle_loop_quiet. intros c handle Hin. by apply (Hno (c, handle)).
Qed.
End DispatcherFacts.


(** ** The control loop *)

Section LoopFacts.
Variable wtref : ChanRef.
Implicit Types (sl : list SocketHandler) (pre sels : list LoopSelect).

Lemma run_app pre sels :
  forallb (live false) pre = true →
  run wtref (pre ++ sels)
  = ((run wtref pre).1 ++ (run wtref sels).1, (run wtref sels).2)
  ∧ (run wtref pre).2 = false.
Proof.
  induction pre as [|x pre IH]; simpl.
  - intros _. by destruct (run wtref sels).
  - destruct x as [[c|]| |]; simpl; try done; intros Hl;
      destruct (IH Hl) as [E1 E2]; try done.
    rewrite E1. destruct (run wtref pre) as [cs fin]. simpl in *.
    done.
Qed.

Lemma runUpdate_app sl pre sels :
  forallb (live true) pre = true →
  runUpdate wtref sl (pre ++ sels)
  = ((runUpdate wtref sl pre).1 ++ (runUpdate wtref sl sels).1,
     (runUpdate wtref sl sels).2)
  ∧ (runUpdate wtref sl pre).2 = false.
Proof.
  induction pre as [|x pre IH]; simpl.
  - intros _. by destruct (runUpdate wtref sl sels).
  - destruct x as [[c|]| |]; simpl; try done; intros Hl;
      destruct (IH Hl) as [E1 E2]; try done.
    + rewrite E1. destruct (runUpdate wtref sl pre) as [cs fin]. simpl in *.
      done.
    + rewrite E1. destruct (runUpdate wtref sl pre) as [cs fin]. simpl in *.
      by rewrite app_assoc.
Qed.

(** The calls of the whole goroutine, split at a case taken while the
    loop is running: [body] is what that case adds to the calls of the
    loop. *)
Lemma handleWebsocketReceive_split sl rate pre x sels body :
  forallb (live (0 <? rate)) pre = true →
  (∀ rest, (run wtref (x :: rest)).1 = body ++ (run wtref rest).1
           ∧ (run wtref (x :: rest)).2 = (run wtref rest).2) ∨ 0 < rate →
  (∀ rest, (runUpdate wtref sl (x :: rest)).1
             = body ++ (runUpdate wtref sl rest).1
           ∧ (runUpdate wtref sl (x :: rest)).2
             = (runUpdate wtref sl rest).2) ∨ rate ≤ 0 →
  (handleWebsocketReceive wtref sl rate (pre ++ x :: sels)).1
  = (handleWebsocketReceive wtref sl rate pre).1 ++ body
    ++ (handleWebsocketReceive wtref sl rate sels).1.
Proof.
  intros Hl Hr Hu. unfold handleWebsocketReceive.
  destruct (Z.ltb_spec 0 rate) as [Hpos|Hneg].
  - destruct Hu as [Hu|?]; [|lia]. destruct (Hu sels) as [E1 E2].
    destruct (runUpdate_app sl pre (x :: sels) Hl) as [Ea Eb].
    rewrite Ea, E1, E2.
    destruct (runUpdate wtref sl pre) as [cs1 f1]. simpl in Eb. subst f1.
    destruct (runUpdate wtref sl sels) as [cs2 f2]. simpl.
    destruct f2; simpl; by rewrite <- ?app_assoc.
  - destruct Hr as [Hr|?]; [|lia]. destruct (Hr sels) as [E1 E2].
    destruct (run_app pre (x :: sels) Hl) as [Ea Eb].
    rewrite Ea, E1, E2.
    destruct (run wtref pre) as [cs1 f1]. simpl in Eb. subst f1.
    destruct (run wtref sels) as [cs2 f2]. simpl.
    destruct f2; simpl; by rewrite <- ?app_assoc.
Qed.
End LoopFacts.

(** C4. Whatever the control loop did before while running, with or
    without a ticker, a message taken from the inbound queue adds exactly
    two calls, next to each other: the commander's [Message] with the
    payload and the originating handler, then that handler's [Message]
    with the payload. Both get the same transmitter: ceiling [Socket],
    bound to the originating handler and connection, on the outbound
    channel of the [WebHandler]. *)
Theorem message_calls_back_to_back (wtref : ChanRef) (sl : list SocketHandler)
    (rate : Z) (pre sels : list LoopSelect) (c : cmdStruct) :
  forallb (live (0 <? rate)) pre = true →
  ∃ tr,
    maxMode tr = Socket ∧ ws tr = Some (cmd_ws c) ∧ sh tr = Some (cmd_h c)
    ∧ wt tr = Some wtref
    ∧ (handleWebsocketReceive wtref sl rate (pre ++ SelRecv (Some c) :: sels)).1
      = (handleWebsocketReceive wtref sl rate pre).1
        ++ [CmdMessage (cmd_msg c) (cmd_h c) tr;
            HdlMessage (cmd_h c) (cmd_msg c) tr]
        ++ (handleWebsocketReceive wtref sl rate sels).1.
Proof.
  intros Hl. exists (message_tr wtref c). repeat split.
  apply (handleWebsocketReceive_split wtref sl rate pre _ sels
           (message_calls wtref c) Hl).
  - left. intros rest. simpl. by destruct (run wtref rest).
  - left. intros rest. simpl. by destruct (runUpdate wtref sl rest).
Qed.

(** ** Construction *)

Section InitFacts.
Variable wtref : ChanRef.
Implicit Types (order : list (string * SocketHandler)) (sc : SystemCommander).
Implicit Types (hm : gmap string SocketHandler) (log : list InitEvent).

Lemma InitWebHandler_eq order1 order2 sc log :
  InitWebHandler wtref order1 order2 sc log
  = match sc_Start sc (init_tm wtref order1) with
    | Some e => ((None, Some e), log ++ [EvStart (init_tm wtref order1)])
    | None =>
        let r := init_funcs (sc_MessageTimeout sc) order2 (new_WebHandler wtref) in
        ((Some r.2, None),
         log ++ init_events sc (init_tm wtref order1) r.1)
    end.
Proof.
  unfold InitWebHandler, call_Start, call_MessageTimeout, call_UpdateFrequency,
    init_events.
  unfold mbind, init_mbind, init_bind, mret, init_mret, init_ret, init_emit.
  destruct (sc_Start sc (init_tm wtref order1)) as [e|]; [reflexivity|].
  destruct (init_funcs _ order2 _) as [sl wh]. simpl.
  by rewrite <- !app_assoc.
Qed.

Lemma init_funcs_acc timeout order sl w :
  foldl (λ '(sl, w) '(s, h),
           (sl ++ [h],
            set_wFuncs (<[s := makeConnectHandler h timeout]> (wFuncs w)) w))
        (sl, w) order
  = (sl ++ order.*2,
     set_wFuncs
       (foldl (λ f '(s, h), <[s := makeConnectHandler h timeout]> f)
              (wFuncs w) order) w).
Proof.
  revert sl w. induction order as [|[s h] order IH]; intros sl w; simpl.
  - rewrite app_nil_r. by destruct w.
  - rewrite IH. simpl. by rewrite <- app_assoc.
Qed.

Lemma init_funcs_handlers timeout order w :
  (init_funcs timeout order w).1 = order.*2.
Proof. unfold init_funcs. by rewrite init_funcs_acc. Qed.

Lemma foldl_insert_lookup timeout order (f : gmap string ConnectFunc) s :
  NoDup order.*1 →
  foldl (λ f '(s, h), <[s := makeConnectHandler h timeout]> f) f order !! s
  = match (list_to_map order : gmap string SocketHandler) !! s with
    | Some h => Some (makeConnectHandler h timeout)
    | None => f !! s
    end.
Proof.
  revert f. induction order as [|[s0 h0] order IH]; intros f; simpl.
  - intros _. by rewrite lookup_empty.
  - rewrite NoDup_cons. intros [Hnotin Hnd]. rewrite IH by done.
    destruct (decide (s0 = s)) as [->|Hne].
    + rewrite lookup_insert_eq.
      rewrite (not_elem_of_list_to_map_1 order s) by done.
      by rewrite lookup_insert_eq.
    + by rewrite !(lookup_insert_ne _ s0 s) by done.
Qed.

Lemma init_funcs_lookup timeout order hm s :
  order ≡ₚ map_to_list hm →
  wFuncs (init_funcs timeout order (new_WebHandler wtref)).2 !! s
  = (λ h, makeConnectHandler h timeout) <$> hm !! s.
Proof.
  intros Hp. unfold init_funcs. rewrite init_funcs_acc. simpl.
  assert (Hnd : NoDup order.*1).
  { rewrite Hp. apply NoDup_fst_map_to_list. }
  rewrite foldl_insert_lookup by done.
  assert (E : (list_to_map order : gmap string SocketHandler) = hm).
  { rewrite <- (list_to_map_to_list hm). by apply list_to_map_proper. }
  rewrite E, lookup_empty. by destruct (hm !! s).
Qed.
End InitFacts.

(** C8. When [Start] answers with an error, [InitWebHandler] returns nil
    and that error; the call of [Start] is all it did: it read neither
    duration and started no goroutine, so no system comes up. *)
Theorem InitWebHandler_aborts_on_Start_error (wtref : ChanRef)
    (order1 order2 : list (string * SocketHandler)) (sc : SystemCommander)
    (log : list InitEvent) (e : string) :
  sc_Start sc (init_tm wtref order1) = Some e →
  InitWebHandler wtref order1 order2 sc log
  = ((None, Some e), log ++ [EvStart (init_tm wtref order1)])
  ∧ flat_map spawned (snd (InitWebHandler wtref order1 order2 sc [])) = []
  ∧ (EvMessageTimeout ∉ snd (InitWebHandler wtref order1 order2 sc []))
  ∧ (EvUpdateFrequency ∉ snd (InitWebHandler wtref order1 order2 sc []))
  ∧ boot wtref order1 order2 sc = None.
Proof.
  intros Hs. unfold boot. rewrite !InitWebHandler_eq, Hs. simpl.
  repeat split; try done.
  - intros Hin. apply list_elem_of_singleton in Hin. discriminate.
  - intros Hin. apply list_elem_of_singleton in Hin. discriminate.
Qed.

(** C10. On the [WebHandler] a successful [InitWebHandler] returns,
    [GetWebFunc] at a name of the handler map yields the connect function
    made for that name, closed over its handler and the commander's
    message timeout, and yields nil at every other string. *)
Theorem GetWebFunc_of_registered_name (wtref : ChanRef)
    (order1 order2 : list (string * SocketHandler)) (sc : SystemCommander)
    (hm : gmap string SocketHandler) (log : list InitEvent)
    (wh : WebHandler) (err : option string) (log' : list InitEvent) :
  order2 ≡ₚ map_to_list hm →
  InitWebHandler wtref order1 order2 sc log = ((Some wh, err), log') →
  ∀ s, GetWebFunc wh s
       = match hm !! s with
         | Some h => Some (makeConnectHandler h (sc_MessageTimeout sc))
         | None => None
         end.
Proof.
  intros Hp Hi s. rewrite InitWebHandler_eq in Hi.
  destruct (sc_Start sc (init_tm wtref order1)); [discriminate|].
  simpl in Hi. injection Hi as <- _ _. unfold GetWebFunc.
  rewrite (init_funcs_lookup wtref _ order2 hm s Hp). by destruct (hm !! s).
Qed.

(** C5. With a positive update rate the control loop has a ticker, and
    whatever it did before while running, a tick adds exactly one round
    of calls: first the commander's [Update] with a transmitter of
    ceiling [Broadcast] bound to no handler and no connection, then, for
    each handler of the list the loop was started with, that handler's
    [Update] with a transmitter of ceiling [Handle] bound to it. That list
    is the one [InitWebHandler] built: the handlers of the handler map,
    one entry per name, in the order its loop happened to visit the
    map. *)
Theorem tick_runs_one_update_round (wtref : ChanRef)
    (order1 order2 : list (string * SocketHandler)) (sc : SystemCommander)
    (hm : gmap string SocketHandler) (wh : WebHandler) (err : option string)
    (log : list InitEvent) (pre sels : list LoopSelect) :
  order2 ≡ₚ map_to_list hm →
  InitWebHandler wtref order1 order2 sc [] = ((Some wh, err), log) →
  0 < sc_UpdateFrequency sc →
  forallb (live true) pre = true →
  ∃ sl tr0 trh,
    flat_map spawned log
      = [TSend SendSelect; TReceive sl (sc_UpdateFrequency sc) CtrlSelect]
    ∧ sl ≡ₚ (map_to_list hm).*2
    ∧ (maxMode tr0 = Broadcast ∧ ws tr0 = None ∧ sh tr0 = None
       ∧ wt tr0 = Some wtref)
    ∧ (∀ h, maxMode (trh h) = Handle ∧ sh (trh h) = Some h
            ∧ ws (trh h) = None ∧ wt (trh h) = Some wtref)
    ∧ (handleWebsocketReceive wtref sl (sc_UpdateFrequency sc)
         (pre ++ SelTick :: sels)).1
      = (handleWebsocketReceive wtref sl (sc_UpdateFrequency sc) pre).1
        ++ (CmdUpdate tr0 :: map (λ h, HdlUpdate h (trh h)) sl)
        ++ (handleWebsocketReceive wtref sl (sc_UpdateFrequency sc) sels).1.
Proof.
  intros Hp Hi Hrate Hl. rewrite InitWebHandler_eq in Hi.
  destruct (sc_Start sc (init_tm wtref order1)); [discriminate|].
  simpl in Hi. injection Hi as _ _ <-.
  rewrite init_funcs_handlers.
  exists order2.*2, (commander_update_tr wtref), (handler_tr wtref).
  split; [done|]. split; [by rewrite Hp|]. split; [done|]. split; [done|].
  apply (handleWebsocketReceive_split wtref _ _ pre _ sels
           (update_calls wtref order2.*2)).
  - by rewrite (proj2 (Z.ltb_lt _ _) Hrate).
  - by right.
  - left. intros rest. simpl. by destruct (runUpdate wtref order2.*2 rest).
Qed.

(** ** The running system: invariants *)

Section PoolFacts.
Variable w : Thread → Z.
Implicit Types (l : list Thread) (th : Thread).

Lemma total_app l1 l2 : total w (l1 ++ l2) = total w l1 + total w l2.
Proof. induction l1 as [|th l1 IH]; simpl; [done|]. rewrite IH. lia. Qed.

Lemma total_insert l i th th' :
  l !! i = Some th → total w (<[i := th']> l) = total w l - w th + w th'.
Proof.
  revert i. induction l as [|x l IH]; intros [|i]; simpl; try done.
  - intros [= ->]. lia.
  - intros Hl. rewrite (IH i Hl). lia.
Qed.

Lemma total_nonneg l : (∀ th, 0 ≤ w th) → 0 ≤ total w l.
Proof.
  intros Hw. induction l as [|x l IH]; simpl; [done|].
  specialize (Hw x). lia.
Qed.

Lemma total_elem l th : (∀ th, 0 ≤ w th) → th ∈ l → w th ≤ total w l.
Proof.
  intros Hw. induction l as [|x l IH]; simpl.
  - by intros ?%elem_of_nil.
  - pose proof (total_nonneg l Hw). pose proof (Hw x).
    intros [->|Hin]%elem_of_cons; [lia|]. specialize (IH Hin). lia.
Qed.
End PoolFacts.

Lemma elem_of_insert_pool (l : list Thread) i th th' :
  th ∈ <[i := th']> l → th = th' ∨ th ∈ l.
Proof.
  revert i. induction l as [|x l IH]; intros i; simpl.
  - by intros ?%elem_of_nil.
  - destruct i as [|i]; simpl.
    + intros [->|?]%elem_of_cons; [by left|right; by right].
    + intros [->|Hin]%elem_of_cons; [right; by left|].
      destruct (IH i Hin); [by left|right; by right].
Qed.

(** An invariant of the steps holds in every state reached. *)
Lemma reachable_invariant (P : State → Prop) (s0 : State) :
  P s0 →
  (∀ s s', reachable s0 s → P s → step s s' → P s') →
  ∀ s, reachable s0 s → P s.
Proof.
  intros H0 Hstep. unfold reachable in *.
  apply (rtc_ind_r (R := step) P s0 H0).
  intros s s' Hr Hs IH. by apply (Hstep s s').
Qed.

(** Case analysis of a step of one goroutine, down to the statement
    executed. *)
Ltac step_of_thread H :=
  let Hs := fresh "Hs" in
  inversion H as [????? ? Hs|???? Hs|?????? Hs|???? Hs]; subst; clear H;
  inversion Hs; subst; clear Hs; simpl in *.

Lemma thread_step_is_receive m th m' th' :
  thread_step m th m' th' → is_receive th' = is_receive th.
Proof. by destruct 1. Qed.

Lemma in_sequence_le_receive th : 0 ≤ in_sequence th ≤ is_receive th.
Proof. destruct th as [?? []| | |]; simpl; lia. Qed.

Lemma boot_threads wtref order1 order2 sc s :
  boot wtref order1 order2 sc = Some s →
  threads s = [TSend SendSelect;
               TReceive order2.*2 (sc_UpdateFrequency sc) CtrlSelect].
Proof.
  unfold boot. rewrite InitWebHandler_eq.
  destruct (sc_Start sc (init_tm wtref order1)); [done|].
  simpl. intros [= <-]. simpl. by rewrite init_funcs_handlers.
Qed.

Lemma one_control_loop wtref order1 order2 sc s0 s :
  boot wtref order1 order2 sc = Some s0 → reachable s0 s →
  total is_receive (threads s) = 1.
Proof.
  intros Hb. revert s.
  apply (reachable_invariant (λ s, total is_receive (threads s) = 1)).
  - by rewrite (boot_threads _ _ _ _ _ Hb).
  - intros s s' _ IH Hstep. destruct Hstep; simpl.
    + rewrite (total_insert _ _ _ _ th') by done.
      rewrite (thread_step_is_receive _ _ _ _ H0). lia.
    + rewrite total_app. simpl. lia.
    + rewrite total_app. simpl. lia.
    + done.
Qed.

Lemma total_le (w1 w2 : Thread → Z) (l : list Thread) :
  (∀ th, w1 th ≤ w2 th) → total w1 l ≤ total w2 l.
Proof.
  intros Hw. induction l as [|x l IH]; simpl; [done|].
  specialize (Hw x). lia.
Qed.

(** C1. In every state the system reaches from a successful
    [InitWebHandler], under any interleaving of the goroutines and any
    number of connections, at most one goroutine is inside a callback
    sequence, that is, inside the body of a message case (the pair of
    [Message] calls) or of a ticker case (an [Update] round). *)
Theorem one_callback_sequence_at_a_time (wtref : ChanRef)
    (order1 order2 : list (string * SocketHandler)) (sc : SystemCommander)
    (s0 s : State) :
  boot wtref order1 order2 sc = Some s0 →
  reachable s0 s →
  total in_sequence (threads s) ≤ 1.
Proof.
  intros Hb Hr.
  rewrite <- (one_control_loop _ _ _ _ _ _ Hb Hr).
  apply total_le. intros th. apply in_sequence_le_receive.
Qed.

Lemma close_chan_Some b b' : close_chan b = Some b' → b = false ∧ b' = true.
Proof. destruct b; simpl; [done|]. by intros [= <-]. Qed.

Lemma close_chan_None b : close_chan b = None → b = true.
Proof. by destruct b. Qed.

Lemma holds_wait_nonneg th : 0 ≤ holds_wait th.
Proof. destruct th as [| |?? []|]; simpl; lia. Qed.

Lemma past_entry_nonneg th : 0 ≤ past_entry th.
Proof. destruct th as [| | |[]]; simpl; lia. Qed.

Lemma closing_exit_nonneg th : 0 ≤ closing_exit th.
Proof. destruct th as [| | |[]]; simpl; lia. Qed.

(** The facts of a closed or still open channel a step rests on. *)
Ltac close_facts :=
  repeat match goal with
  | H : close_chan _ = Some _ |- _ => apply close_chan_Some in H as [? ->]
  | H : close_chan _ = None |- _ => apply close_chan_None in H
  end.

(** The control loop beginning the calls of a case body. *)
Ltac enter_cases :=
  repeat match goal with
  | |- context [enter ?r _] => is_var r; destruct r
  | H : context [enter ?r _] |- _ => is_var r; destruct r
  end; simpl in *.

Lemma wait_inv_step s s' : wait_inv s → step s s' → wait_inv s'.
Proof.
  unfold wait_inv. intros (Hw & Hd & He) Hstep.
  assert (Hd' : total past_entry (threads s) ≤ 0
                ∨ doneConn (m_wh (mem s)) = true).
  { destruct (decide (0 < total past_entry (threads s))); [by right; auto|].
    left. lia. }
  assert (He' : (exitReceive (m_wh (mem s)) = false
                 ∧ total closing_exit (threads s) ≤ 0)
                ∨ (doneConn (m_wh (mem s)) = true ∧ wsWG (m_wh (mem s)) = 0)).
  { destruct (exitReceive (m_wh (mem s))) eqn:E; [right; auto|].
    destruct (decide (0 < total closing_exit (threads s))); [right; auto|].
    left. split; [done|lia]. }
  clear Hd He.
  destruct Hstep as [s i th m' th' Hi Hts|s name cf _|s|s t data md b h' _ _];
    simpl.
  - rewrite !(total_insert _ _ _ _ th' Hi).
    apply list_elem_of_lookup_2 in Hi.
    pose proof (total_elem _ _ _ holds_wait_nonneg Hi).
    pose proof (total_elem _ _ _ past_entry_nonneg Hi).
    pose proof (total_elem _ _ _ closing_exit_nonneg Hi).
    clear Hi. step_of_thread Hts; enter_cases; close_facts;
      intuition (try congruence; try lia).
  - rewrite !total_app. simpl. intuition (try congruence; try lia).
  - rewrite !total_app. simpl. intuition (try congruence; try lia).
  - intuition (try congruence; try lia).
Qed.

Lemma boot_mem wtref order1 order2 sc s :
  boot wtref order1 order2 sc = Some s →
  ∃ f, m_wh (mem s) = set_wFuncs f (new_WebHandler wtref)
       ∧ m_calls (mem s) = [] ∧ m_out (mem s) = [].
Proof.
  unfold boot. rewrite InitWebHandler_eq.
  destruct (sc_Start sc (init_tm wtref order1)); [done|].
  simpl. intros [= <-]. simpl. unfold init_funcs. rewrite init_funcs_acc.
  simpl. eauto.
Qed.

Lemma wait_inv_reachable wtref order1 order2 sc s0 s :
  boot wtref order1 order2 sc = Some s0 → reachable s0 s → wait_inv s.
Proof.
  intros Hb. revert s. apply (reachable_invariant wait_inv).
  - unfold wait_inv. rewrite (boot_threads _ _ _ _ _ Hb).
    destruct (boot_mem _ _ _ _ _ Hb) as (f & -> & _). simpl.
    intuition (try congruence; try lia).
  - intros s s' _. apply wait_inv_step.
Qed.

(** A reader between [Add] and [Done] keeps [Shutdown] from closing
    [exitReceive]. *)
Lemma reader_keeps_exitReceive_open wtref order1 order2 sc s0 s th :
  boot wtref order1 order2 sc = Some s0 → reachable s0 s →
  th ∈ threads s → holds_wait th = 1 →
  exitReceive (m_wh (mem s)) = false.
Proof.
  intros Hb Hr Hin Hh.
  destruct (wait_inv_reachable _ _ _ _ _ _ Hb Hr) as (Hw & _ & He).
  pose proof (total_elem _ _ _ holds_wait_nonneg Hin) as Hle.
  destruct (exitReceive (m_wh (mem s))) eqn:E; [|done].
  destruct He as [_ Hz]; [by left|]. lia.
Qed.

(** C6. A reader that has read [message] and stands at the [select]
    handing it to the control loop, in any state the system reaches. Each
    step it can take is one of three: it goes on waiting, with the message
    still in hand; the inbound queue, having room, takes the message and
    the reader goes back to reading; or it goes back to reading with the
    queue untouched, the message dropped, and then the timeout is
    positive and the wait has lasted at least that long. The case of the
    closed [exitReceive] never comes up while a reader is at this point.
    Once a positive timeout has elapsed the dropping step is there to
    take; but as long as the queue has room the delivering step is there
    to take as well, whatever time has elapsed: a message that has waited
    longer than the timeout may be dropped or delivered. With a timeout
    of zero or less no step drops a message: the reader waits until the
    queue takes it. *)
Theorem handoff_drops_only_after_timeout (wtref : ChanRef)
    (order1 order2 : list (string * SocketHandler)) (sc : SystemCommander)
    (s0 s : State) (i : nat) (handle : SocketHandler) (timeout : Z)
    (ws : Conn) (message : bytes) (elapsed : Z) :
  boot wtref order1 order2 sc = Some s0 →
  reachable s0 s →
  threads s !! i = Some (TConn handle timeout (ConnHandoff ws message elapsed)) →
  (∀ m' pc',
     conn_step handle timeout (mem s) (ConnHandoff ws message elapsed) m' pc' →
     (∃ d, 0 < d ∧ m' = mem s ∧ pc' = ConnHandoff ws message (elapsed + d))
     ∨ ((length (webReceive (m_wh (mem s))) < webReceive_cap)%nat
        ∧ webReceive (m_wh m')
          = webReceive (m_wh (mem s)) ++ [mkCmd message handle ws]
        ∧ pc' = ConnRead ws)
     ∨ (0 < timeout ∧ timeout ≤ elapsed ∧ m' = mem s ∧ pc' = ConnRead ws))
  ∧ (0 < timeout ∧ timeout ≤ elapsed →
     conn_step handle timeout (mem s) (ConnHandoff ws message elapsed)
       (mem s) (ConnRead ws))
  ∧ (timeout ≤ 0 → ∀ m' pc',
     conn_step handle timeout (mem s) (ConnHandoff ws message elapsed) m' pc' →
     (m' = mem s ∧ ∃ d, pc' = ConnHandoff ws message (elapsed + d))
     ∨ webReceive (m_wh m')
       = webReceive (m_wh (mem s)) ++ [mkCmd message handle ws])
  ∧ ((length (webReceive (m_wh (mem s))) < webReceive_cap)%nat →
     conn_step handle timeout (mem s) (ConnHandoff ws message elapsed)
       (upd_wh (λ w, set_webReceive
                       (webReceive w ++ [mkCmd message handle ws]) w) (mem s))
       (ConnRead ws)).
Proof.
  intros Hb Hr Hi.
  assert (Hopen : exitReceive (m_wh (mem s)) = false).
  { apply list_elem_of_lookup_2 in Hi.
    by apply (reader_keeps_exitReceive_open _ _ _ _ _ _ _ Hb Hr Hi). }
  assert (Hcases : ∀ m' pc',
     conn_step handle timeout (mem s) (ConnHandoff ws message elapsed) m' pc' →
     (∃ d, 0 < d ∧ m' = mem s ∧ pc' = ConnHandoff ws message (elapsed + d))
     ∨ ((length (webReceive (m_wh (mem s))) < webReceive_cap)%nat
        ∧ webReceive (m_wh m')
          = webReceive (m_wh (mem s)) ++ [mkCmd message handle ws]
        ∧ pc' = ConnRead ws)
     ∨ (0 < timeout ∧ timeout ≤ elapsed ∧ m' = mem s ∧ pc' = ConnRead ws)).
  { intros m' pc' Hstep. inversion Hstep; subst.
    - left. eauto.
    - right. left. done.
    - right. right. done.
    - congruence. }
  split; [done|]. split; [|split].
  - intros [Hpos Hle]. by constructor.
  - intros Hno m' pc' Hstep.
    destruct (Hcases m' pc' Hstep) as [(d & _ & -> & ->)|[(_ & E & _)|(? & _)]].
    + left. eauto.
    + by right.
    + lia.
  - intros Hroom. by apply conn_handed.
Qed.

(** ** Shutdown *)

Lemma stop_calls_app cs1 cs2 :
  stop_calls (cs1 ++ cs2) = stop_calls cs1 + stop_calls cs2.
Proof.
  induction cs1 as [|c cs1 IH]; simpl; [done|]. destruct c; lia.
Qed.

Lemma stop_calls_nonneg cs : 0 ≤ stop_calls cs.
Proof. induction cs as [|c cs IH]; simpl; [done|]. destruct c; lia. Qed.

Lemma is_receive_nonneg th : 0 ≤ is_receive th.
Proof. destruct th; simpl; lia. Qed.

Lemma stopping_nonneg th : 0 ≤ stopping th.
Proof. destruct th as [?? []| | |]; simpl; lia. Qed.

Lemma ctl_done_nonneg th : 0 ≤ ctl_done th.
Proof. destruct th as [?? []| | |]; simpl; lia. Qed.

Lemma pending_stop_nonneg th : 0 ≤ pending_stop th.
Proof.
  destruct th as [?? []| | |]; simpl; try lia. apply stop_calls_nonneg.
Qed.

Lemma sh_returned_nonneg th : 0 ≤ sh_returned th.
Proof. destruct th as [| | |[]]; simpl; lia. Qed.

Lemma stopping_le_receive th : stopping th ≤ is_receive th.
Proof. destruct th as [?? []| | |]; simpl; lia. Qed.

Lemma ctl_done_le_stopping th : ctl_done th ≤ stopping th.
Proof. destruct th as [?? []| | |]; simpl; lia. Qed.

Lemma ctl_fault_nonneg th : 0 ≤ ctl_fault th.
Proof. destruct th as [?? []| | |]; simpl; lia. Qed.

Lemma left_by_break_nonneg th : 0 ≤ left_by_break th.
Proof. destruct th as [?? []| | |]; simpl; lia. Qed.

Lemma ctl_broken_nonneg th : 0 ≤ ctl_broken th.
Proof. destruct th as [?? []| | |]; simpl; lia. Qed.

Lemma ctl_over_le_receive th : ctl_done th + ctl_fault th ≤ is_receive th.
Proof. destruct th as [?? []| | |]; simpl; lia. Qed.

Lemma left_by_break_le_receive th : left_by_break th ≤ is_receive th.
Proof. destruct th as [?? []| | |]; simpl; lia. Qed.

Lemma stopping_parts th : stopping th = left_by_break th + ctl_broken th.
Proof. destruct th as [?? []| | |]; simpl; lia. Qed.

Lemma total_plus (w1 w2 : Thread → Z) (l : list Thread) :
  total (λ th, w1 th + w2 th) l = total w1 l + total w2 l.
Proof. induction l as [|x l IH]; simpl; [done|]. rewrite IH. lia. Qed.

Lemma total_ext (w1 w2 : Thread → Z) (l : list Thread) :
  (∀ th, w1 th = w2 th) → total w1 l = total w2 l.
Proof.
  intros Hw. induction l as [|x l IH]; simpl; [done|]. by rewrite IH, Hw.
Qed.

(** Two weights compared over the rest of the pool. *)
Lemma total_others_le (w1 w2 : Thread → Z) (l : list Thread) i th :
  (∀ x, w1 x ≤ w2 x) → l !! i = Some th →
  total w1 l - w1 th ≤ total w2 l - w2 th.
Proof.
  intros Hw. revert i. induction l as [|x l IH]; intros [|i]; simpl; try done.
  - intros [= ->]. pose proof (total_le w1 w2 l Hw). lia.
  - intros Hl. specialize (IH i Hl). specialize (Hw x). lia.
Qed.

Lemma stop_calls_handlers wtref sl :
  stop_calls (map (λ h, HdlUpdate h (handler_tr wtref h)) sl) = 0.
Proof. by induction sl. Qed.

(** Closes the side conditions of the steps: arithmetic over the weights
    of the pool and facts of channels. *)
Ltac pool_solver := intuition (try congruence; try lia).

Lemma stop_inv_step s s' : stop_inv s → step s s' → stop_inv s'.
Proof.
  unfold stop_inv.
  intros (Hone & Hpend & Hcount & Hlast & Hexit & Hfin & Hret & Hreg) Hstep.
  assert (Hexit' : total left_by_break (threads s) ≤ 0
                   ∨ exitReceive (m_wh (mem s)) = true).
  { destruct (decide (0 < total left_by_break (threads s))); [right; auto|].
    left. lia. }
  assert (Hfin' : finishedExit (m_wh (mem s)) = false
                  ∨ total ctl_done (threads s) + total ctl_fault (threads s) = 1).
  { destruct (finishedExit (m_wh (mem s))); [right; auto|by left]. }
  assert (Hret' : total sh_returned (threads s) ≤ 0
                  ∨ finishedExit (m_wh (mem s)) = true).
  { destruct (decide (0 < total sh_returned (threads s))); [right; auto|].
    left. lia. }
  assert (Hreg' : doneConn (m_wh (mem s)) = false
                  ∨ clients (m_wh (mem s)) = ∅).
  { destruct (doneConn (m_wh (mem s))); [right; auto|by left]. }
  clear Hexit Hfin Hret Hreg.
  pose proof (total_le _ _ (threads s) stopping_le_receive) as Hsr.
  pose proof (total_nonneg _ (threads s) ctl_done_nonneg).
  pose proof (total_nonneg _ (threads s) ctl_fault_nonneg).
  pose proof (total_nonneg _ (threads s) left_by_break_nonneg).
  destruct Hstep as [s i th m' th' Hi Hts|s name cf _|s|s t data md b h' _ _];
    simpl.
  - rewrite !(total_insert _ _ _ _ th' Hi).
    pose proof (total_others_le _ _ _ _ _ stopping_le_receive Hi) as Hsr'.
    pose proof (total_others_le _ _ _ _ _ ctl_over_le_receive Hi) as Hov'.
    pose proof (total_others_le _ _ _ _ _ left_by_break_le_receive Hi) as Hlb'.
    rewrite total_plus in Hov'.
    apply list_elem_of_lookup_2 in Hi.
    pose proof (total_elem _ _ _ stopping_nonneg Hi).
    pose proof (total_elem _ _ _ ctl_done_nonneg Hi).
    pose proof (total_elem _ _ _ ctl_fault_nonneg Hi).
    pose proof (total_elem _ _ _ left_by_break_nonneg Hi).
    pose proof (total_elem _ _ _ pending_stop_nonneg Hi).
    pose proof (total_elem _ _ _ sh_returned_nonneg Hi).
    pose proof (total_elem _ _ _ is_receive_nonneg Hi).
    clear Hi. step_of_thread Hts; enter_cases; close_facts;
      rewrite ?stop_calls_app, ?stop_calls_handlers in *; simpl in *;
      try (pool_solver; fail).
    + (* the loop is left: [Stop] is called, as the last call so far *)
      repeat split; try (pool_solver; fail).
      right. exists (m_calls (mem s)). split; [done|lia].
    + (* the next call of a case body *)
      match goal with
      | |- context [stop_calls ?r] =>
          pose proof (stop_calls_nonneg r)
      end.
      match goal with
      | |- context [match ?c with CmdStop => _ | _ => _ end] => destruct c
      end; pool_solver.
    + (* a call panics: [Stop] is called, as the last call so far *)
      match goal with
      | H : context [stop_calls ?r] |- _ =>
          pose proof (stop_calls_nonneg r)
      end.
      repeat split; try (pool_solver; fail).
      right. exists (m_calls (mem s)). split; [done|lia].
    + (* a reader takes itself off the registry *)
      repeat split; try (pool_solver; fail).
      intros Hd. destruct Hreg' as [?|E]; [congruence|]. rewrite E. apply delete_empty.
  - rewrite !total_app. simpl. pool_solver.
  - rewrite !total_app. simpl. pool_solver.
  - pool_solver.
Qed.

Lemma stop_inv_reachable wtref order1 order2 sc s0 s :
  boot wtref order1 order2 sc = Some s0 → reachable s0 s → stop_inv s.
Proof.
  intros Hb. revert s. apply (reachable_invariant stop_inv).
  - unfold stop_inv. rewrite (boot_threads _ _ _ _ _ Hb).
    destruct (boot_mem _ _ _ _ _ Hb) as (f & -> & -> & _). simpl.
    pool_solver.
  - intros s s' _. apply stop_inv_step.
Qed.

Lemma leak_inv_step s s' : leak_inv s → step s s' → leak_inv s'.
Proof.
  unfold leak_inv. intros (Hlt & Hopen & Hnone) Hstep.
  destruct Hstep as [s i th m' th' Hi Hts|s name cf _|s|s t data md b h' _ _];
    simpl.
  - rewrite !(total_insert _ _ _ _ th' Hi).
    apply list_elem_of_lookup_2 in Hi.
    pose proof (total_nonneg holds_wait (threads s) holds_wait_nonneg).
    pose proof (total_elem _ _ _ holds_wait_nonneg Hi).
    pose proof (total_elem _ _ _ closing_exit_nonneg Hi).
    clear Hi. step_of_thread Hts; enter_cases; close_facts; pool_solver.
  - rewrite !total_app. simpl. pool_solver.
  - rewrite !total_app. simpl. pool_solver.
  - pool_solver.
Qed.

Lemma ctl_busy_nonneg th : 0 ≤ ctl_busy th.
Proof.
  destruct th as [?? []| | |]; simpl; try lia. by destruct (0 <? _).
Qed.

Lemma reading_nonneg th : 0 ≤ reading th.
Proof. destruct th as [| |?? []|]; simpl; lia. Qed.

Lemma ctl_over_le_busy th : ctl_done th + ctl_fault th ≤ ctl_busy th.
Proof. destruct th as [?? []| | |]; simpl; try lia. by destruct (0 <? _). Qed.

(** A control loop with nothing to do stays so while [exitReceive] stays
    open. *)
Lemma idle_inv_step s s' : leak_inv s → idle_inv s → step s s' → idle_inv s'.
Proof.
  unfold leak_inv, idle_inv.
  intros (_ & _ & Hnone) (Hbusy & Hread & Hq & Hd & Hopen & Hstop) Hstep.
  destruct Hstep as [s i th m' th' Hi Hts|s name cf _|s|s t data md b h' _ _];
    simpl.
  - rewrite !(total_insert _ _ _ _ th' Hi).
    apply list_elem_of_lookup_2 in Hi.
    pose proof (total_elem _ _ _ ctl_busy_nonneg Hi).
    pose proof (total_elem _ _ _ reading_nonneg Hi).
    pose proof (total_elem _ _ _ closing_exit_nonneg Hi).
    clear Hi. step_of_thread Hts; enter_cases; close_facts;
      try (pool_solver; fail);
      try (destruct (Z.ltb_spec 0 rate); pool_solver; fail).
  - rewrite !total_app. simpl. pool_solver.
  - rewrite !total_app. simpl. pool_solver.
  - pool_solver.
Qed.

(** With a leaked count in the wait group, the control loop is never
    told to stop. If it has nothing to do besides, [Stop] is not called,
    and no call of [Shutdown] returns. *)
Lemma leak_blocks_Shutdown wtref order1 order2 sc s0 s1 s :
  boot wtref order1 order2 sc = Some s0 →
  reachable s0 s1 → leak_inv s1 → idle_inv s1 → reachable s1 s →
  exitReceive (m_wh (mem s)) = false
  ∧ stop_calls (m_calls (mem s)) = 0
  ∧ total sh_returned (threads s) = 0.
Proof.
  intros Hb Hr1 Hleak Hidle Hr.
  assert (Hl : leak_inv s ∧ idle_inv s).
  { revert s Hr.
    apply (reachable_invariant (λ s, leak_inv s ∧ idle_inv s)); [done|].
    intros s s' _ [Hl Hi] Hstep. split.
    - by apply (leak_inv_step s).
    - by apply (idle_inv_step s). }
  assert (Hs : stop_inv s).
  { apply (stop_inv_reachable _ _ _ _ _ _ Hb). unfold reachable in *. by etrans. }
  destruct Hl as [(_ & Hopen & _) (Hbusy & _ & _ & _ & _ & Hstop)].
  destruct Hs as (_ & _ & _ & _ & _ & Hfin & Hret & _).
  pose proof (total_nonneg sh_returned (threads s) sh_returned_nonneg).
  pose proof (total_nonneg _ (threads s) ctl_done_nonneg).
  pose proof (total_nonneg _ (threads s) ctl_fault_nonneg).
  pose proof (total_le _ _ (threads s) ctl_over_le_busy) as Hle.
  rewrite total_plus in Hle.
  split; [done|]. split; [done|].
  destruct (decide (0 < total sh_returned (threads s))); [|lia].
  specialize (Hfin (Hret l)). lia.
Qed.

Section ScenarioFacts.
Import Scenario.

Lemma boot_scenario : boot wt0 order0 order0 sc0 = Some booted.
Proof. reflexivity. Qed.

Lemma hung_reachable : reachable booted hung.
Proof.
  unfold reachable.
  eapply rtc_l.
  { apply (step_accept booted "main" (makeConnectHandler main_handler 0)).
    reflexivity. }
  eapply rtc_l.
  { eapply (step_thread _ 2); [reflexivity|].
    apply ts_conn. by apply conn_upgrade_failed. }
  eapply rtc_l.
  { apply step_call_Shutdown. }
  eapply rtc_l.
  { eapply (step_thread _ 3); [reflexivity|].
    apply ts_shutdown. by apply (sh_close_conns _ true). }
  apply rtc_refl.
Qed.
Lemma handing_reachable : reachable booted handing.
Proof.
  unfold reachable.
  eapply rtc_l.
  { apply (step_accept booted "main" (makeConnectHandler main_handler 0)).
    reflexivity. }
  eapply rtc_l.
  { eapply (step_thread _ 2); [reflexivity|].
    apply ts_conn. by apply conn_registered. }
  eapply rtc_l.
  { eapply (step_thread _ 2); [reflexivity|].
    apply ts_conn. apply (conn_read _ _ _ conn1 ping). simpl. set_solver. }
  apply rtc_refl.
Qed.

Lemma in_call_reachable : reachable booted in_call.
Proof.
  unfold reachable. etrans; [apply handing_reachable|].
  eapply rtc_l.
  { eapply (step_thread _ 2); [reflexivity|].
    apply ts_conn. apply conn_handed. simpl. unfold webReceive_cap. lia. }
  eapply rtc_l.
  { eapply (step_thread _ 1); [reflexivity|].
    apply ts_receive. by eapply (recv_message _ _ _ ping_cmd []). }
  apply rtc_refl.
Qed.

Lemma hung_leaks : leak_inv hung.
Proof. unfold leak_inv. simpl. repeat split; lia. Qed.

Lemma hung_idle : idle_inv hung.
Proof. unfold idle_inv. simpl. repeat split; lia. Qed.
End ScenarioFacts.

Lemma sh_returned_le_past_entry th : sh_returned th ≤ past_entry th.
Proof. destruct th as [| | |[]]; simpl; lia. Qed.

Lemma ctl_over_le_stopping th : ctl_done th + ctl_fault th ≤ stopping th.
Proof. destruct th as [?? []| | |]; simpl; lia. Qed.

(** What holds once a call of [Shutdown] has returned: the registry is
    empty, [Stop] was called exactly once, as the last call into user
    code, and the control loop has returned or has been ended by the
    panic of a call, its deferred function run through. *)
Lemma Shutdown_returned_after_Stop wtref order1 order2 sc s0 s :
  boot wtref order1 order2 sc = Some s0 → reachable s0 s →
  0 < total sh_returned (threads s) →
  clients (m_wh (mem s)) = ∅
  ∧ stop_calls (m_calls (mem s)) = 1
  ∧ (∃ pre, m_calls (mem s) = pre ++ [CmdStop] ∧ stop_calls pre = 0)
  ∧ total ctl_done (threads s) + total ctl_fault (threads s) = 1.
Proof.
  intros Hb Hr Hret.
  destruct (wait_inv_reachable _ _ _ _ _ _ Hb Hr) as (_ & Hd & _).
  destruct (stop_inv_reachable _ _ _ _ _ _ Hb Hr)
    as (Hone & _ & Hcount & Hlast & _ & Hfin & Hfe & Hreg).
  pose proof (total_le _ _ (threads s) sh_returned_le_past_entry).
  pose proof (total_le _ _ (threads s) ctl_over_le_stopping) as Hle.
  rewrite total_plus in Hle.
  pose proof (total_le _ _ (threads s) stopping_le_receive).
  specialize (Hfin (Hfe Hret)).
  split; [apply Hreg, Hd; lia|]. split; [lia|]. split; [|done].
  destruct Hlast as [?|?]; [lia|done].
Qed.

(** Once a call of [Shutdown] is past its critical section, the registry
    is empty and another call can only panic at [close(wh.doneConn)]. *)
Lemma Shutdown_twice_panics wtref order1 order2 sc s0 s m' pc' :
  boot wtref order1 order2 sc = Some s0 → reachable s0 s →
  0 < total past_entry (threads s) →
  shutdown_step (mem s) ShEntry m' pc' →
  clients (m_wh (mem s)) = ∅ ∧ pc' = ShPanic.
Proof.
  intros Hb Hr Hpast Hstep.
  destruct (wait_inv_reachable _ _ _ _ _ _ Hb Hr) as (_ & Hd & _).
  destruct (stop_inv_reachable _ _ _ _ _ _ Hb Hr)
    as (_ & _ & _ & _ & _ & _ & _ & Hreg).
  specialize (Hd Hpast). split; [by apply Hreg|].
  inversion Hstep; subst; [|done]. close_facts. congruence.
Qed.

(** C7. The guarantee fails on this course of events: one handler
    "main"; the HTTP server calls its connect function with a request
    whose upgrade fails, so that [handleConnection] returns after
    [wsWG.Add(1)] without [wsWG.Done()]; then [Shutdown] is called once.
    It empties the registry and then stays at [wsWG.Wait()] for ever:
    whatever happens afterwards, [exitReceive] stays open, [Stop] is never
    called and no call of [Shutdown] returns. *)
Theorem Shutdown_hangs_after_failed_upgrade :
  boot Scenario.wt0 Scenario.order0 Scenario.order0 Scenario.sc0
    = Some Scenario.booted
  ∧ reachable Scenario.booted Scenario.hung
  ∧ clients (m_wh (mem Scenario.hung)) = ∅
  ∧ total past_entry (threads Scenario.hung) = 1
  ∧ ∀ s, reachable Scenario.hung s →
      exitReceive (m_wh (mem s)) = false
      ∧ stop_calls (m_calls (mem s)) = 0
      ∧ total sh_returned (threads s) = 0.
Proof.
  split; [apply boot_scenario|]. split; [apply hung_reachable|].
  split; [done|]. split; [done|].
  intros s Hr.
  apply (leak_blocks_Shutdown _ _ _ _ _ _ _ boot_scenario hung_reachable
           hung_leaks hung_idle Hr).
Qed.

(** ** Case bodies in the history of calls *)

Lemma thread_step_calls m th m' th' :
  thread_step m th m' th' →
  ∃ suf, m_calls m' = m_calls m ++ suf ∧ (is_receive th = 0 → suf = []).
Proof.
  intros Hts. step_of_thread Hts; enter_cases;
    first [ by exists []; rewrite app_nil_r
          | by eexists [_] ].
Qed.

Lemma step_calls s s' :
  step s s' → ∃ suf, m_calls (mem s') = m_calls (mem s) ++ suf.
Proof.
  destruct 1 as [s i th m' th' Hi Hts|s name cf _|s|s t data md b h' _ _];
    simpl; try (by exists []; rewrite app_nil_r).
  destruct (thread_step_calls _ _ _ _ Hts) as (suf & -> & _). eauto.
Qed.

Lemma receive_unique (l : list Thread) i j th th' :
  total is_receive l = 1 →
  l !! i = Some th → l !! j = Some th' →
  is_receive th = 1 → is_receive th' = 1 → i = j.
Proof.
  revert i j. induction l as [|x l IH]; intros i j; simpl; [done|].
  pose proof (total_nonneg is_receive l is_receive_nonneg) as Hnn.
  pose proof (is_receive_nonneg x) as Hx.
  intros Ht Hi Hj H1 H2. destruct i as [|i], j as [|j]; simpl in *.
  - done.
  - injection Hi as ->. apply list_elem_of_lookup_2 in Hj.
    pose proof (total_elem _ _ _ is_receive_nonneg Hj). lia.
  - injection Hj as ->. apply list_elem_of_lookup_2 in Hi.
    pose proof (total_elem _ _ _ is_receive_nonneg Hi). lia.
  - f_equal. apply (IH i j); try done.
    apply list_elem_of_lookup_2 in Hi.
    pose proof (total_elem _ _ _ is_receive_nonneg Hi). lia.
Qed.

(** A control loop that is being ended by a panic makes no further
    call. *)
Lemma thread_step_broken m sl rate pc m' th' :
  thread_step m (TReceive sl rate pc) m' th' →
  ctl_broken (TReceive sl rate pc) = 1 →
  m_calls m' = m_calls m
  ∧ ∃ pc', th' = TReceive sl rate pc' ∧ ctl_broken (TReceive sl rate pc') = 1.
Proof.
  intros Hts Hb. step_of_thread Hts; enter_cases; try discriminate; eauto.
Qed.

Lemma body_progress_step base body s s' :
  total is_receive (threads s) = 1 →
  body_progress base body s → step s s' → body_progress base body s'.
Proof.
  intros Hone [(i & sl & rate & done & c & todo & Hb & Hi & Hc)
              |[(more & Hc)
               |(i & sl & rate & pc & done & c & todo & Hb & Hi & Hbr & Hc)]]
    Hstep.
  - destruct Hstep as [s j th m' th' Hj Hts|s name cf _|s|s t data md b h' _ _];
      simpl.
    + destruct (decide (i = j)) as [<-|Hne].
      * rewrite Hi in Hj. injection Hj as <-.
        assert (Hlen : (i < length (threads s))%nat) by by eapply lookup_lt_Some.
        inversion Hts as [????? ? Hs| | |]; subst. inversion Hs; subst.
        -- (* the call returns *)
           destruct todo as [|c' todo]; simpl.
           ++ right. left. exists []. simpl. by rewrite Hc, app_nil_r.
           ++ left. exists i, sl, rate, (done ++ [c]), c', todo.
              split; [by rewrite <- app_assoc|]. split.
              ** simpl. by apply list_lookup_insert_eq.
              ** simpl. rewrite Hc. by rewrite <- !app_assoc.
        -- (* the call panics *)
           right. right. exists i, sl, rate, CtrlUnwind, done, c, todo.
           split; [done|]. split; [by apply list_lookup_insert_eq|].
           split; [done|]. simpl. rewrite Hc. by rewrite <- !app_assoc.
      * assert (Hnr : is_receive th = 0).
        { destruct (decide (is_receive th = 1)) as [E|E].
          - exfalso. apply Hne.
            by apply (receive_unique _ _ _ _ _ Hone Hi Hj).
          - destruct th; simpl in *; lia. }
        destruct (thread_step_calls _ _ _ _ Hts) as (suf & Hsuf & Hnil).
        rewrite (Hnil Hnr), app_nil_r in Hsuf.
        left. exists i, sl, rate, done, c, todo. split; [done|]. split.
        -- simpl. by rewrite list_lookup_insert_ne.
        -- simpl. by rewrite Hsuf.
    + left. exists i, sl, rate, done, c, todo. split; [done|]. split; [|done].
      by apply lookup_app_l_Some.
    + left. exists i, sl, rate, done, c, todo. split; [done|]. split; [|done].
      by apply lookup_app_l_Some.
    + left. exists i, sl, rate, done, c, todo. done.
  - destruct (step_calls _ _ Hstep) as (suf & Hsuf).
    right. left. exists (more ++ suf). rewrite Hsuf, Hc. by rewrite <- !app_assoc.
  - right. right.
    destruct Hstep as [s j th m' th' Hj Hts|s name cf _|s|s t data md b h' _ _];
      simpl.
    + destruct (decide (i = j)) as [<-|Hne].
      * rewrite Hi in Hj. injection Hj as <-.
        assert (Hlen : (i < length (threads s))%nat) by by eapply lookup_lt_Some.
        destruct (thread_step_broken _ _ _ _ _ _ Hts Hbr)
          as (Ec & pc' & -> & Hbr').
        exists i, sl, rate, pc', done, c, todo.
        split; [done|]. split; [by apply list_lookup_insert_eq|].
        split; [done|]. by rewrite Ec.
      * assert (Hnr : is_receive th = 0).
        { destruct (decide (is_receive th = 1)) as [E|E].
          - exfalso. apply Hne.
            by apply (receive_unique _ _ _ _ _ Hone Hi Hj).
          - destruct th; simpl in *; lia. }
        destruct (thread_step_calls _ _ _ _ Hts) as (suf & Hsuf & Hnil).
        rewrite (Hnil Hnr), app_nil_r in Hsuf.
        exists i, sl, rate, pc, done, c, todo. split; [done|]. split.
        -- by rewrite list_lookup_insert_ne.
        -- split; [done|]. by rewrite Hsuf.
    + exists i, sl, rate, pc, done, c, todo. split; [done|]. split; [|done].
      by apply lookup_app_l_Some.
    + exists i, sl, rate, pc, done, c, todo. split; [done|]. split; [|done].
      by apply lookup_app_l_Some.
    + exists i, sl, rate, pc, done, c, todo. done.
Qed.

(** Once the control loop is inside the first call of a case body, the
    calls of that body enter the history one after the other with
    nothing between them, whatever the other goroutines do. *)
Lemma case_body_contiguous wtref order1 order2 sc s0 s i sl rate c rest base s' :
  boot wtref order1 order2 sc = Some s0 → reachable s0 s →
  threads s !! i = Some (TReceive sl rate (CtrlCall c rest)) →
  m_calls (mem s) = base ++ [c] →
  reachable s s' →
  body_progress base (c :: rest) s'.
Proof.
  intros Hb Hr Hi Hc Hr'.
  assert (Hboth : body_progress base (c :: rest) s' ∧ reachable s0 s').
  { revert s' Hr'.
    apply (reachable_invariant
             (λ s', body_progress base (c :: rest) s' ∧ reachable s0 s')).
    - split; [|done]. left. by exists i, sl, rate, [], c, rest.
    - intros s1 s2 _ [Hp Hr1] Hstep. split.
      + apply (body_progress_step _ _ s1); [|done|done].
        by apply (one_control_loop _ _ _ _ _ _ Hb).
      + unfold reachable in *. by eapply rtc_r. }
  apply Hboth.
Qed.

(** The pair of [Message] calls of one inbound message, in the history
    of the whole system: from the state in which the control loop has
    taken the message, the history is the one before, then the
    commander's [Message], and, as soon as anything follows, the
    handler's [Message] right behind it, unless the commander's
    [Message] panics: then [Stop] follows, and nothing after it. *)
Lemma message_pair_not_interleaved wtref order1 order2 sc s0 s i sl rate
    (c : cmdStruct) q s' :
  boot wtref order1 order2 sc = Some s0 → reachable s0 s →
  threads s !! i = Some (TReceive sl rate CtrlSelect) →
  webReceive (m_wh (mem s)) = c :: q →
  reachable
    (mkState (enter (message_calls (webTransmit (m_wh (mem s))) c)
                (upd_wh (set_webReceive q) (mem s))).1
       (<[i := TReceive sl rate
                 (enter (message_calls (webTransmit (m_wh (mem s))) c)
                    (upd_wh (set_webReceive q) (mem s))).2]> (threads s)))
    s' →
  let tr := message_tr (webTransmit (m_wh (mem s))) c in
  m_calls (mem s') = m_calls (mem s) ++ [CmdMessage (cmd_msg c) (cmd_h c) tr]
  ∨ (∃ more,
      m_calls (mem s')
      = m_calls (mem s)
        ++ [CmdMessage (cmd_msg c) (cmd_h c) tr;
            HdlMessage (cmd_h c) (cmd_msg c) tr] ++ more)
  ∨ m_calls (mem s')
    = m_calls (mem s) ++ [CmdMessage (cmd_msg c) (cmd_h c) tr; CmdStop].
Proof.
  intros Hb Hr Hi Hq Hr'. simpl in *.
  set (tr := message_tr (webTransmit (m_wh (mem s))) c) in *.
  set (s1 := mkState _ _) in Hr'.
  assert (Hr1 : reachable s0 s1).
  { unfold reachable in *. eapply rtc_r; [exact Hr|].
    apply (step_thread s i _ _ _ Hi). apply ts_receive.
    exact (recv_message sl rate (mem s) c q _ Hq eq_refl). }
  assert (Hi1 : threads s1 !! i
                = Some (TReceive sl rate
                          (CtrlCall (CmdMessage (cmd_msg c) (cmd_h c) tr)
                             [HdlMessage (cmd_h c) (cmd_msg c) tr]))).
  { simpl. apply list_lookup_insert_eq. by eapply lookup_lt_Some. }
  destruct (case_body_contiguous _ _ _ _ _ _ _ _ _ _ _ (m_calls (mem s)) s'
              Hb Hr1 Hi1 eq_refl Hr')
    as [(j & sl' & rate' & done & c' & todo & Hbody & _ & Hc)
       |[(more & Hc)
        |(j & sl' & rate' & pc' & done & c' & todo & Hbody & _ & _ & Hc)]].
  - destruct done as [|d1 done]; simpl in Hbody.
    + injection Hbody as <- _. left. by rewrite Hc.
    + injection Hbody as <- Hbody. destruct done as [|d2 done]; simpl in Hbody.
      * injection Hbody as <- _. right. left. exists []. by rewrite Hc.
      * injection Hbody as _ Hbody. by destruct done.
  - right. left. exists more. by rewrite Hc.
  - destruct done as [|d1 done]; simpl in Hbody.
    + injection Hbody as <- _. right. right. by rewrite Hc.
    + injection Hbody as <- Hbody. destruct done as [|d2 done]; simpl in Hbody.
      * injection Hbody as <- _. right. left. exists [CmdStop]. by rewrite Hc.
      * injection Hbody as _ Hbody. by destruct done.
Qed.

(** The same for an [Update] round: its calls are in the history in one
    piece. *)
Lemma update_round_not_interleaved wtref order1 order2 sc s0 s i sl rate s' :
  boot wtref order1 order2 sc = Some s0 → reachable s0 s →
  threads s !! i = Some (TReceive sl rate CtrlSelect) →
  0 < rate →
  reachable
    (mkState (enter (update_calls (webTransmit (m_wh (mem s))) sl) (mem s)).1
       (<[i := TReceive sl rate
                 (enter (update_calls (webTransmit (m_wh (mem s))) sl)
                    (mem s)).2]> (threads s)))
    s' →
  body_progress (m_calls (mem s))
    (update_calls (webTransmit (m_wh (mem s))) sl) s'.
Proof.
  intros Hb Hr Hi Hrate Hr'. simpl in *.
  set (s1 := mkState _ _) in Hr'.
  assert (Hr1 : reachable s0 s1).
  { unfold reachable in *. eapply rtc_r; [exact Hr|].
    apply (step_thread s i _ _ _ Hi). apply ts_receive.
    exact (recv_tick sl rate (mem s) _ Hrate eq_refl). }
  assert (Hi1 : threads s1 !! i
                = Some (TReceive sl rate
                          (CtrlCall
                             (CmdUpdate
                                (commander_update_tr (webTransmit (m_wh (mem s)))))
                             (map (λ h, HdlUpdate h
                                     (handler_tr (webTransmit (m_wh (mem s))) h))
                                sl)))).
  { simpl. apply list_lookup_insert_eq. by eapply lookup_lt_Some. }
  exact (case_body_contiguous _ _ _ _ _ _ _ _ _ _ _ (m_calls (mem s)) s'
           Hb Hr1 Hi1 eq_refl Hr').
Qed.

(** ** Envelopes on the outbound channel *)

Lemma Send_run_buffer t data md (h h' : gmap ChanRef Chan) b c ch' e :
  Send_run t data md h = Some (b, h') →
  h' !! c = Some ch' → e ∈ ch_buf ch' →
  (∃ ch, h !! c = Some ch ∧ e ∈ ch_buf ch) ∨ mode e ≤ maxMode e.
Proof.
  unfold Send_run.
  destruct (Send_cases t data md) as [Hrej|[Hle [c0 Hc0]]].
  - rewrite (Send_rejected _ _ _ Hrej). simpl. intros [= <- <-] Hl Hin.
    left. eauto.
  - rewrite (Send_accepted _ _ _ _ Hle Hc0). simpl.
    destruct (h !! c0) as [ch0|] eqn:Hl0; [|done].
    unfold chan_send. case_decide; [|done]. intros [= <- <-] Hl Hin.
    destruct (decide (c0 = c)) as [->|Hne].
    + rewrite lookup_insert_eq in Hl. injection Hl as <-. simpl in Hin.
      apply elem_of_app in Hin as [Hin|Hin]; [left; eauto|].
      apply list_elem_of_singleton in Hin as ->. right. simpl. lia.
    + rewrite lookup_insert_ne in Hl by done. left. eauto.
Qed.

Lemma ceiling_inv_step s s' : ceiling_inv s → step s s' → ceiling_inv s'.
Proof.
  unfold ceiling_inv, holds_envelope. intros [Hq Hh] Hstep.
  destruct Hstep as [s i th m' th' Hi Hts|s name cf _|s|s t data md b h' _ Hrun];
    simpl.
  - apply list_elem_of_lookup_2 in Hi.
    assert (Hchans : (m_chans m' = m_chans (mem s)
                      ∧ webTransmit (m_wh m') = webTransmit (m_wh (mem s))
                      ∧ ∀ e, th' = TSend (SendWrite e) → th = TSend (SendWrite e))
                     ∨ ∃ ch e ch',
                         m_chans (mem s) !! webTransmit (m_wh (mem s)) = Some ch
                         ∧ chan_recv ch = Some (e, ch')
                         ∧ webTransmit (m_wh m') = webTransmit (m_wh (mem s))
                         ∧ m_chans m'
                           = <[webTransmit (m_wh (mem s)) := ch']> (m_chans (mem s))
                         ∧ th' = TSend (SendWrite e)).
    { step_of_thread Hts; enter_cases;
        first [ by left; repeat split; try done; intros; discriminate
              | right; eauto 10 ]. }
    destruct Hchans as [(Ec & Ew & Eh)|(ch & e & ch' & Hl & Hrecv & Ew & Ec & ->)].
    + rewrite Ec, Ew. split; [done|].
      intros th0 e Hin ->. apply elem_of_insert_pool in Hin as [E|Hin].
      * symmetry in E. apply Eh in E. subst th. by apply (Hh _ e Hi).
      * by apply (Hh _ e Hin).
    + rewrite Ec, Ew. unfold chan_recv in Hrecv.
      destruct (ch_buf ch) as [|v rest] eqn:Hbuf; [done|].
      injection Hrecv as <- <-. split.
      * intros ch0 e0. rewrite lookup_insert_eq. intros [= <-]. simpl.
        intros Hin. apply (Hq ch e0 Hl). rewrite Hbuf. by right.
      * intros th0 e0 Hin ->. apply elem_of_insert_pool in Hin as [E|Hin].
        -- injection E as E. rewrite E. apply (Hq ch v Hl). rewrite Hbuf. by left.
        -- by apply (Hh _ e0 Hin).
  - split; [done|]. intros th0 e Hin ->.
    apply elem_of_app in Hin as [Hin|Hin]; [by apply (Hh _ e Hin)|].
    by apply list_elem_of_singleton in Hin.
  - split; [done|]. intros th0 e Hin ->.
    apply elem_of_app in Hin as [Hin|Hin]; [by apply (Hh _ e Hin)|].
    by apply list_elem_of_singleton in Hin.
  - split; [|done]. intros ch' e Hl Hin.
    destruct (Send_run_buffer _ _ _ _ _ _ _ _ _ Hrun Hl Hin)
      as [(ch & Hl0 & Hin0)|?]; [|done].
    by apply (Hq ch e Hl0).
Qed.

(** Every envelope that waits on the outbound channel or is held by the
    dispatcher, in any state the system reaches, has a mode within its
    ceiling. *)
Lemma envelopes_within_ceiling wtref order1 order2 sc s0 s :
  boot wtref order1 order2 sc = Some s0 → reachable s0 s → ceiling_inv s.
Proof.
  intros Hb. revert s. apply (reachable_invariant ceiling_inv).
  - unfold ceiling_inv, holds_envelope.
    rewrite (boot_threads _ _ _ _ _ Hb).
    assert (Hch : m_chans (mem s0) = {[wtref := mkChan webTransmit_cap []]}
                  ∧ webTransmit (m_wh (mem s0)) = wtref).
    { revert Hb. unfold boot. rewrite InitWebHandler_eq.
      destruct (sc_Start sc (init_tm wtref order1)); [done|].
      simpl. intros [= <-]. simpl. unfold init_funcs.
      by rewrite init_funcs_acc. }
    destruct Hch as [-> ->]. split.
    + intros ch e. rewrite lookup_singleton_eq. intros [= <-]. simpl.
      by intros ?%elem_of_nil.
    + intros th e Hin ->. apply elem_of_cons in Hin as [?|Hin]; [done|].
      by apply list_elem_of_singleton in Hin.
  - intros s1 s2 _. apply ceiling_inv_step.
Qed.

(** ** The running control loop and the loop as a function *)

Section LoopRefinement.
Implicit Types (wtref : ChanRef) (sl : list SocketHandler).
Implicit Types (pre sels : list LoopSelect).

Lemma handleWebsocketReceive_nil wtref sl rate :
  (handleWebsocketReceive wtref sl rate []).1 = [].
Proof. unfold handleWebsocketReceive. by destruct (0 <? rate). Qed.

Lemma handleWebsocketReceive_message_last wtref sl rate pre c :
  forallb (live (0 <? rate)) pre = true →
  (handleWebsocketReceive wtref sl rate (pre ++ [SelRecv (Some c)])).1
  = (handleWebsocketReceive wtref sl rate pre).1 ++ message_calls wtref c.
Proof.
  intros Hl.
  rewrite (handleWebsocketReceive_split wtref sl rate pre _ []
             (message_calls wtref c) Hl).
  - by rewrite handleWebsocketReceive_nil, app_nil_r.
  - left. intros rest. simpl. by destruct (run wtref rest).
  - left. intros rest. simpl. by destruct (runUpdate wtref sl rest).
Qed.

Lemma handleWebsocketReceive_tick_last wtref sl rate pre :
  0 < rate → forallb (live (0 <? rate)) pre = true →
  (handleWebsocketReceive wtref sl rate (pre ++ [SelTick])).1
  = (handleWebsocketReceive wtref sl rate pre).1 ++ update_calls wtref sl.
Proof.
  intros Hrate Hl.
  rewrite (handleWebsocketReceive_split wtref sl rate pre _ []
             (update_calls wtref sl) Hl).
  - by rewrite handleWebsocketReceive_nil, app_nil_r.
  - by right.
  - left. intros rest. simpl. by destruct (runUpdate wtref sl rest).
Qed.

Lemma handleWebsocketReceive_exit_last wtref sl rate pre :
  forallb (live (0 <? rate)) pre = true →
  handleWebsocketReceive wtref sl rate (pre ++ [SelExit])
  = ((handleWebsocketReceive wtref sl rate pre).1 ++ [CmdStop], true).
Proof.
  intros Hl. unfold handleWebsocketReceive.
  destruct (0 <? rate).
  - destruct (runUpdate_app wtref sl pre [SelExit] Hl) as [-> Eb].
    destruct (runUpdate wtref sl pre) as [cs f]. simpl in *. subst f.
    by rewrite app_nil_r.
  - destruct (run_app wtref pre [SelExit] Hl) as [-> Eb].
    destruct (run wtref pre) as [cs f]. simpl in *. subst f.
    by rewrite app_nil_r.
Qed.

Lemma live_snoc b pre x :
  forallb (live b) pre = true → live b x = true →
  forallb (live b) (pre ++ [x]) = true.
Proof. intros Hp Hx. rewrite forallb_app. simpl. by rewrite Hp, Hx. Qed.

Lemma thread_step_webTransmit m th m' th' :
  thread_step m th m' th' → webTransmit (m_wh m') = webTransmit (m_wh m).
Proof. intros Hts. step_of_thread Hts; enter_cases; done. Qed.

Lemma step_webTransmit s s' :
  step s s' → webTransmit (m_wh (mem s')) = webTransmit (m_wh (mem s)).
Proof.
  destruct 1 as [s i th m' th' Hi Hts|s name cf _|s|s t data md b h' _ _];
    simpl; try done.
  by apply (thread_step_webTransmit _ _ _ _ Hts).
Qed.

Lemma loop_refines_step wtref s s' :
  total is_receive (threads s) = 1 →
  loop_refines wtref s → step s s' → loop_refines wtref s'.
Proof.
  intros Hone [Hw (i & sl & rate & pc & sels & Hi & Hpc)] Hstep.
  split; [by rewrite (step_webTransmit _ _ Hstep)|].
  destruct Hstep as [s j th m' th' Hj Hts|s name cf _|s|s t data md b h' _ _];
    simpl.
  - destruct (decide (i = j)) as [<-|Hne].
    + rewrite Hi in Hj. injection Hj as <-.
      assert (Hlen : (i < length (threads s))%nat) by by eapply lookup_lt_Some.
      inversion Hts as [????? ? Hs| | |]; subst. clear Hts.
      inversion Hs; subst; clear Hs; simpl in *.
      * (* a message is taken *)
        destruct Hpc as [Hl Hc].
        eexists i, sl, rate, _, (sels ++ [SelRecv (Some c)]).
        split; [by apply list_lookup_insert_eq|]. simpl.
        split; [by apply live_snoc|].
        rewrite handleWebsocketReceive_message_last, Hc by done.
        unfold message_calls. by rewrite <- app_assoc.
      * (* a tick *)
        destruct Hpc as [Hl Hc].
        eexists i, sl, rate, _, (sels ++ [SelTick]).
        split; [by apply list_lookup_insert_eq|]. simpl.
        split.
        { apply live_snoc; [done|]. simpl. by apply Z.ltb_lt. }
        rewrite handleWebsocketReceive_tick_last, Hc by done.
        unfold update_calls. by rewrite <- app_assoc.
      * (* the loop is left *)
        destruct Hpc as [Hl Hc].
        exists i, sl, rate, CtrlStop, (sels ++ [SelExit]).
        split; [by apply list_lookup_insert_eq|].
        exists sels. split; [done|]. split; [done|].
        by rewrite handleWebsocketReceive_exit_last, Hc.
      * (* a call returns *)
        destruct Hpc as [Hl Hc]. destruct rest as [|c' rest]; simpl.
        -- exists i, sl, rate, CtrlSelect, sels.
           split; [by apply list_lookup_insert_eq|]. split; [done|].
           by rewrite Hc, app_nil_r.
        -- exists i, sl, rate, (CtrlCall c' rest), sels.
           split; [by apply list_lookup_insert_eq|]. split; [done|].
           simpl. by rewrite Hc, <- app_assoc.
      * exists i, sl, rate, CtrlDone, sels.
        split; [by apply list_lookup_insert_eq|]. done.
      * (* [close(wh.finishedExit)] panics *)
        destruct Hpc as (pre & -> & Hl & Hc).
        exists i, sl, rate, CtrlPanic, pre.
        split; [by apply list_lookup_insert_eq|]. split; [done|].
        rewrite handleWebsocketReceive_exit_last in Hc by done.
        injection Hc as <-.
        eexists _, []. split; [reflexivity|]. by rewrite app_nil_r.
      * (* a call of a case body panics *)
        destruct Hpc as [Hl Hc].
        exists i, sl, rate, CtrlUnwind, sels.
        split; [by apply list_lookup_insert_eq|]. split; [done|].
        by exists (m_calls (mem s)), rest.
      * exists i, sl, rate, CtrlFault, sels.
        split; [by apply list_lookup_insert_eq|]. done.
      * exists i, sl, rate, CtrlPanic, sels.
        split; [by apply list_lookup_insert_eq|]. done.
      * (* [sc.Stop()] panics *)
        destruct Hpc as (pre & -> & Hl & Hc).
        exists i, sl, rate, CtrlPanic, pre.
        split; [by apply list_lookup_insert_eq|]. split; [done|].
        rewrite handleWebsocketReceive_exit_last in Hc by done.
        injection Hc as <-.
        eexists _, []. split; [reflexivity|]. by rewrite app_nil_r.
      * exists i, sl, rate, CtrlPanic, sels.
        split; [by apply list_lookup_insert_eq|]. done.
    + assert (Hnr : is_receive th = 0).
      { destruct (decide (is_receive th = 1)) as [E|E].
        - exfalso. apply Hne. by apply (receive_unique _ _ _ _ _ Hone Hi Hj).
        - destruct th; simpl in *; lia. }
      destruct (thread_step_calls _ _ _ _ Hts) as (suf & Hsuf & Hnil).
      rewrite (Hnil Hnr), app_nil_r in Hsuf.
      exists i, sl, rate, pc, sels. rewrite Hsuf.
      split; [by rewrite list_lookup_insert_ne|done].
  - exists i, sl, rate, pc, sels. split; [by apply lookup_app_l_Some|done].
  - exists i, sl, rate, pc, sels. split; [by apply lookup_app_l_Some|done].
  - exists i, sl, rate, pc, sels. done.
Qed.
End LoopRefinement.

(** In every state the system reaches, the calls into user code made so
    far are the calls of [handleWebsocketReceive], as a function, on some
    sequence of cases taken by its [select]. *)
Lemma control_loop_refines wtref order1 order2 sc s0 s :
  boot wtref order1 order2 sc = Some s0 → reachable s0 s →
  loop_refines wtref s.
Proof.
  intros Hb Hr.
  assert (Hboth : loop_refines wtref s ∧ reachable s0 s).
  { revert s Hr.
    apply (reachable_invariant (λ s, loop_refines wtref s ∧ reachable s0 s)).
    - split; [|by apply rtc_refl]. split.
      + destruct (boot_mem _ _ _ _ _ Hb) as (f & -> & _). done.
      + exists 1%nat, order2.*2, (sc_UpdateFrequency sc), CtrlSelect, [].
        rewrite (boot_threads _ _ _ _ _ Hb).
        destruct (boot_mem _ _ _ _ _ Hb) as (f & _ & -> & _).
        split; [done|]. split; [done|].
        unfold handleWebsocketReceive. by destruct (0 <? _).
    - intros s1 s2 _ [Hl Hr1] Hstep. split.
      + apply (loop_refines_step _ s1); [|done|done].
        by apply (one_control_loop _ _ _ _ _ _ Hb).
      + unfold reachable in *. by eapply rtc_r. }
  apply Hboth.
Qed.

(** ** The theorems at work on the scenarios *)

Section Witnesses.
Import Scenario.

Lemma order0_of_hm0 : order0 ≡ₚ map_to_list hm0.
Proof. unfold hm0, order0. by rewrite map_to_list_singleton. Qed.

(** In [in_call] the control loop is inside a callback sequence, and it
    is the only goroutine there. *)
Lemma one_callback_sequence_witness :
  total in_sequence (threads in_call) = 1
  ∧ total in_sequence (threads in_call) ≤ 1.
Proof.
  split; [reflexivity|].
  exact (one_callback_sequence_at_a_time wt0 order0 order0 sc0 booted in_call
           boot_scenario in_call_reachable).
Defined.



Lemma message_calls_back_to_back_witness :
  ∃ tr,
    maxMode tr = Socket ∧ ws tr = Some conn1 ∧ sh tr = Some main_handler
    ∧ wt tr = Some wt0
    ∧ (handleWebsocketReceive wt0 [main_handler] 5
         ([SelTick; SelRecv None] ++ SelRecv (Some ping_cmd) :: [SelExit])).1
      = (handleWebsocketReceive wt0 [main_handler] 5 [SelTick; SelRecv None]).1
        ++ [CmdMessage ping main_handler tr; HdlMessage main_handler ping tr]
        ++ (handleWebsocketReceive wt0 [main_handler] 5 [SelExit]).1.
Proof.
  exact (message_calls_back_to_back wt0 [main_handler] 5
           [SelTick; SelRecv None] [SelExit] ping_cmd eq_refl).
Defined.

Lemma tick_runs_one_update_round_witness :
  ∃ sl tr0 trh,
    flat_map spawned (init_events sc_ticking (init_tm wt0 order0) [main_handler])
      = [TSend SendSelect; TReceive sl 5 CtrlSelect]
    ∧ sl ≡ₚ (map_to_list hm0).*2
    ∧ (maxMode tr0 = Broadcast ∧ ws tr0 = None ∧ sh tr0 = None
       ∧ wt tr0 = Some wt0)
    ∧ (∀ h, maxMode (trh h) = Handle ∧ sh (trh h) = Some h
            ∧ ws (trh h) = None ∧ wt (trh h) = Some wt0)
    ∧ (handleWebsocketReceive wt0 sl 5 ([SelRecv None] ++ SelTick :: [SelExit])).1
      = (handleWebsocketReceive wt0 sl 5 [SelRecv None]).1
        ++ (CmdUpdate tr0 :: map (λ h, HdlUpdate h (trh h)) sl)
        ++ (handleWebsocketReceive wt0 sl 5 [SelExit]).1.
Proof.
  refine (tick_runs_one_update_round wt0 order0 order0 sc_ticking hm0
            wh0 None _ [SelRecv None] [SelExit] order0_of_hm0 eq_refl _ eq_refl).
  simpl. lia.
Defined.

(** With no timeout, the reader of [handing] waits or delivers. *)
Lemma handoff_drops_only_after_timeout_witness :
  (upd_wh (λ w, set_webReceive (webReceive w ++ [ping_cmd]) w) mem_registered
   = mem handing
   ∧ ∃ d, ConnRead conn1 = ConnHandoff conn1 ping (0 + d))
  ∨ webReceive
      (m_wh (upd_wh (λ w, set_webReceive (webReceive w ++ [ping_cmd]) w)
               mem_registered))
    = webReceive (m_wh (mem handing)) ++ [mkCmd ping main_handler conn1].
Proof.
  destruct (handoff_drops_only_after_timeout wt0 order0 order0 sc0 booted
              handing 2 main_handler 0 conn1 ping 0 boot_scenario
              handing_reachable eq_refl) as (_ & _ & Hnever & _).
  apply (Hnever ltac:(lia)
           (upd_wh (λ w, set_webReceive (webReceive w ++ [ping_cmd]) w)
              mem_registered) (ConnRead conn1)).
  apply conn_handed. simpl. unfold webReceive_cap. lia.
Defined.

(** One step of the reader, thread 2 of the scenarios, or of the control
    loop, thread 1. *)
Ltac reader_reads payload :=
  eapply rtc_l;
  [ eapply (step_thread _ 2); [reflexivity|];
    apply ts_conn; apply (conn_read _ _ _ conn1 payload); simpl; set_solver
  | simpl ].

Ltac reader_hands :=
  eapply rtc_l;
  [ eapply (step_thread _ 2); [reflexivity|];
    apply ts_conn; apply conn_handed; simpl; unfold webReceive_cap; lia
  | simpl ].

Ltac loop_takes :=
  eapply rtc_l;
  [ eapply (step_thread _ 1); [reflexivity|];
    apply ts_receive; by eapply recv_message
  | simpl ].

Ltac call_returns :=
  eapply rtc_l;
  [ eapply (step_thread _ 1); [reflexivity|];
    apply ts_receive; by eapply recv_return
  | simpl ].

(** A hand-over that has waited longer than the timeout and goes
    through all the same. The message timeout is one unit. The control loop is inside the commander's [Message] for a first
    message and stays there; five more messages fill the inbound queue; the
    reader stands at the hand-over with [late], and with the queue full it
    waits there for five units. Then the call returns, the control loop
    takes the next message, the queue has room, the reader hands [late]
    over, and in the end the commander's [Message] is called with it. *)
Lemma late_handoff_is_still_delivered :
  boot wt0 order0 order0 sc_impatient = Some impatient
  ∧ sc_MessageTimeout sc_impatient = 1
  ∧ ∃ blocked waited delivered,
      reachable impatient blocked
      ∧ threads blocked !! 2%nat
        = Some (TConn main_handler 1 (ConnHandoff conn1 late 0))
      ∧ length (webReceive (m_wh (mem blocked))) = webReceive_cap
      ∧ step blocked waited
      ∧ mem waited = mem blocked
      ∧ threads waited !! 2%nat
        = Some (TConn main_handler 1 (ConnHandoff conn1 late 5))
      ∧ reachable waited delivered
      ∧ CmdMessage late main_handler (message_tr wt0 late_cmd)
        ∈ m_calls (mem delivered).
Proof.
  split; [reflexivity|]. split; [reflexivity|].
  eexists _, _, _. split.
  { unfold reachable.
    eapply rtc_l.
    { apply (step_accept impatient "main" (makeConnectHandler main_handler 1)).
      reflexivity. }
    eapply rtc_l.
    { eapply (step_thread _ 2); [reflexivity|].
      apply ts_conn. by apply conn_registered. }
    simpl.
    reader_reads ping. reader_hands. loop_takes.
    reader_reads ping. reader_hands.
    reader_reads ping. reader_hands.
    reader_reads ping. reader_hands.
    reader_reads ping. reader_hands.
    reader_reads ping. reader_hands.
    reader_reads late.
    apply rtc_refl. }
  split; [reflexivity|]. split; [reflexivity|]. split.
  { eapply (step_thread _ 2); [reflexivity|].
    apply ts_conn. apply (conn_wait _ _ _ _ _ _ 5). lia. }
  split; [reflexivity|]. split; [reflexivity|]. split.
  { unfold reachable. simpl.
    call_returns. call_returns. loop_takes.
    reader_hands.
    call_returns. call_returns. loop_takes.
    call_returns. call_returns. loop_takes.
    call_returns. call_returns. loop_takes.
    call_returns. call_returns. loop_takes.
    call_returns. call_returns. loop_takes.
    apply rtc_refl. }
  simpl. apply (list_elem_of_lookup_2 _ 12). reflexivity.
Qed.

Lemma InitWebHandler_aborts_witness :
  InitWebHandler wt0 order0 order0 sc_failing []
  = ((None, Some "no driver"%string), [] ++ [EvStart (init_tm wt0 order0)])
  ∧ flat_map spawned (snd (InitWebHandler wt0 order0 order0 sc_failing [])) = []
  ∧ (EvMessageTimeout ∉ snd (InitWebHandler wt0 order0 order0 sc_failing []))
  ∧ (EvUpdateFrequency ∉ snd (InitWebHandler wt0 order0 order0 sc_failing []))
  ∧ boot wt0 order0 order0 sc_failing = None.
Proof.
  exact (InitWebHandler_aborts_on_Start_error wt0 order0 order0 sc_failing []
           "no driver" eq_refl).
Defined.

Lemma GetWebFunc_witness :
  GetWebFunc wh0 "main" = Some (makeConnectHandler main_handler 0)
  ∧ GetWebFunc wh0 "other" = None.
Proof.
  pose proof (GetWebFunc_of_registered_name wt0 order0 order0 sc0 hm0 []
                wh0 None _ order0_of_hm0 eq_refl) as H.
  split; [exact (H "main"%string)|exact (H "other"%string)].
Defined.
End Witnesses.

(** * Further properties *)

(** ** Modes *)

Lemma elem_of_modes3 (m : Z) : m ∈ [Broadcast; Handle; Socket] ↔ 0 ≤ m ≤ 2.
Proof.
  unfold Broadcast, Handle, Socket. rewrite !elem_of_cons, elem_of_nil. lia.
Qed.

Lemma elem_of_modes2 (m : Z) : m ∈ [Broadcast; Handle] ↔ 0 ≤ m ≤ 1.
Proof. unfold Broadcast, Handle. rewrite !elem_of_cons, elem_of_nil. lia. Qed.

Lemma elem_of_modes1 (m : Z) : m ∈ [Broadcast] ↔ 0 ≤ m ≤ 0.
Proof. unfold Broadcast. rewrite !elem_of_cons, elem_of_nil. lia. Qed.

Lemma GetModes_cases (t : Transmitter) :
  (maxMode t = Socket ∧ GetModes t = [Broadcast; Handle; Socket])
  ∨ (maxMode t = Handle ∧ GetModes t = [Broadcast; Handle])
  ∨ (maxMode t ≠ Socket ∧ maxMode t ≠ Handle ∧ GetModes t = [Broadcast]).
Proof.
  unfold GetModes.
  destruct (Z.eqb_spec (maxMode t) Socket); [by left|].
  destruct (Z.eqb_spec (maxMode t) Handle); [by right; left|].
  by right; right.
Qed.

(** X1. For a transmitter with a ceiling that is a [uint8], every mode
    [GetModes] lists is within the ceiling, so [Send] accepts it whenever
    a channel is bound. With a ceiling of at most [Socket], as the package
    issues them, the list is exactly the modes from [Broadcast] up to the
    ceiling. Above [Socket] the list falls back to [Broadcast] alone,
    although [Send] would accept more. *)
Theorem GetModes_lists_what_Send_accepts (t : Transmitter) :
  0 ≤ maxMode t →
  (∀ m, m ∈ GetModes t →
     0 ≤ m ≤ maxMode t
     ∧ ∀ data, wt t ≠ None → sr_ret (Send t data m) = true)
  ∧ (maxMode t ≤ Socket → ∀ m, m ∈ GetModes t ↔ 0 ≤ m ≤ maxMode t)
  ∧ (Socket < maxMode t →
     GetModes t = [Broadcast]
     ∧ ∀ data, wt t ≠ None → sr_ret (Send t data Socket) = true).
Proof.
  intros Hnn.
  assert (Hin : ∀ m, m ∈ GetModes t → 0 ≤ m ≤ maxMode t).
  { intros m.
    destruct (GetModes_cases t) as [[E ->]|[[E ->]|(E1 & E2 & ->)]].
    - rewrite elem_of_modes3, E. unfold Socket. lia.
    - rewrite elem_of_modes2, E. unfold Handle. lia.
    - rewrite elem_of_modes1. lia. }
  assert (Hsend : ∀ m data, m ≤ maxMode t → wt t ≠ None →
                            sr_ret (Send t data m) = true).
  { intros m data Hle Hwt. destruct (wt t) as [c|] eqn:Hc; [|done].
    by rewrite (Send_accepted t data m c Hle Hc). }
  split; [|split].
  - intros m Hm. split; [by apply Hin|]. intros data. apply Hsend.
    by apply Hin.
  - intros Hle m. split; [by apply Hin|]. revert Hle.
    destruct (GetModes_cases t) as [[E ->]|[[E ->]|(E1 & E2 & ->)]].
    + rewrite elem_of_modes3, E. unfold Socket. lia.
    + rewrite elem_of_modes2, E. unfold Handle. lia.
    + rewrite elem_of_modes1. unfold Socket, Handle in *. lia.
  - intros Hgt. split.
    + destruct (GetModes_cases t) as [[E _]|[[E _]|(_ & _ & ->)]]; try done;
        unfold Socket, Handle in *; lia.
    + intros data. apply Hsend. lia.
Qed.

(** ** The transmitters of [Start] *)

Lemma foldl_insert_lookup_map {A B} (g : A → B) (order : list (string * A))
    (f : gmap string B) s :
  NoDup order.*1 →
  foldl (λ f '(s, h), <[s := g h]> f) f order !! s
  = match (list_to_map order : gmap string A) !! s with
    | Some h => Some (g h)
    | None => f !! s
    end.
Proof.
  revert f. induction order as [|[s0 h0] order IH]; intros f; simpl.
  - intros _. by rewrite lookup_empty.
  - rewrite NoDup_cons. intros [Hnotin Hnd]. rewrite IH by done.
    destruct (decide (s0 = s)) as [->|Hne].
    + rewrite lookup_insert_eq.
      rewrite (not_elem_of_list_to_map_1 order s) by done.
      by rewrite lookup_insert_eq.
    + by rewrite !(lookup_insert_ne _ s0 s) by done.
Qed.

Lemma init_tm_lookup wtref order (hm : gmap string SocketHandler) s :
  order ≡ₚ map_to_list hm →
  init_tm wtref order !! s = handler_tr wtref <$> hm !! s.
Proof.
  intros Hp. unfold init_tm.
  assert (Hnd : NoDup order.*1).
  { rewrite Hp. apply NoDup_fst_map_to_list. }
  rewrite (foldl_insert_lookup_map (handler_tr wtref)) by done.
  assert (E : (list_to_map order : gmap string SocketHandler) = hm).
  { rewrite <- (list_to_map_to_list hm). by apply list_to_map_proper. }
  rewrite E, lookup_empty. by destruct (hm !! s).
Qed.

(** X2. The first thing [InitWebHandler] does is call [Start], and the
    map it passes has exactly the names of the handler map: under each
    name a transmitter that gives back the handler of that name, allows
    [Broadcast] and [Handle], is bound to the outbound channel and to no
    connection, and refuses a [Socket] send. *)
Theorem Start_gets_one_transmitter_per_name (wtref : ChanRef)
    (order1 order2 : list (string * SocketHandler)) (sc : SystemCommander)
    (hm : gmap string SocketHandler) :
  order1 ≡ₚ map_to_list hm →
  ∃ tm rest,
    snd (InitWebHandler wtref order1 order2 sc []) = EvStart tm :: rest
    ∧ ∀ s, match hm !! s with
           | Some h =>
               ∃ t, tm !! s = Some t
                 ∧ GetHandler t = Some h
                 ∧ GetModes t = [Broadcast; Handle]
                 ∧ wt t = Some wtref ∧ ws t = None
                 ∧ ∀ data, sr_ret (Send t data Socket) = false
           | None => tm !! s = None
           end.
Proof.
  intros Hp. exists (init_tm wtref order1).
  rewrite InitWebHandler_eq.
  destruct (sc_Start sc (init_tm wtref order1)) as [e|]; simpl;
    eexists; (split; [reflexivity|]); intros s;
    rewrite (init_tm_lookup wtref order1 hm s Hp);
    destruct (hm !! s) as [h|]; simpl; try done;
    exists (handler_tr wtref h); repeat split; done.
Qed.

(** ** The names of the connect functions *)

Lemma GetNames_loop_fills (order : list (string * ConnectFunc))
    (keys : list string) (i : nat) :
  (i + length order ≤ length keys)%nat →
  GetNames_loop order keys i
  = Some (take i keys ++ order.*1 ++ drop (i + length order) keys).
Proof.
  revert keys i. induction order as [|[k f] order IH]; intros keys i; simpl.
  - intros _. rewrite Nat.add_0_r. by rewrite take_drop.
  - intros Hlen. unfold slice_set. rewrite decide_True by lia.
    rewrite IH by (rewrite length_insert; lia).
    f_equal.
    rewrite (take_S_r _ _ k) by (apply list_lookup_insert_eq; lia).
    rewrite take_insert_ge by lia.
    rewrite drop_insert_lt by lia.
    rewrite <- app_assoc. simpl. by rewrite Nat.add_succ_r.
Qed.

Lemma GetNames_range (wh : WebHandler) (order : list (string * ConnectFunc)) :
  order ≡ₚ map_to_list (wFuncs wh) → GetNames wh order = Some order.*1.
Proof.
  intros Hp. unfold GetNames.
  assert (Hlen : length order = size (wFuncs wh)).
  { by rewrite Hp, length_map_to_list. }
  rewrite GetNames_loop_fills by (rewrite length_replicate; simpl; lia).
  simpl. rewrite drop_ge by (rewrite length_replicate; lia).
  by rewrite app_nil_r.
Qed.

(** X3. On the [WebHandler] of a successful [InitWebHandler], whatever
    order the loop visits the map in, [GetNames] fills its slice without
    running over its end and returns each name of the handler map exactly
    once and nothing else; [GetWebFunc] is non-nil at exactly the names it
    returns. *)
Theorem GetNames_lists_each_name_once (wtref : ChanRef)
    (order1 order2 : list (string * SocketHandler)) (sc : SystemCommander)
    (hm : gmap string SocketHandler) (wh : WebHandler) (err : option string)
    (log : list InitEvent) (order : list (string * ConnectFunc)) :
  order2 ≡ₚ map_to_list hm →
  InitWebHandler wtref order1 order2 sc [] = ((Some wh, err), log) →
  order ≡ₚ map_to_list (wFuncs wh) →
  ∃ names,
    GetNames wh order = Some names
    ∧ NoDup names
    ∧ length names = size hm
    ∧ ∀ s, (s ∈ names ↔ is_Some (hm !! s))
           ∧ (s ∈ names ↔ is_Some (GetWebFunc wh s)).
Proof.
  intros Hp2 Hi Hp.
  assert (Hl : ∀ s, wFuncs wh !! s
             = (λ h, makeConnectHandler h (sc_MessageTimeout sc)) <$> hm !! s).
  { intros s. rewrite InitWebHandler_eq in Hi.
    destruct (sc_Start sc (init_tm wtref order1)); [discriminate|].
    simpl in Hi. injection Hi as <- _ _.
    by apply init_funcs_lookup. }
  assert (Hw : wFuncs wh
             = (λ h, makeConnectHandler h (sc_MessageTimeout sc)) <$> hm).
  { apply map_eq. intros s. by rewrite Hl, lookup_fmap. }
  exists order.*1. split; [by apply GetNames_range|]. split.
  { rewrite Hp. apply NoDup_fst_map_to_list. }
  split.
  { rewrite length_fmap, Hp, length_map_to_list, Hw. apply map_size_fmap. }
  intros s.
  assert (Hs : s ∈ order.*1 ↔ is_Some (wFuncs wh !! s)).
  { rewrite Hp, list_elem_of_fmap. split.
    - intros [[s' f] [-> Hin]]. apply elem_of_map_to_list in Hin. eauto.
    - intros [f Hf]. exists (s, f). split; [done|].
      by apply elem_of_map_to_list. }
  split; [|done]. rewrite Hs, Hl. by rewrite fmap_is_Some.
Qed.

(** ** The transmitters the callbacks get *)

Lemma documented_update wtref sl :
  Forall (λ c, documented c ∧ ∀ h tr, c = HdlUpdate h tr → h ∈ sl)
         (update_calls wtref sl).
Proof.
  unfold update_calls. constructor; [by repeat split|].
  apply Forall_fmap, Forall_forall. intros h Hin. simpl.
  split; [done|]. by intros h' tr [= <- _].
Qed.

Section LoopCalls.
Variable wtref : ChanRef.
Variable P : Call → Prop.
Hypothesis P_message : ∀ c, Forall P (message_calls wtref c).

Lemma run_calls sels : Forall P (run wtref sels).1.
Proof.
  induction sels as [|[[c|]| |] sels IH]; simpl; try done; try by constructor.
  destruct (run wtref sels) as [cs fin]. simpl in *.
  by apply (Forall_app P (message_calls wtref c) cs).
Qed.

Lemma runUpdate_calls sl sels :
  Forall P (update_calls wtref sl) → Forall P (runUpdate wtref sl sels).1.
Proof.
  intros P_update.
  induction sels as [|[[c|]| |] sels IH]; simpl; try done; try by constructor.
  - destruct (runUpdate wtref sl sels) as [cs fin]. simpl in *.
    by apply (Forall_app P (message_calls wtref c) cs).
  - destruct (runUpdate wtref sl sels) as [cs fin]. simpl in *.
    by apply (Forall_app P (update_calls wtref sl) cs).
Qed.

(** A property of the calls of a message case, of the calls of a ticker
    case when there is a ticker, and of [Stop], is a property of every
    call of the goroutine. *)
Lemma handleWebsocketReceive_calls sl rate sels :
  (0 < rate → Forall P (update_calls wtref sl)) → P CmdStop →
  Forall P (handleWebsocketReceive wtref sl rate sels).1.
Proof.
  intros P_update P_stop. unfold handleWebsocketReceive.
  destruct (Z.ltb_spec 0 rate) as [Hpos|Hneg].
  - pose proof (runUpdate_calls sl sels (P_update Hpos)) as H.
    destruct (runUpdate wtref sl sels) as [cs [|]]; simpl in *; [|done].
    apply Forall_app. split; [done|]. by repeat constructor.
  - pose proof (run_calls sels) as H.
    destruct (run wtref sels) as [cs [|]]; simpl in *; [|done].
    apply Forall_app. split; [done|]. by repeat constructor.
Qed.
End LoopCalls.

(** X4. Every call the control loop makes, with or without a ticker and
    whatever cases its [select] takes, has the transmitter the comments
    of the two interfaces promise: the commander's [Update] allows
    [Broadcast] only and carries no handler; a handler's [Update] allows
    [Broadcast] and [Handle] and carries that handler, which is one of
    the list the loop was started with; both [Message] calls allow all
    three modes and carry the originating handler. *)
Theorem callbacks_get_documented_transmitters (wtref : ChanRef)
    (sl : list SocketHandler) (rate : Z) (sels : list LoopSelect) :
  Forall (λ c, documented c ∧ ∀ h tr, c = HdlUpdate h tr → h ∈ sl)
         (handleWebsocketReceive wtref sl rate sels).1.
Proof.
  apply handleWebsocketReceive_calls.
  - intros c. unfold message_calls.
    repeat (apply Forall_cons; split; [split; [done|by intros h tr [=]]|]).
    apply Forall_nil_2.
  - intros _. apply documented_update.
  - split; [done|]. by intros h tr [=].
Qed.

(** With an update rate of zero or less the control loop has no ticker:
    whatever cases its [select] takes, it never calls an [Update]
    method. *)
Lemma no_ticker_no_Update (wtref : ChanRef) (sl : list SocketHandler)
    (rate : Z) (sels : list LoopSelect) :
  rate ≤ 0 →
  Forall (λ c, is_update c = false)
         (handleWebsocketReceive wtref sl rate sels).1.
Proof.
  intros Hrate. apply handleWebsocketReceive_calls.
  - intros c. by repeat constructor.
  - lia.
  - done.
Qed.

(** ** From [Send] to the connections *)

Section Delivery.
Variable write_fails : Conn → bool.
Variable clients : gmap Conn SocketHandler.
Variable order : list (Conn * SocketHandler).
Hypothesis order_perm : order ≡ₚ map_to_list clients.
Implicit Types (e : Transmitter) (x : Conn).

Lemma dispatch_Broadcast e x :
  mode e = Broadcast →
  x ∈ written (dispatch write_fails clients order e) ↔ is_Some (clients !! x).
Proof.
  intros E. unfold dispatch. rewrite E. simpl.
  rewrite (written_loop_elem write_fails (λ _, true) (msg e) clients order x
             order_perm).
  unfold is_Some. split; [intros [h [? _]]|intros [h ?]]; eauto.
Qed.

(** The [Handle] case panics exactly when a registered handler and the
    envelope's are of one type that is not comparable, and then before
    any write. *)
Lemma dispatch_Handle_panics e :
  mode e = Handle →
  (panics (dispatch write_fails clients order e) = true
   ↔ ∃ x handle h, clients !! x = Some handle ∧ sh e = Some h
                   ∧ dyn_type handle = dyn_type h
                   ∧ type_comparable (dyn_type h) = false)
  ∧ (panics (dispatch write_fails clients order e) = true →
     dispatch write_fails clients order e = [EvPanic]).
Proof.
  intros E. unfold dispatch. rewrite E. simpl.
  destruct (handle_loop_cases write_fails clients order e order_perm)
    as [[(x & handle & Hl & Hnone) ->]|[Hquiet ->]].
  - split; [|done]. split; [|done]. intros _.
    apply iface_eq_None in Hnone as (h & ? & ? & ?). by exists x, handle, h.
  - rewrite panics_loop. split; [|done]. split; [done|].
    intros (x & handle & h & Hl & Hs & Ht & Hc).
    exfalso. apply (Hquiet x handle Hl). apply iface_eq_None. by exists h.
Qed.

Lemma dispatch_Handle e x :
  mode e = Handle →
  panics (dispatch write_fails clients order e) = false →
  x ∈ written (dispatch write_fails clients order e)
  ↔ ∃ h, sh e = Some h ∧ clients !! x = Some h.
Proof.
  intros E. unfold dispatch. rewrite E. simpl.
  destruct (handle_loop_cases write_fails clients order e order_perm)
    as [[_ ->]|[_ ->]]; [done|]. intros _.
  rewrite (written_loop_elem write_fails
             (λ h, bool_decide (Some h = sh e)) (msg e) clients order x
             order_perm).
  split; intros [h [H1 H2]]; exists h.
  - apply bool_decide_eq_true in H2. done.
  - split; [done|]. by apply bool_decide_eq_true.
Qed.

Lemma dispatch_Socket e x :
  mode e = Socket →
  x ∈ written (dispatch write_fails clients order e)
  ↔ ws e = Some x ∧ is_Some (clients !! x).
Proof.
  intros E. unfold dispatch. rewrite E. simpl.
  destruct (ws e) as [c|].
  - destruct (clients !! c) as [h|] eqn:Hl.
    + rewrite written_write_to, list_elem_of_singleton. split.
      * intros ->. split; [done|]. by rewrite Hl.
      * by intros [[= ->] _].
    + simpl. split; [by intros ?%elem_of_nil|].
      intros [[= ->] [? ?]]. congruence.
  - simpl. split; [by intros ?%elem_of_nil|]. by intros [? _].
Qed.

Lemma dispatch_other e :
  mode e ≠ Broadcast → mode e ≠ Handle → mode e ≠ Socket →
  dispatch write_fails clients order e = [].
Proof.
  intros E1 E2 E3. unfold dispatch.
  destruct (Z.eqb_spec (mode e) Socket); [done|].
  destruct (Z.eqb_spec (mode e) Handle); [done|].
  by destruct (Z.eqb_spec (mode e) Broadcast).
Qed.

(** Only the [Handle] case can panic. *)
Lemma dispatch_no_panic e :
  mode e ≠ Handle → panics (dispatch write_fails clients order e) = false.
Proof.
  intros E. unfold dispatch.
  destruct (Z.eqb_spec (mode e) Socket).
  { destruct (ws e) as [c|]; [|done]. destruct (clients !! c); [|done].
    apply panics_write_to. }
  destruct (Z.eqb_spec (mode e) Handle); [done|].
  destruct (Z.eqb_spec (mode e) Broadcast); [|done].
  apply (panics_loop write_fails (λ _, true)).
Qed.

Lemma dispatch_written e x :
  panics (dispatch write_fails clients order e) = false →
  x ∈ written (dispatch write_fails clients order e)
  ↔ (mode e = Broadcast ∧ is_Some (clients !! x))
    ∨ (mode e = Handle ∧ ∃ h, sh e = Some h ∧ clients !! x = Some h)
    ∨ (mode e = Socket ∧ ws e = Some x ∧ is_Some (clients !! x)).
Proof.
  intros Hq.
  destruct (decide (mode e = Broadcast)) as [E|E1].
  { rewrite (dispatch_Broadcast e x E). rewrite E.
    unfold Broadcast, Handle, Socket. intuition (try done; try lia). }
  destruct (decide (mode e = Handle)) as [E|E2].
  { rewrite (dispatch_Handle e x E Hq). rewrite E.
    unfold Broadcast, Handle, Socket. intuition (try done; try lia). }
  destruct (decide (mode e = Socket)) as [E|E3].
  { rewrite (dispatch_Socket e x E). rewrite E.
    unfold Broadcast, Handle, Socket. intuition (try done; try lia). }
  rewrite dispatch_other by done. simpl.
  split; [by intros ?%elem_of_nil|]. intuition done.
Qed.

(** Whether it panics or not, the dispatcher writes to registered
    connections only. *)
Lemma dispatch_written_registered e x :
  x ∈ written (dispatch write_fails clients order e) →
  is_Some (clients !! x).
Proof.
  destruct (panics (dispatch write_fails clients order e)) eqn:Hq.
  - destruct (decide (mode e = Handle)) as [E|E].
    + destruct (dispatch_Handle_panics e E) as [_ Hp]. rewrite (Hp Hq).
      by intros ?%elem_of_nil.
    + by rewrite dispatch_no_panic in Hq.
  - rewrite (dispatch_written e x Hq).
    intros [[_ ?]|[(_ & h & _ & Hl)|(_ & _ & ?)]]; eauto.
Qed.

End Delivery.


(** ** Failing writes *)

Lemma logged_app evs1 evs2 : logged (evs1 ++ evs2) = logged evs1 ++ logged evs2.
Proof.
  induction evs1 as [|[c p|c|] evs1 IH]; simpl; [done|done| |done].
  by rewrite IH.
Qed.

Section WriteFailures.
Variable write_fails : Conn → bool.

Lemma write_to_logged c p :
  logged (write_to write_fails c p) = if write_fails c then [c] else [].
Proof. unfold write_to. simpl. by destruct (write_fails c). Qed.

Lemma loop_logged (keep : SocketHandler → bool) p
    (order : list (Conn * SocketHandler)) :
  logged (flat_map (λ '(c, handle),
            if keep handle then write_to write_fails c p else []) order)
  = filter (λ c, write_fails c = true)
      (written (flat_map (λ '(c, handle),
                  if keep handle then write_to write_fails c p else []) order)).
Proof.
  induction order as [|[c handle] order IH]; [done|].
  simpl. rewrite logged_app, written_app, filter_app, IH. f_equal.
  destruct (keep handle); [|done].
  rewrite write_to_logged, written_write_to, filter_cons, filter_nil.
  destruct (write_fails c) eqn:E.
  - by rewrite decide_True.
  - by rewrite decide_False by congruence.
Qed.

Lemma loop_written_any (keep : SocketHandler → bool) p
    (order : list (Conn * SocketHandler)) (wf : Conn → bool) :
  written (flat_map (λ '(c, handle),
             if keep handle then write_to write_fails c p else []) order)
  = written (flat_map (λ '(c, handle),
               if keep handle then write_to wf c p else []) order).
Proof. by rewrite !written_loop. Qed.

(** The same for the loop of the [Handle] case, which may end in a
    panic: where it ends does not depend on the writes. *)
Lemma handle_loop_logged (order : list (Conn * SocketHandler)) e :
  logged (handle_loop write_fails order e)
  = filter (λ c, write_fails c = true)
      (written (handle_loop write_fails order e)).
Proof.
  induction order as [|[c handle] order IH]; [done|]. simpl.
  destruct (iface_eq (Some handle) (sh e)) as [[|]|]; [|done|done].
  simpl. rewrite filter_cons. destruct (write_fails c) eqn:E; simpl.
  - rewrite ?decide_True by done. by rewrite IH.
  - by rewrite ?decide_False by congruence.
Qed.

Lemma handle_loop_written_any (order : list (Conn * SocketHandler)) e
    (wf : Conn → bool) :
  written (handle_loop write_fails order e) = written (handle_loop wf order e).
Proof.
  induction order as [|[c handle] order IH]; [done|]. simpl.
  destruct (iface_eq (Some handle) (sh e)) as [[|]|]; [|done|done].
  simpl. destruct (write_fails c), (wf c); simpl; by rewrite IH.
Qed.
End WriteFailures.

(** X7. A write that fails costs one log line and nothing else: for any
    envelope and registry, the connections the dispatcher writes to, in
    order, are the same whichever writes fail, and the log lines are, in
    order, those of the written connections whose write failed. *)
Theorem failed_writes_are_logged_and_skipped (write_fails wf : Conn → bool)
    (clients : gmap Conn SocketHandler) (order : list (Conn * SocketHandler))
    (e : Transmitter) :
  written (dispatch write_fails clients order e)
  = written (dispatch wf clients order e)
  ∧ logged (dispatch write_fails clients order e)
    = filter (λ c, write_fails c = true)
        (written (dispatch write_fails clients order e)).
Proof.
  unfold dispatch.
  destruct (mode e =? Socket).
  { destruct (ws e) as [c|]; [|done]. destruct (clients !! c); [|done].
    rewrite !written_write_to, write_to_logged, filter_cons, filter_nil.
    split; [done|]. destruct (write_fails c) eqn:E.
    - by rewrite decide_True.
    - by rewrite decide_False by congruence. }
  destruct (mode e =? Handle).
  { split.
    - apply handle_loop_written_any.
    - apply handle_loop_logged. }
  destruct (mode e =? Broadcast); [|done].
  split.
  - apply (loop_written_any write_fails (λ _, true)).
  - apply (loop_logged write_fails (λ _, true)).
Qed.

(** ** Each channel is closed once *)

Lemma sh_wait_nonneg th : 0 ≤ sh_wait th.
Proof. destruct th as [| | |[]]; simpl; lia. Qed.

Lemma sh_await_nonneg th : 0 ≤ sh_await th.
Proof. destruct th as [| | |[]]; simpl; lia. Qed.

Lemma send_done_nonneg th : 0 ≤ send_done th.
Proof. destruct th as [|[]| |]; simpl; lia. Qed.

Lemma once_inv_step s s' : once_inv s → step s s' → once_inv s'.
Proof.
  unfold once_inv. intros (Hd & Hr & Ht & Hs) Hstep.
  assert (Hs' : total send_done (threads s) ≤ 0
                ∨ exitTransmit (m_wh (mem s)) = true).
  { destruct (decide (0 < total send_done (threads s))); [right; auto|].
    left. lia. }
  clear Hs.
  destruct Hstep as [s i th m' th' Hi Hts|s name cf _|s|s t data md b h' _ _];
    simpl.
  - rewrite !(total_insert _ _ _ _ th' Hi).
    apply list_elem_of_lookup_2 in Hi.
    pose proof (total_elem _ _ _ sh_wait_nonneg Hi).
    pose proof (total_elem _ _ _ sh_await_nonneg Hi).
    pose proof (total_elem _ _ _ sh_returned_nonneg Hi).
    pose proof (total_elem _ _ _ send_done_nonneg Hi).
    pose proof (total_nonneg sh_wait (threads s) sh_wait_nonneg).
    pose proof (total_nonneg sh_await (threads s) sh_await_nonneg).
    pose proof (total_nonneg sh_returned (threads s) sh_returned_nonneg).
    clear Hi. step_of_thread Hts; enter_cases; close_facts; pool_solver.
  - rewrite !total_app. simpl. pool_solver.
  - rewrite !total_app. simpl. pool_solver.
  - pool_solver.
Qed.

Lemma once_inv_reachable wtref order1 order2 sc s0 s :
  boot wtref order1 order2 sc = Some s0 → reachable s0 s → once_inv s.
Proof.
  intros Hb. revert s. apply (reachable_invariant once_inv).
  - unfold once_inv. rewrite (boot_threads _ _ _ _ _ Hb).
    destruct (boot_mem _ _ _ _ _ Hb) as (f & -> & _). simpl.
    pool_solver.
  - intros s s' _. apply once_inv_step.
Qed.

Lemma in_sequence_stopping_le_receive th :
  in_sequence th + stopping th ≤ is_receive th.
Proof. destruct th as [?? []| | |]; simpl; lia. Qed.

Lemma in_sequence_nonneg th : 0 ≤ in_sequence th.
Proof. destruct th as [?? []| | |]; simpl; lia. Qed.

Lemma total_stopping_parts (l : list Thread) :
  total stopping l = total left_by_break l + total ctl_broken l.
Proof.
  rewrite <- total_plus. apply total_ext. intros th. apply stopping_parts.
Qed.

(** ** The lock *)

Lemma panicked_locked_nonneg th : 0 ≤ panicked_locked th.
Proof. destruct th as [|[]| |[]]; simpl; lia. Qed.

Lemma lock_inv_step s s' : lock_inv s → step s s' → lock_inv s'.
Proof.
  unfold lock_inv. intros Hl Hstep.
  assert (Hl' : clientLock (m_wh (mem s)) = false
                ∨ 0 < total panicked_locked (threads s)).
  { destruct (clientLock (m_wh (mem s))); [right; auto|by left]. }
  clear Hl.
  destruct Hstep as [s i th m' th' Hi Hts|s name cf _|s|s t data md b h' _ _];
    simpl.
  - rewrite !(total_insert _ _ _ _ th' Hi).
    apply list_elem_of_lookup_2 in Hi.
    pose proof (total_elem _ _ _ panicked_locked_nonneg Hi).
    clear Hi. step_of_thread Hts; enter_cases; close_facts; pool_solver.
  - rewrite !total_app. simpl. pool_solver.
  - rewrite !total_app. simpl. pool_solver.
  - pool_solver.
Qed.

Lemma lock_inv_reachable wtref order1 order2 sc s0 s :
  boot wtref order1 order2 sc = Some s0 → reachable s0 s → lock_inv s.
Proof.
  intros Hb. revert s. apply (reachable_invariant lock_inv).
  - unfold lock_inv. destruct (boot_mem _ _ _ _ _ Hb) as (f & -> & _). done.
  - intros s s' _. apply lock_inv_step.
Qed.

(** X8. In every state the system reaches, [Stop] has been called at
    most once. Once it has been called it is the last call into user
    code and the control loop is in no callback sequence; and either a
    call of [Shutdown] has closed [exitReceive], or the control loop is
    being ended by a panic in user code, of a call of a case body or of
    [Stop] itself. Short of such a panic the control loop never stops of
    its own accord. *)
Theorem Stop_is_called_at_most_once_and_last (wtref : ChanRef)
    (order1 order2 : list (string * SocketHandler)) (sc : SystemCommander)
    (s0 s : State) :
  boot wtref order1 order2 sc = Some s0 →
  reachable s0 s →
  stop_calls (m_calls (mem s)) ≤ 1
  ∧ (0 < stop_calls (m_calls (mem s)) →
     (∃ pre, m_calls (mem s) = pre ++ [CmdStop] ∧ stop_calls pre = 0)
     ∧ total in_sequence (threads s) = 0
     ∧ ((exitReceive (m_wh (mem s)) = true
         ∧ 0 < total sh_await (threads s) + total sh_returned (threads s))
        ∨ 0 < total ctl_broken (threads s))).
Proof.
  intros Hb Hr.
  destruct (stop_inv_reachable _ _ _ _ _ _ Hb Hr)
    as (Hone & _ & Hcount & Hlast & Hexit & _).
  destruct (once_inv_reachable _ _ _ _ _ _ Hb Hr) as (_ & Hrecv & _).
  pose proof (total_le _ _ (threads s) stopping_le_receive).
  pose proof (total_le _ _ (threads s) in_sequence_stopping_le_receive) as Hsum.
  rewrite total_plus in Hsum.
  pose proof (total_nonneg in_sequence (threads s) in_sequence_nonneg).
  pose proof (total_nonneg _ (threads s) left_by_break_nonneg).
  pose proof (total_nonneg _ (threads s) ctl_broken_nonneg).
  pose proof (total_stopping_parts (threads s)) as Hparts.
  split; [lia|]. intros Hpos.
  split; [destruct Hlast as [?|?]; [lia|done]|].
  split; [lia|].
  destruct (decide (0 < total ctl_broken (threads s))); [by right|]. left.
  assert (He : exitReceive (m_wh (mem s)) = true) by (apply Hexit; lia).
  split; [done|].
  destruct Hrecv as [[? _]|[_ ?]]; [congruence|done].
Qed.

(** X9. When a call of [Shutdown] has returned: all four signal channels
    are closed, the registry is empty, the wait group is at zero and no
    reader is left between [Add] and [Done], the control loop has
    returned, or has been ended by the panic of a call of a case body
    with its deferred function run through, and [Stop] was called exactly
    once, as the last call into user code. *)
Theorem Shutdown_returns_with_everything_stopped (wtref : ChanRef)
    (order1 order2 : list (string * SocketHandler)) (sc : SystemCommander)
    (s0 s : State) :
  boot wtref order1 order2 sc = Some s0 →
  reachable s0 s →
  0 < total sh_returned (threads s) →
  (doneConn (m_wh (mem s)) = true ∧ exitReceive (m_wh (mem s)) = true
   ∧ finishedExit (m_wh (mem s)) = true ∧ exitTransmit (m_wh (mem s)) = true)
  ∧ clients (m_wh (mem s)) = ∅
  ∧ wsWG (m_wh (mem s)) = 0
  ∧ total holds_wait (threads s) = 0
  ∧ (total ctl_done (threads s) = 1 ∨ total ctl_fault (threads s) = 1)
  ∧ stop_calls (m_calls (mem s)) = 1
  ∧ ∃ pre, m_calls (mem s) = pre ++ [CmdStop] ∧ stop_calls pre = 0.
Proof.
  intros Hb Hr Hret.
  destruct (Shutdown_returned_after_Stop _ _ _ _ _ _ Hb Hr Hret)
    as (Hreg & Hstop & Hlast & Hdone).
  destruct (wait_inv_reachable _ _ _ _ _ _ Hb Hr) as (Hw & _ & He).
  destruct (stop_inv_reachable _ _ _ _ _ _ Hb Hr)
    as (_ & _ & _ & _ & _ & _ & Hfe & _).
  destruct (once_inv_reachable _ _ _ _ _ _ Hb Hr) as (_ & Hrecv & Htr & _).
  pose proof (total_nonneg holds_wait (threads s) holds_wait_nonneg).
  pose proof (total_nonneg sh_await (threads s) sh_await_nonneg).
  pose proof (total_nonneg _ (threads s) ctl_done_nonneg).
  pose proof (total_nonneg _ (threads s) ctl_fault_nonneg).
  assert (E1 : exitReceive (m_wh (mem s)) = true).
  { destruct Hrecv as [[_ ?]|[? _]]; [lia|done]. }
  assert (E2 : exitTransmit (m_wh (mem s)) = true).
  { destruct Htr as [[_ ?]|[? _]]; [lia|done]. }
  destruct He as [Hd Hz]; [by left|].
  repeat split; auto; lia.
Qed.

(** X10. Once a call of [Shutdown] is past its critical section, a
    further call can take one step only: it panics at
    [close(wh.doneConn)], between [Lock] and [Unlock], so that the lock
    is left held; the registry is empty and stays as it is. *)
Theorem second_Shutdown_panics_with_the_lock_held (wtref : ChanRef)
    (order1 order2 : list (string * SocketHandler)) (sc : SystemCommander)
    (s0 s : State) (i : nat) (m' : Mem) (th' : Thread) :
  boot wtref order1 order2 sc = Some s0 →
  reachable s0 s →
  0 < total past_entry (threads s) →
  threads s !! i = Some (TShutdown ShEntry) →
  thread_step (mem s) (TShutdown ShEntry) m' th' →
  th' = TShutdown ShPanic
  ∧ m' = upd_wh (set_clientLock true) (mem s)
  ∧ clientLock (m_wh m') = true
  ∧ clients (m_wh m') = ∅.
Proof.
  intros Hb Hr Hpast Hi Hts.
  inversion Hts as [| | |???? Hs]; subst.
  destruct (Shutdown_twice_panics _ _ _ _ _ _ _ _ Hb Hr Hpast Hs) as [Hreg ->].
  inversion Hs; subst. done.
Qed.

(** X11. Once a call of [Shutdown] is past its critical section, no new
    request is accepted. While [clientLock] is free, [handleConnection]
    can take its first step, and only one: it returns at once,
    registering nothing, leaving the wait group alone and changing
    nothing else. [clientLock] is held between steps only where a
    goroutine has panicked holding it, a further call of [Shutdown] or
    the dispatcher at the handler comparison; the request then stays at
    [Lock] and takes no step at all. *)
Theorem connections_are_refused_after_Shutdown (wtref : ChanRef)
    (order1 order2 : list (string * SocketHandler)) (sc : SystemCommander)
    (s0 s : State) (handle : SocketHandler) (timeout : Z) :
  boot wtref order1 order2 sc = Some s0 →
  reachable s0 s →
  0 < total past_entry (threads s) →
  (clientLock (m_wh (mem s)) = false →
     conn_step handle timeout (mem s) ConnEntry (mem s) ConnReturned)
  ∧ (∀ m' pc', conn_step handle timeout (mem s) ConnEntry m' pc' →
       m' = mem s ∧ pc' = ConnReturned ∧ clients (m_wh m') = ∅)
  ∧ (clientLock (m_wh (mem s)) = true →
       0 < total panicked_locked (threads s)
       ∧ ∀ m' pc', ¬ conn_step handle timeout (mem s) ConnEntry m' pc').
Proof.
  intros Hb Hr Hpast.
  destruct (wait_inv_reachable _ _ _ _ _ _ Hb Hr) as (_ & Hd & _).
  destruct (stop_inv_reachable _ _ _ _ _ _ Hb Hr)
    as (_ & _ & _ & _ & _ & _ & _ & Hreg).
  pose proof (lock_inv_reachable _ _ _ _ _ _ Hb Hr) as Hlock.
  specialize (Hd Hpast). split; [|split].
  - intros Hfree. by apply conn_refused.
  - intros m' pc' Hstep. inversion Hstep; subst; try congruence.
    split; [done|]. split; [done|]. by apply Hreg.
  - intros Hheld. split; [by apply Hlock|].
    intros m' pc' Hstep. inversion Hstep; subst; congruence.
Qed.

(** X12. The wait group never goes below zero: in every state the system
    reaches its counter is at least the number of readers between [Add]
    and [Done], so that each [Done] finds it positive; and once
    [exitReceive] is closed the counter is zero and no such reader is
    left. *)
Theorem wait_group_covers_the_readers (wtref : ChanRef)
    (order1 order2 : list (string * SocketHandler)) (sc : SystemCommander)
    (s0 s : State) :
  boot wtref order1 order2 sc = Some s0 →
  reachable s0 s →
  0 ≤ total holds_wait (threads s) ≤ wsWG (m_wh (mem s))
  ∧ (∀ i h t ws, threads s !! i = Some (TConn h t (ConnClosed ws)) →
       0 ≤ wsWG (m_wh (mem s)) - 1)
  ∧ (exitReceive (m_wh (mem s)) = true →
       wsWG (m_wh (mem s)) = 0 ∧ total holds_wait (threads s) = 0).
Proof.
  intros Hb Hr.
  destruct (wait_inv_reachable _ _ _ _ _ _ Hb Hr) as (Hw & _ & He).
  pose proof (total_nonneg holds_wait (threads s) holds_wait_nonneg).
  split; [lia|]. split.
  - intros i h t ws Hi. apply list_elem_of_lookup_2 in Hi.
    pose proof (total_elem _ _ _ holds_wait_nonneg Hi). simpl in *. lia.
  - intros E. destruct He as [_ Hz]; [by left|]. lia.
Qed.

Lemma ctl_done_le_receive th : ctl_done th ≤ is_receive th.
Proof. destruct th as [?? []| | |]; simpl; lia. Qed.

(** X13. Each [close] of the package finds its channel open, with one
    exception. In every state the system reaches: where the control loop
    stands inside the deferred [sc.Stop()], before
    [close(wh.finishedExit)], [finishedExit] is open; where a call of
    [Shutdown] stands before [close(wh.exitReceive)], [exitReceive] is
    open; where it stands before [close(wh.exitTransmit)],
    [exitTransmit] is open; and a step of a call of [Shutdown] ends in a
    panic only at [close(wh.doneConn)], when another call has been
    through its critical section before. *)
Theorem only_a_second_Shutdown_closes_twice (wtref : ChanRef)
    (order1 order2 : list (string * SocketHandler)) (sc : SystemCommander)
    (s0 s : State) (i : nat) (th : Thread) :
  boot wtref order1 order2 sc = Some s0 →
  reachable s0 s →
  threads s !! i = Some th →
  (∀ sl rate pc, th = TReceive sl rate pc → pc = CtrlStop ∨ pc = CtrlUnwind →
     finishedExit (m_wh (mem s)) = false)
  ∧ (th = TShutdown ShCloseExit → exitReceive (m_wh (mem s)) = false)
  ∧ (th = TShutdown ShAwait → exitTransmit (m_wh (mem s)) = false)
  ∧ (∀ m' th', thread_step (mem s) th m' th' → th' = TShutdown ShPanic →
       th = TShutdown ShEntry
       ∧ doneConn (m_wh (mem s)) = true
       ∧ total sh_wait (threads s) + total sh_await (threads s)
         + total sh_returned (threads s) = 1).
Proof.
  intros Hb Hr Hi.
  destruct (stop_inv_reachable _ _ _ _ _ _ Hb Hr)
    as (Hone & _ & _ & _ & _ & Hfin & _).
  destruct (once_inv_reachable _ _ _ _ _ _ Hb Hr) as (Hd & Hrecv & Htr & _).
  pose proof (total_others_le _ _ _ _ _ ctl_over_le_receive Hi) as Hdr.
  rewrite total_plus in Hdr.
  apply list_elem_of_lookup_2 in Hi.
  pose proof (total_elem _ _ _ sh_wait_nonneg Hi).
  pose proof (total_elem _ _ _ sh_await_nonneg Hi).
  pose proof (total_elem _ _ _ sh_returned_nonneg Hi).
  pose proof (total_elem _ _ _ ctl_done_nonneg Hi).
  pose proof (total_elem _ _ _ ctl_fault_nonneg Hi).
  pose proof (total_nonneg sh_wait (threads s) sh_wait_nonneg).
  pose proof (total_nonneg sh_await (threads s) sh_await_nonneg).
  pose proof (total_nonneg sh_returned (threads s) sh_returned_nonneg).
  assert (Hfin' : finishedExit (m_wh (mem s)) = false
                  ∨ total ctl_done (threads s) + total ctl_fault (threads s) = 1).
  { destruct (finishedExit (m_wh (mem s))); [right; auto|by left]. }
  clear Hi Hfin. split; [|split; [|split]].
  - intros sl rate pc -> [->| ->]; simpl in *; pool_solver.
  - intros ->. simpl in *. pool_solver.
  - intros ->. simpl in *. pool_solver.
  - intros m' th' Hts ->.
    step_of_thread Hts; close_facts; pool_solver.
Qed.

(** X14. The dispatcher outlives the control loop: in every state the
    system reaches in which the dispatcher has returned, the control loop
    has returned before it, or has been ended by the panic of a call of a
    case body with its deferred function run through; [Stop] has been
    called, exactly once, and a call of [Shutdown] has come back. What
    [Stop] sends still finds the dispatcher running. *)
Theorem dispatcher_returns_after_Stop (wtref : ChanRef)
    (order1 order2 : list (string * SocketHandler)) (sc : SystemCommander)
    (s0 s : State) :
  boot wtref order1 order2 sc = Some s0 →
  reachable s0 s →
  0 < total send_done (threads s) →
  finishedExit (m_wh (mem s)) = true
  ∧ (total ctl_done (threads s) = 1 ∨ total ctl_fault (threads s) = 1)
  ∧ stop_calls (m_calls (mem s)) = 1
  ∧ 0 < total sh_returned (threads s).
Proof.
  intros Hb Hr Hsd.
  destruct (once_inv_reachable _ _ _ _ _ _ Hb Hr) as (_ & _ & Htr & Hs).
  specialize (Hs Hsd).
  assert (Hret : 0 < total sh_returned (threads s)).
  { destruct Htr as [[? _]|[_ ?]]; [congruence|done]. }
  destruct (Shutdown_returned_after_Stop _ _ _ _ _ _ Hb Hr Hret)
    as (_ & Hstop & _ & Hdone).
  destruct (stop_inv_reachable _ _ _ _ _ _ Hb Hr)
    as (_ & _ & _ & _ & _ & _ & Hfe & _).
  pose proof (total_nonneg _ (threads s) ctl_done_nonneg).
  pose proof (total_nonneg _ (threads s) ctl_fault_nonneg).
  repeat split; auto; lia.
Qed.

(** ** The registry *)

(** What a step of a goroutine does to the registry, to the closed
    connections and to the upgrader: nothing, or a reader registers a
    fresh connection, or a reader takes its connection off the registry,
    or a reader closes its connection, or [Shutdown] closes and clears
    all. *)
Lemma thread_step_registry m th m' th' :
  thread_step m th m' th' →
  (clients (m_wh m') = clients (m_wh m) ∧ m_closed m' = m_closed m
   ∧ m_next m' = m_next m ∧ same_conn th th')
  ∨ (∃ h t, th = TConn h t ConnEntry ∧ th' = TConn h t (ConnRead (m_next m))
       ∧ clients (m_wh m') = <[m_next m := h]> (clients (m_wh m))
       ∧ m_closed m' = m_closed m ∧ m_next m' = Pos.succ (m_next m))
  ∨ (∃ h t ws, th = TConn h t (ConnClosing ws) ∧ th' = TConn h t (ConnClosed ws)
       ∧ clients (m_wh m') = delete ws (clients (m_wh m))
       ∧ m_closed m' = m_closed m ∧ m_next m' = m_next m)
  ∨ (∃ h t ws, th = TConn h t (ConnClosed ws) ∧ th' = TConn h t ConnReturned
       ∧ clients (m_wh m') = clients (m_wh m)
       ∧ m_closed m' = {[ws]} ∪ m_closed m ∧ m_next m' = m_next m)
  ∨ (th = TShutdown ShEntry ∧ th' = TShutdown ShWait
       ∧ clients (m_wh m') = ∅
       ∧ m_closed m' = dom (clients (m_wh m)) ∪ m_closed m
       ∧ m_next m' = m_next m).
Proof.
  intros Hts. step_of_thread Hts; enter_cases;
    first
      [ left; repeat split; try done; simpl;
        first [ by intros ??? [=]
              | eexists; split; [reflexivity|]; simpl;
                repeat split; try done; try (by intros ? [=]);
                try (by intros ? []); by intros ? ->
              | done ]
      | right; left; by eauto 10
      | right; right; left; by eauto 10
      | right; right; right; left; by eauto 10
      | right; right; right; right; by eauto 10 ].
Qed.

Lemma serves_conn_of pc ws : serves pc ws → conn_of pc = Some ws.
Proof. destruct pc; simpl; try done; by intros ->. Qed.

Lemma reg_inv_thread_step s k th m' th' :
  reg_inv s → threads s !! k = Some th → thread_step (mem s) th m' th' →
  reg_inv (mkState m' (<[k := th']> (threads s))).
Proof.
  intros (R1 & R2 & R3 & R4) Hk Hts.
  assert (Hlen : (k < length (threads s))%nat) by by eapply lookup_lt_Some.
  unfold reg_inv. simpl.
  destruct (thread_step_registry _ _ _ _ Hts)
    as [(Ec & Ed & En & Hsame)
       |[(h0 & t0 & -> & -> & Ec & Ed & En)
        |[(h0 & t0 & ws0 & -> & -> & Ec & Ed & En)
         |[(h0 & t0 & ws0 & -> & -> & Ec & Ed & En)
          |(-> & -> & Ec & Ed & En)]]]];
    rewrite Ec, Ed, En; clear Ec Ed En Hts.
  - (* the registry is left alone *)
    assert (Hold : ∀ i h t pc ws,
              <[k := th']> (threads s) !! i = Some (TConn h t pc) →
              conn_of pc = Some ws →
              ∃ pc0, threads s !! i = Some (TConn h t pc0)
                     ∧ conn_of pc0 = Some ws
                     ∧ (pc = ConnClosed ws → pc0 = ConnClosed ws)).
    { intros i h t pc ws Hi Hc.
      apply list_lookup_insert_Some in Hi as [(<- & -> & _)|[Hne Hi]].
      - simpl in Hsame. destruct Hsame as (pc0 & -> & Hc0 & _ & Hncl).
        exists pc0. split; [done|]. split; [by apply Hc0|].
        intros ->. by destruct (Hncl ws).
      - exists pc. done. }
    split; [|split; [done|split]].
    + intros ws h Hl. destruct (R1 ws h Hl) as (Hnc & Hlt & i0 & t & pc & Hi0 & Hs).
      split; [done|]. split; [done|].
      destruct (decide (i0 = k)) as [->|Hne].
      * rewrite Hk in Hi0. injection Hi0 as ->.
        destruct th' as [| |h' t' pc'|]; simpl in Hsame;
          try (by destruct (Hsame h t pc)).
        destruct Hsame as (pc0 & [= <- <- <-] & _ & Hs' & _).
        exists k, t, pc'. split; [by apply list_lookup_insert_eq|by apply Hs'].
      * exists i0, t, pc. split; [by rewrite list_lookup_insert_ne|done].
    + intros i h t pc ws Hi Hc.
      destruct (Hold i h t pc ws Hi Hc) as (pc0 & Hi0 & Hc0 & Hcl).
      destruct (R3 i h t pc0 ws Hi0 Hc0) as [Hlt Hoff]. split; [done|].
      intros E. by apply Hoff, Hcl.
    + intros i j h t pc h' t' pc' ws Hi Hj Hc Hc'.
      destruct (Hold i h t pc ws Hi Hc) as (pc0 & Hi0 & Hc0 & _).
      destruct (Hold j h' t' pc' ws Hj Hc') as (pc1 & Hj0 & Hc1 & _).
      by apply (R4 i j h t pc0 h' t' pc1 ws).
  - (* a reader registers the connection the upgrader hands out *)
    assert (Hold : ∀ i h t pc ws,
              <[k := TConn h0 t0 (ConnRead (m_next (mem s)))]> (threads s) !! i
                = Some (TConn h t pc) →
              conn_of pc = Some ws →
              (i = k ∧ ws = m_next (mem s) ∧ pc = ConnRead ws)
              ∨ (i ≠ k ∧ threads s !! i = Some (TConn h t pc)
                 ∧ (ws < m_next (mem s))%positive)).
    { intros i h t pc ws Hi Hc.
      apply list_lookup_insert_Some in Hi as [(<- & E & _)|[Hne Hi]].
      - injection E as <- <- <-. simpl in Hc. injection Hc as <-. by left.
      - right. split; [done|]. split; [done|]. by apply (R3 i h t pc ws). }
    split; [|split; [|split]].
    + intros ws h Hl.
      apply lookup_insert_Some in Hl as [[<- <-]|[Hne Hl]].
      * split.
        { intros Hin. apply R2 in Hin. lia. }
        split; [lia|]. exists k, t0, (ConnRead (m_next (mem s))).
        split; [by apply list_lookup_insert_eq|done].
      * destruct (R1 ws h Hl) as (Hnc & Hlt & i0 & t & pc & Hi0 & Hs).
        split; [done|]. split; [lia|]. exists i0, t, pc. split; [|done].
        rewrite list_lookup_insert_ne; [done|].
        intros ->. rewrite Hk in Hi0. injection Hi0 as <- <- <-. done.
    + intros c Hin. apply R2 in Hin. lia.
    + intros i h t pc ws Hi Hc.
      destruct (Hold i h t pc ws Hi Hc) as [(-> & -> & ->)|(Hne & Hi0 & Hlt)].
      * split; [lia|]. by intros [=].
      * split; [lia|]. intros E.
        rewrite lookup_insert_ne by lia.
        by apply (R3 i h t pc ws Hi0 Hc).
    + intros i j h t pc h' t' pc' ws Hi Hj Hc Hc'.
      destruct (Hold i h t pc ws Hi Hc) as [(-> & -> & ->)|(Hne & Hi0 & Hlt)];
        destruct (Hold j h' t' pc' _ Hj Hc') as [(-> & E & ->)|(Hne' & Hj0 & Hlt')];
        try done; try lia.
      by apply (R4 i j h t pc h' t' pc' ws).
  - (* a reader takes its connection off the registry *)
    assert (Hold : ∀ i h t pc ws,
              <[k := TConn h0 t0 (ConnClosed ws0)]> (threads s) !! i
                = Some (TConn h t pc) →
              conn_of pc = Some ws →
              (i = k ∧ ws = ws0 ∧ pc = ConnClosed ws0)
              ∨ (i ≠ k ∧ threads s !! i = Some (TConn h t pc))).
    { intros i h t pc ws Hi Hc.
      apply list_lookup_insert_Some in Hi as [(<- & E & _)|[Hne Hi]].
      - injection E as <- <- <-. simpl in Hc. injection Hc as <-. by left.
      - by right. }
    split; [|split; [done|split]].
    + intros ws h Hl. apply lookup_delete_Some in Hl as [Hne Hl].
      destruct (R1 ws h Hl) as (Hnc & Hlt & i0 & t & pc & Hi0 & Hs).
      split; [done|]. split; [done|]. exists i0, t, pc. split; [|done].
      rewrite list_lookup_insert_ne; [done|].
      intros ->. rewrite Hk in Hi0. injection Hi0 as <- <- <-.
      simpl in Hs. done.
    + intros i h t pc ws Hi Hc.
      destruct (Hold i h t pc ws Hi Hc) as [(-> & -> & ->)|(Hne & Hi0)].
      * split; [by apply (R3 k h0 t0 (ConnClosing ws0) ws0)|].
        intros _. apply lookup_delete_eq.
      * destruct (R3 i h t pc ws Hi0 Hc) as [Hlt Hoff]. split; [done|].
        intros E. apply lookup_delete_None. right. by apply Hoff.
    + intros i j h t pc h' t' pc' ws Hi Hj Hc Hc'.
      assert (Hfrom : ∀ i h t pc, 
                <[k := TConn h0 t0 (ConnClosed ws0)]> (threads s) !! i
                  = Some (TConn h t pc) →
                conn_of pc = Some ws →
                ∃ pc0, threads s !! i = Some (TConn h t pc0)
                       ∧ conn_of pc0 = Some ws).
      { intros i1 h1 t1 pc1 Hi1 Hc1.
        apply list_lookup_insert_Some in Hi1 as [(<- & E & _)|[Hne Hi1]].
        - injection E as <- <- <-. by exists (ConnClosing ws0).
        - by exists pc1. }
      destruct (Hfrom i h t pc Hi Hc) as (pc0 & Hi0 & Hc0).
      destruct (Hfrom j h' t' pc' Hj Hc') as (pc1 & Hj0 & Hc1).
      by apply (R4 i j h t pc0 h' t' pc1 ws).
  - (* a reader closes its connection and is done *)
    assert (Hold : ∀ i h t pc ws,
              <[k := TConn h0 t0 ConnReturned]> (threads s) !! i
                = Some (TConn h t pc) →
              conn_of pc = Some ws →
              i ≠ k ∧ threads s !! i = Some (TConn h t pc)).
    { intros i h t pc ws Hi Hc.
      apply list_lookup_insert_Some in Hi as [(<- & E & _)|[Hne Hi]].
      - injection E as <- <- <-. done.
      - done. }
    destruct (R3 k h0 t0 (ConnClosed ws0) ws0 Hk eq_refl) as [Hlt0 Hoff0].
    specialize (Hoff0 eq_refl).
    split; [|split; [|split]].
    + intros ws h Hl.
      destruct (R1 ws h Hl) as (Hnc & Hlt & i0 & t & pc & Hi0 & Hs).
      split.
      { intros [Hin|Hin]%elem_of_union; [|done].
        apply elem_of_singleton in Hin. subst ws.
        discriminate (eq_trans (eq_sym Hl) Hoff0). }
      split; [done|]. exists i0, t, pc. split; [|done].
      rewrite list_lookup_insert_ne; [done|].
      intros ->. rewrite Hk in Hi0. injection Hi0 as <- <- <-. done.
    + intros c [Hin|Hin]%elem_of_union; [|by apply R2].
      by apply elem_of_singleton in Hin as ->.
    + intros i h t pc ws Hi Hc.
      destruct (Hold i h t pc ws Hi Hc) as [_ Hi0].
      by apply (R3 i h t pc ws).
    + intros i j h t pc h' t' pc' ws Hi Hj Hc Hc'.
      destruct (Hold i h t pc ws Hi Hc) as [_ Hi0].
      destruct (Hold j h' t' pc' ws Hj Hc') as [_ Hj0].
      by apply (R4 i j h t pc h' t' pc' ws).
  - (* [Shutdown] closes every registered connection and clears the registry *)
    assert (Hold : ∀ i h t pc,
              <[k := TShutdown ShWait]> (threads s) !! i = Some (TConn h t pc) →
              threads s !! i = Some (TConn h t pc)).
    { intros i h t pc Hi.
      by apply list_lookup_insert_Some in Hi as [(_ & ? & _)|[_ Hi]]. }
    split; [|split; [|split]].
    + intros ws h Hl. by rewrite lookup_empty in Hl.
    + intros c [Hin|Hin]%elem_of_union; [|by apply R2].
      apply elem_of_dom in Hin as [h Hl]. by apply (R1 c h).
    + intros i h t pc ws Hi Hc. split; [|by rewrite lookup_empty].
      by apply (R3 i h t pc ws (Hold _ _ _ _ Hi)).
    + intros i j h t pc h' t' pc' ws Hi Hj Hc Hc'.
      by apply (R4 i j h t pc h' t' pc' ws (Hold _ _ _ _ Hi) (Hold _ _ _ _ Hj)).
Qed.

Lemma reg_inv_step s s' : reg_inv s → step s s' → reg_inv s'.
Proof.
  intros Hinv Hstep.
  destruct Hstep as [s i th m' th' Hi Hts|s name cf _|s|s t data md b h' _ _].
  - by apply (reg_inv_thread_step s i th).
  - destruct Hinv as (R1 & R2 & R3 & R4). unfold reg_inv. simpl.
    set (new := TConn (cf_sh cf) (cf_timeout cf) ConnEntry).
    assert (Hold : ∀ i h t pc ws,
              (threads s ++ [new]) !! i = Some (TConn h t pc) →
              conn_of pc = Some ws → threads s !! i = Some (TConn h t pc)).
    { intros i h t pc ws Hi Hc.
      apply lookup_app_Some in Hi as [Hi|[_ Hi]]; [done|].
      apply list_lookup_singleton_Some in Hi as [_ E].
      injection E as <- <- <-. done. }
    split; [|split; [done|split]].
    + intros ws h Hl. destruct (R1 ws h Hl) as (? & ? & i0 & t & pc & Hi0 & ?).
      split; [done|]. split; [done|]. exists i0, t, pc.
      split; [by apply lookup_app_l_Some|done].
    + intros i h t pc ws Hi Hc. by apply (R3 i h t pc ws (Hold _ _ _ _ _ Hi Hc)).
    + intros i j h t pc h' t' pc' ws Hi Hj Hc Hc'.
      by apply (R4 i j h t pc h' t' pc' ws (Hold _ _ _ _ _ Hi Hc)
                  (Hold _ _ _ _ _ Hj Hc')).
  - destruct Hinv as (R1 & R2 & R3 & R4). unfold reg_inv. simpl.
    assert (Hold : ∀ i h t pc,
              (threads s ++ [TShutdown ShEntry]) !! i = Some (TConn h t pc) →
              threads s !! i = Some (TConn h t pc)).
    { intros i h t pc Hi.
      apply lookup_app_Some in Hi as [Hi|[_ Hi]]; [done|].
      by apply list_lookup_singleton_Some in Hi as [_ E]. }
    split; [|split; [done|split]].
    + intros ws h Hl. destruct (R1 ws h Hl) as (? & ? & i0 & t & pc & Hi0 & ?).
      split; [done|]. split; [done|]. exists i0, t, pc.
      split; [by apply lookup_app_l_Some|done].
    + intros i h t pc ws Hi Hc. by apply (R3 i h t pc ws (Hold _ _ _ _ Hi) Hc).
    + intros i j h t pc h' t' pc' ws Hi Hj Hc Hc'.
      by apply (R4 i j h t pc h' t' pc' ws (Hold _ _ _ _ Hi) (Hold _ _ _ _ Hj)).
  - done.
Qed.

Lemma reg_inv_reachable wtref order1 order2 sc s0 s :
  boot wtref order1 order2 sc = Some s0 → reachable s0 s → reg_inv s.
Proof.
  intros Hb. revert s. apply (reachable_invariant reg_inv).
  - unfold reg_inv. rewrite (boot_threads _ _ _ _ _ Hb).
    assert (Hm : clients (m_wh (mem s0)) = ∅ ∧ m_closed (mem s0) = ∅).
    { revert Hb. unfold boot. rewrite InitWebHandler_eq.
      destruct (sc_Start sc (init_tm wtref order1)); [done|].
      simpl. intros [= <-]. simpl. unfold init_funcs.
      by rewrite init_funcs_acc. }
    destruct Hm as [-> ->].
    split; [|split; [|split]].
    + intros ws h Hl. by rewrite lookup_empty in Hl.
    + intros c Hin. by apply not_elem_of_empty in Hin.
    + intros [|[|i]] h t pc ws Hi; simpl in Hi; done.
    + intros [|[|i]] j h t pc h' t' pc' ws Hi; simpl in Hi; done.
  - intros s1 s2 _. apply reg_inv_step.
Qed.

(** X15. In every state the system reaches, each connection on the
    registry is open (neither its reader nor [Shutdown] has closed it)
    and is bound to the handler of exactly one reader, which is at a
    point between registering it and taking it off. So whatever envelope
    the dispatcher takes and whatever order it visits the registry in, it
    writes only to open connections. *)
Theorem registered_connections_are_open_and_served (wtref : ChanRef)
    (order1 order2 : list (string * SocketHandler)) (sc : SystemCommander)
    (s0 s : State) :
  boot wtref order1 order2 sc = Some s0 →
  reachable s0 s →
  (∀ ws h, clients (m_wh (mem s)) !! ws = Some h →
     (ws ∉ m_closed (mem s))
     ∧ ∃ i timeout pc,
         threads s !! i = Some (TConn h timeout pc) ∧ serves pc ws
         ∧ ∀ j h' t' pc', threads s !! j = Some (TConn h' t' pc') →
                          conn_of pc' = Some ws → j = i)
  ∧ (∀ write_fails order e c,
       order ≡ₚ map_to_list (clients (m_wh (mem s))) →
       c ∈ written (dispatch write_fails (clients (m_wh (mem s))) order e) →
       c ∉ m_closed (mem s)).
Proof.
  intros Hb Hr.
  destruct (reg_inv_reachable _ _ _ _ _ _ Hb Hr) as (R1 & _ & _ & R4).
  split.
  - intros ws h Hl. destruct (R1 ws h Hl) as (Hnc & _ & i & t & pc & Hi & Hs).
    split; [done|]. exists i, t, pc. split; [done|]. split; [done|].
    intros j h' t' pc' Hj Hc.
    apply (R4 j i h' t' pc' h t pc ws Hj Hi Hc). by apply serves_conn_of.
  - intros write_fails order e c Hp Hin.
    apply (dispatch_written_registered write_fails _ order Hp) in Hin.
    destruct Hin as [h Hl]. by apply (R1 c h).
Qed.

(** ** What is fixed at construction *)

Section Configuration.
Variable sc : SystemCommander.
Variable handlers : list SocketHandler.

Lemma update_calls_handlers wtref :
  Forall (call_handler_in handlers) (update_calls wtref handlers).
Proof.
  unfold update_calls. apply Forall_cons. split; [done|].
  apply Forall_fmap, Forall_forall. by intros h Hin.
Qed.

(** Splits what is known and what is asked about lists of calls and of
    queued messages into their elements. *)
Ltac forall_parts :=
  repeat match goal with
  | H : _ ∧ _ |- _ => destruct H
  | H : Forall _ (_ :: _) |- _ => apply Forall_cons in H as [? ?]
  | H : ?l = _ :: _, H' : Forall _ ?l |- _ => rewrite H in H'
  | |- _ ∧ _ => split
  | |- Forall _ (_ ++ _) => apply Forall_app
  | |- Forall _ (_ :: _) => apply Forall_cons
  | |- Forall _ [] => apply Forall_nil_2
  end; subst; simpl in *; auto.

Lemma thread_step_configured m th m' th' :
  thread_step m th m' th' →
  thread_configured sc handlers th →
  Forall (λ c, cmd_h c ∈ handlers) (webReceive (m_wh m)) →
  Forall (call_handler_in handlers) (m_calls m) →
  thread_configured sc handlers th'
  ∧ wFuncs (m_wh m') = wFuncs (m_wh m)
  ∧ Forall (λ c, cmd_h c ∈ handlers) (webReceive (m_wh m'))
  ∧ Forall (call_handler_in handlers) (m_calls m').
Proof.
  intros Hts Hth Hq Hc. step_of_thread Hts; enter_cases; forall_parts.
  by destruct (proj1 (Forall_cons _ _ _)
                 (update_calls_handlers (webTransmit (m_wh m)))) as [_ ?].
Qed.

Lemma config_inv_step s s' :
  config_inv sc handlers s → step s s' → config_inv sc handlers s'.
Proof.
  intros (Hth & Hw & Hq & Hc) Hstep.
  destruct Hstep as [s i th m' th' Hi Hts|s name cf Hcf|s|s t data md b h' _ _];
    unfold config_inv; simpl.
  - assert (Hthi : thread_configured sc handlers th).
    { by apply (Forall_lookup_1 _ _ _ _ Hth Hi). }
    destruct (thread_step_configured _ _ _ _ Hts Hthi Hq Hc)
      as (Hth' & Ew & Hq' & Hc').
    split; [by apply Forall_insert|]. rewrite Ew. done.
  - split; [|done]. apply Forall_app. split; [done|].
    apply Forall_singleton. simpl. by apply (Hw name cf).
  - split; [|done]. apply Forall_app. split; [done|].
    by apply Forall_singleton.
  - done.
Qed.
End Configuration.

Lemma init_funcs_values timeout order (f : gmap string ConnectFunc) name cf :
  foldl (λ f '(s, h), <[s := makeConnectHandler h timeout]> f) f order !! name
    = Some cf →
  (cf_sh cf ∈ order.*2 ∧ cf_timeout cf = timeout) ∨ f !! name = Some cf.
Proof.
  revert f. induction order as [|[s h] order IH]; intros f; simpl; [by right|].
  intros Hl. destruct (IH _ Hl) as [[Hin ?]|Hl'].
  - left. split; [by right|done].
  - apply lookup_insert_Some in Hl' as [[_ <-]|[_ ?]]; [|by right].
    left. split; [by left|done].
Qed.

Lemma config_inv_reachable wtref order1 order2 sc s0 s :
  boot wtref order1 order2 sc = Some s0 → reachable s0 s →
  config_inv sc order2.*2 s.
Proof.
  intros Hb. revert s. apply (reachable_invariant (config_inv sc order2.*2)).
  - unfold config_inv. rewrite (boot_threads _ _ _ _ _ Hb).
    assert (Hm : wFuncs (m_wh (mem s0))
                 = foldl (λ f '(s, h),
                      <[s := makeConnectHandler h (sc_MessageTimeout sc)]> f)
                     ∅ order2
                 ∧ webReceive (m_wh (mem s0)) = []
                 ∧ m_calls (mem s0) = []).
    { revert Hb. unfold boot. rewrite InitWebHandler_eq.
      destruct (sc_Start sc (init_tm wtref order1)); [done|].
      simpl. intros [= <-]. simpl. unfold init_funcs.
      by rewrite init_funcs_acc. }
    destruct Hm as (-> & -> & ->).
    split; [by repeat constructor|]. split; [|done].
    intros name cf Hl.
    destruct (init_funcs_values _ _ _ _ _ Hl) as [?|Hl']; [done|].
    by rewrite lookup_empty in Hl'.
  - intros s1 s2 _. apply config_inv_step.
Qed.

(** X16. What [InitWebHandler] read from the commander stays fixed while
    the system runs. In every state it reaches: every reader runs with
    the message timeout the commander reported and with a handler of the
    handler map; the control loop runs with the update rate the commander
    reported; and every [Message] and [Update] call on or about a handler
    names a handler of the handler map. *)
Theorem configuration_is_frozen (wtref : ChanRef)
    (order1 order2 : list (string * SocketHandler)) (sc : SystemCommander)
    (hm : gmap string SocketHandler) (s0 s : State) :
  order2 ≡ₚ map_to_list hm →
  boot wtref order1 order2 sc = Some s0 →
  reachable s0 s →
  (∀ i h timeout pc, threads s !! i = Some (TConn h timeout pc) →
     timeout = sc_MessageTimeout sc ∧ ∃ name, hm !! name = Some h)
  ∧ (∀ i sl rate pc, threads s !! i = Some (TReceive sl rate pc) →
       rate = sc_UpdateFrequency sc ∧ sl ≡ₚ (map_to_list hm).*2)
  ∧ (∀ c, c ∈ m_calls (mem s) →
       match c with
       | CmdMessage _ h _ | HdlMessage h _ _ | HdlUpdate h _ =>
           ∃ name, hm !! name = Some h
       | CmdStop | CmdUpdate _ => True
       end).
Proof.
  intros Hp Hb Hr.
  destruct (config_inv_reachable _ _ _ _ _ _ Hb Hr) as (Hth & _ & _ & Hc).
  assert (Hh : ∀ h, h ∈ order2.*2 → ∃ name, hm !! name = Some h).
  { intros h Hin. apply list_elem_of_fmap in Hin as [[name h'] [-> Hin]].
    exists name. apply elem_of_map_to_list. by rewrite <- Hp. }
  split; [|split].
  - intros i h timeout pc Hi.
    destruct (Forall_lookup_1 _ _ _ _ Hth Hi) as [Hin ->]. auto.
  - intros i sl rate pc Hi.
    destruct (Forall_lookup_1 _ _ _ _ Hth Hi) as (-> & -> & _).
    split; [done|]. by rewrite Hp.
  - intros c Hin. pose proof (proj1 (Forall_forall _ _) Hc c Hin) as Hok.
    destruct c; simpl in *; auto.
Qed.

(** X5. When the commander reports an update rate of zero or less, no
    [Update] method is ever called, of the commander or of a handler: in
    every state the system reaches, the history of calls holds none. *)
Theorem no_Update_without_a_rate (wtref : ChanRef)
    (order1 order2 : list (string * SocketHandler)) (sc : SystemCommander)
    (s0 s : State) :
  sc_UpdateFrequency sc ≤ 0 →
  boot wtref order1 order2 sc = Some s0 →
  reachable s0 s →
  Forall (λ c, is_update c = false) (m_calls (mem s)).
Proof.
  intros Hrate Hb Hr.
  destruct (config_inv_reachable _ _ _ _ _ _ Hb Hr) as (Hth & _).
  destruct (control_loop_refines _ _ _ _ _ _ Hb Hr)
    as (_ & i & sl & rate & pc & sels & Hi & Hpc).
  destruct (Forall_lookup_1 _ _ _ _ Hth Hi) as (_ & -> & _).
  pose proof (no_ticker_no_Update wtref sl _ sels Hrate) as Hno.
  assert (Hbroken : (∃ made more, m_calls (mem s) = made ++ [CmdStop]
                       ∧ (handleWebsocketReceive wtref sl
                            (sc_UpdateFrequency sc) sels).1 = made ++ more) →
                    Forall (λ c, is_update c = false) (m_calls (mem s))).
  { intros (made & more & -> & E). rewrite E in Hno.
    apply Forall_app in Hno as [? _]. apply Forall_app. split; [done|].
    by repeat constructor. }
  destruct pc as [|c rest| | | | |].
  - destruct Hpc as [_ E]. by rewrite E in Hno.
  - destruct Hpc as [_ E]. rewrite E in Hno.
    by apply Forall_app in Hno as [? _].
  - destruct Hpc as (pre & _ & _ & E). by rewrite E in Hno.
  - by apply Hbroken, Hpc.
  - destruct Hpc as (pre & _ & _ & E). by rewrite E in Hno.
  - by apply Hbroken, Hpc.
  - by apply Hbroken, Hpc.
Qed.

(** ** Messages and the registry *)




(** ** The transmitters of the [Message] calls and the registry *)

Section CallsOfSteps.
Variable P : Call → Prop.


End CallsOfSteps.





(** ** The further properties at work on the scenarios *)

Section FurtherWitnesses.
Import Scenario.

Lemma shut_down_reachable : reachable booted shut_down.
Proof.
  unfold reachable.
  eapply rtc_l; [apply step_call_Shutdown|].
  eapply rtc_l.
  { eapply (step_thread _ 2); [reflexivity|].
    apply ts_shutdown. by apply (sh_close_conns _ true). }
  eapply rtc_l.
  { eapply (step_thread _ 2); [reflexivity|].
    apply ts_shutdown. by apply sh_waited. }
  eapply rtc_l.
  { eapply (step_thread _ 2); [reflexivity|].
    apply ts_shutdown. by apply (sh_close_exit _ true). }
  eapply rtc_l.
  { eapply (step_thread _ 1); [reflexivity|].
    apply ts_receive. by apply recv_exit. }
  eapply rtc_l.
  { eapply (step_thread _ 1); [reflexivity|].
    apply ts_receive. by apply (recv_stopped _ _ _ true). }
  eapply rtc_l.
  { eapply (step_thread _ 2); [reflexivity|].
    apply ts_shutdown. by apply (sh_finished _ true). }
  eapply rtc_l.
  { eapply (step_thread _ 0); [reflexivity|].
    apply ts_send. by apply send_exit. }
  apply rtc_refl.
Qed.

Lemma called_twice_reachable : reachable booted called_twice.
Proof.
  unfold reachable. eapply rtc_r; [apply hung_reachable|].
  apply (step_call_Shutdown hung).
Qed.

Lemma late_request_reachable : reachable booted late_request.
Proof.
  unfold reachable. eapply rtc_r; [apply hung_reachable|].
  apply (step_accept hung "main" (makeConnectHandler main_handler 0)).
  reflexivity.
Qed.

Lemma GetModes_witness :
  (∀ m, m ∈ GetModes to_main →
     0 ≤ m ≤ maxMode to_main
     ∧ ∀ data, wt to_main ≠ None → sr_ret (Send to_main data m) = true)
  ∧ (maxMode to_main ≤ Socket →
     ∀ m, m ∈ GetModes to_main ↔ 0 ≤ m ≤ maxMode to_main)
  ∧ (Socket < maxMode to_main →
     GetModes to_main = [Broadcast]
     ∧ ∀ data, wt to_main ≠ None → sr_ret (Send to_main data Socket) = true).
Proof.
  apply (GetModes_lists_what_Send_accepts to_main). simpl. unfold Handle. lia.
Defined.

Lemma Start_transmitters_witness :
  ∃ tm rest,
    snd (InitWebHandler wt0 order0 order0 sc0 []) = EvStart tm :: rest
    ∧ ∀ s, match hm0 !! s with
           | Some h =>
               ∃ t, tm !! s = Some t
                 ∧ GetHandler t = Some h
                 ∧ GetModes t = [Broadcast; Handle]
                 ∧ wt t = Some wt0 ∧ ws t = None
                 ∧ ∀ data, sr_ret (Send t data Socket) = false
           | None => tm !! s = None
           end.
Proof.
  exact (Start_gets_one_transmitter_per_name wt0 order0 order0 sc0 hm0
           order0_of_hm0).
Defined.

Lemma GetNames_witness :
  ∃ names,
    GetNames wh0 (map_to_list (wFuncs wh0)) = Some names
    ∧ NoDup names
    ∧ length names = size hm0
    ∧ ∀ s, (s ∈ names ↔ is_Some (hm0 !! s))
           ∧ (s ∈ names ↔ is_Some (GetWebFunc wh0 s)).
Proof.
  exact (GetNames_lists_each_name_once wt0 order0 order0 sc0 hm0 wh0 None _
           (map_to_list (wFuncs wh0)) order0_of_hm0 eq_refl (reflexivity _)).
Defined.


Lemma no_Update_witness :
  Forall (λ c, is_update c = false) (m_calls (mem in_call)).
Proof.
  apply (no_Update_without_a_rate wt0 order0 order0 sc0 booted in_call);
    [simpl; lia|apply boot_scenario|apply in_call_reachable].
Defined.

Lemma faulted_reachable : reachable booted faulted.
Proof.
  unfold reachable. eapply rtc_r; [apply in_call_reachable|].
  eapply (step_thread in_call 1); [reflexivity|].
  apply ts_receive. apply recv_fault.
Qed.

(** In [faulted] the commander's [Message] has panicked: [Stop] has been
    called with [exitReceive] open. *)
Lemma Stop_once_witness :
  exitReceive (m_wh (mem faulted)) = false
  ∧ stop_calls (m_calls (mem faulted)) ≤ 1
  ∧ (0 < stop_calls (m_calls (mem faulted)) →
     (∃ pre, m_calls (mem faulted) = pre ++ [CmdStop] ∧ stop_calls pre = 0)
     ∧ total in_sequence (threads faulted) = 0
     ∧ ((exitReceive (m_wh (mem faulted)) = true
         ∧ 0 < total sh_await (threads faulted)
               + total sh_returned (threads faulted))
        ∨ 0 < total ctl_broken (threads faulted))).
Proof.
  split; [reflexivity|].
  exact (Stop_is_called_at_most_once_and_last wt0 order0 order0 sc0 booted
           faulted boot_scenario faulted_reachable).
Defined.

Lemma shut_down_after_fault_reachable : reachable booted shut_down_after_fault.
Proof.
  unfold reachable. etrans; [apply faulted_reachable|].
  eapply rtc_l.
  { eapply (step_thread _ 1); [reflexivity|].
    apply ts_receive. by apply (recv_unwound _ _ _ true). }
  eapply rtc_l; [apply step_call_Shutdown|].
  eapply rtc_l.
  { eapply (step_thread _ 3); [reflexivity|].
    apply ts_shutdown. by apply (sh_close_conns _ true). }
  eapply rtc_l.
  { eapply (step_thread _ 2); [reflexivity|].
    apply ts_conn. apply conn_read_error. }
  eapply rtc_l.
  { eapply (step_thread _ 2); [reflexivity|].
    apply ts_conn. by apply conn_deregister. }
  eapply rtc_l.
  { eapply (step_thread _ 2); [reflexivity|].
    apply ts_conn. apply conn_done. }
  eapply rtc_l.
  { eapply (step_thread _ 3); [reflexivity|].
    apply ts_shutdown. by apply sh_waited. }
  eapply rtc_l.
  { eapply (step_thread _ 3); [reflexivity|].
    apply ts_shutdown. by apply (sh_close_exit _ true). }
  eapply rtc_l.
  { eapply (step_thread _ 3); [reflexivity|].
    apply ts_shutdown. by apply (sh_finished _ true). }
  apply rtc_refl.
Qed.

(** [Shutdown] has returned in [shut_down_after_fault], where the
    control loop did not return: the panic of a call ended it. *)
Lemma Shutdown_returns_witness :
  total ctl_done (threads shut_down_after_fault) = 0
  ∧ (doneConn (m_wh (mem shut_down_after_fault)) = true
     ∧ exitReceive (m_wh (mem shut_down_after_fault)) = true
     ∧ finishedExit (m_wh (mem shut_down_after_fault)) = true
     ∧ exitTransmit (m_wh (mem shut_down_after_fault)) = true)
  ∧ clients (m_wh (mem shut_down_after_fault)) = ∅
  ∧ wsWG (m_wh (mem shut_down_after_fault)) = 0
  ∧ total holds_wait (threads shut_down_after_fault) = 0
  ∧ (total ctl_done (threads shut_down_after_fault) = 1
     ∨ total ctl_fault (threads shut_down_after_fault) = 1)
  ∧ stop_calls (m_calls (mem shut_down_after_fault)) = 1
  ∧ ∃ pre, m_calls (mem shut_down_after_fault) = pre ++ [CmdStop]
           ∧ stop_calls pre = 0.
Proof.
  split; [reflexivity|].
  apply (Shutdown_returns_with_everything_stopped wt0 order0 order0 sc0 booted
           shut_down_after_fault boot_scenario
           shut_down_after_fault_reachable).
  simpl. lia.
Defined.

Lemma second_Shutdown_witness :
  TShutdown ShPanic = TShutdown ShPanic
  ∧ upd_wh (set_clientLock true) (mem called_twice)
    = upd_wh (set_clientLock true) (mem called_twice)
  ∧ clientLock (m_wh (upd_wh (set_clientLock true) (mem called_twice))) = true
  ∧ clients (m_wh (upd_wh (set_clientLock true) (mem called_twice))) = ∅.
Proof.
  apply (second_Shutdown_panics_with_the_lock_held wt0 order0 order0 sc0
           booted called_twice 4 _ _ boot_scenario called_twice_reachable).
  - simpl. lia.
  - reflexivity.
  - apply ts_shutdown. by apply sh_twice.
Defined.

(** In [late_request] the lock is free: the request is refused. *)
Lemma refused_witness :
  clientLock (m_wh (mem late_request)) = false
  ∧ (clientLock (m_wh (mem late_request)) = false →
       conn_step main_handler 0 (mem late_request) ConnEntry
         (mem late_request) ConnReturned)
  ∧ (∀ m' pc', conn_step main_handler 0 (mem late_request) ConnEntry m' pc' →
       m' = mem late_request ∧ pc' = ConnReturned ∧ clients (m_wh m') = ∅)
  ∧ (clientLock (m_wh (mem late_request)) = true →
       0 < total panicked_locked (threads late_request)
       ∧ ∀ m' pc', ¬ conn_step main_handler 0 (mem late_request) ConnEntry
                       m' pc').
Proof.
  split; [reflexivity|].
  apply (connections_are_refused_after_Shutdown wt0 order0 order0 sc0 booted
           late_request main_handler 0 boot_scenario late_request_reachable).
  simpl. lia.
Defined.

Lemma wait_group_witness :
  0 ≤ total holds_wait (threads handing) ≤ wsWG (m_wh (mem handing))
  ∧ (∀ i h t ws, threads handing !! i = Some (TConn h t (ConnClosed ws)) →
       0 ≤ wsWG (m_wh (mem handing)) - 1)
  ∧ (exitReceive (m_wh (mem handing)) = true →
       wsWG (m_wh (mem handing)) = 0 ∧ total holds_wait (threads handing) = 0).
Proof.
  exact (wait_group_covers_the_readers wt0 order0 order0 sc0 booted handing
           boot_scenario handing_reachable).
Defined.

(** The second call of [Shutdown] in [called_twice] finds [doneConn]
    closed. *)
Lemma only_second_Shutdown_witness :
  (∀ sl rate pc, TShutdown ShEntry = TReceive sl rate pc →
     pc = CtrlStop ∨ pc = CtrlUnwind →
     finishedExit (m_wh (mem called_twice)) = false)
  ∧ (TShutdown ShEntry = TShutdown ShCloseExit →
     exitReceive (m_wh (mem called_twice)) = false)
  ∧ (TShutdown ShEntry = TShutdown ShAwait →
     exitTransmit (m_wh (mem called_twice)) = false)
  ∧ (∀ m' th', thread_step (mem called_twice) (TShutdown ShEntry) m' th' →
       th' = TShutdown ShPanic →
       TShutdown ShEntry = TShutdown ShEntry
       ∧ doneConn (m_wh (mem called_twice)) = true
       ∧ total sh_wait (threads called_twice)
         + total sh_await (threads called_twice)
         + total sh_returned (threads called_twice) = 1).
Proof.
  apply (only_a_second_Shutdown_closes_twice wt0 order0 order0 sc0 booted
           called_twice 4 _ boot_scenario called_twice_reachable).
  reflexivity.
Defined.

Lemma dispatcher_returns_witness :
  finishedExit (m_wh (mem shut_down)) = true
  ∧ (total ctl_done (threads shut_down) = 1
     ∨ total ctl_fault (threads shut_down) = 1)
  ∧ stop_calls (m_calls (mem shut_down)) = 1
  ∧ 0 < total sh_returned (threads shut_down).
Proof.
  apply (dispatcher_returns_after_Stop wt0 order0 order0 sc0 booted shut_down
           boot_scenario shut_down_reachable).
  simpl. lia.
Defined.

Lemma registered_connections_witness :
  (∀ ws h, clients (m_wh (mem handing)) !! ws = Some h →
     (ws ∉ m_closed (mem handing))
     ∧ ∃ i timeout pc,
         threads handing !! i = Some (TConn h timeout pc) ∧ serves pc ws
         ∧ ∀ j h' t' pc', threads handing !! j = Some (TConn h' t' pc') →
                          conn_of pc' = Some ws → j = i)
  ∧ (∀ write_fails order e c,
       order ≡ₚ map_to_list (clients (m_wh (mem handing))) →
       c ∈ written (dispatch write_fails (clients (m_wh (mem handing))) order e) →
       c ∉ m_closed (mem handing)).
Proof.
  exact (registered_connections_are_open_and_served wt0 order0 order0 sc0
           booted handing boot_scenario handing_reachable).
Defined.

Lemma configuration_witness :
  (∀ i h timeout pc, threads handing !! i = Some (TConn h timeout pc) →
     timeout = sc_MessageTimeout sc0 ∧ ∃ name, hm0 !! name = Some h)
  ∧ (∀ i sl rate pc, threads handing !! i = Some (TReceive sl rate pc) →
       rate = sc_UpdateFrequency sc0 ∧ sl ≡ₚ (map_to_list hm0).*2)
  ∧ (∀ c, c ∈ m_calls (mem handing) →
       match c with
       | CmdMessage _ h _ | HdlMessage h _ _ | HdlUpdate h _ =>
           ∃ name, hm0 !! name = Some h
       | CmdStop | CmdUpdate _ => True
       end).
Proof.
  exact (configuration_is_frozen wt0 order0 order0 sc0 hm0 booted handing
           order0_of_hm0 boot_scenario handing_reachable).
Defined.
End FurtherWitnesses.
